(** * portail-ingenix: BSP construction and destruction, embedded and verified

    Shallow embedding of [engine/bsp.py] and [engine/destruction.py].

    - Python [float] is IEEE 754 binary64: it is modelled by Rocq's primitive
      [float], whose operations are the same correctly rounded operations.
    - Python exceptions are values of [exn]; fallible code lives in the
      [result] monad.
    - Python's bounded call stack is the [limit] argument of the recursive
      [build]: a call that would need more than [limit] nested frames raises
      [RecursionError], exactly as the interpreter does.
    - Objects mutated in place ([BSPNode]) are modelled twice: by explicit
      state passing over an ownership tree (module [BSPNode]), and by a store
      of node objects with addresses (module [Heap]) where aliasing matters. *)

From Stdlib Require Import Floats ZArith QArith Qpower List Bool Lia Permutation PeanoNat.
From Stdlib Require String.
Import ListNotations.

Set Implicit Arguments.
Set Warnings "-register-all".

(** ** Exceptions and the result monad *)

Inductive exn : Type :=
| ValueError          (* Polygon.from_vertices, math.sqrt domain error *)
| ZeroDivisionError   (* division by len([]) in Polygon.centroid *)
| OverflowError       (* float ** 2 out of range *)
| RecursionError.     (* call stack exhausted *)

Inductive result (A : Type) : Type :=
| Ok (a : A)
| Raise (e : exn).

Arguments Ok {A} a.
Arguments Raise {A} e.

Definition bind {A B : Type} (m : result A) (k : A -> result B) : result B :=
  match m with
  | Ok a => k a
  | Raise e => Raise e
  end.

Notation "x <- m ;; k" := (bind m (fun x => k))
  (at level 61, m at next level, right associativity).
Notation "' pat <- m ;; k" := (bind m (fun x => match x with pat => k end))
  (at level 61, pat pattern, m at next level, right associativity).

Definition returns {A : Type} (m : result A) : Prop := exists a, m = Ok a.

(** ** Floating point helpers: the Python operations that are not plain IEEE *)

Open Scope float_scope.

(** [math.sqrt x]: raises [ValueError] ("math domain error") on negative
    input, including [-inf]; [-0.0], [nan] and [inf] pass through. *)
Definition math_sqrt (v : float) : result float :=
  if v <? 0 then Raise ValueError else Ok (PrimFloat.sqrt v).

(** [v ** 2] on floats: the square, taken as correctly rounded (no
    concrete comparison below hinges on the last bit of a square), except
    that a finite base whose square is out of range raises
    [OverflowError]. *)
Definition pow2 (v : float) : result float :=
  let r := v * v in
  if is_infinity r && negb (is_infinity v) then Raise OverflowError else Ok r.

(** [float(n)] for a list length [n]. *)
Definition float_of_nat (n : nat) : float :=
  PrimFloat.of_uint63 (Uint63.of_Z (Z.of_nat n)).

(** [sum(xs)] over floats: left to right, starting from [0]. Interpreters
    that carry a compensation term through the loop (CPython 3.12 and
    later) return the same value on every concrete polygon used below;
    the general theorems do not depend on how the sum is rounded. *)
Definition fsum (xs : list float) : float := fold_left PrimFloat.add xs 0.

(** The classification tolerance, the literal [1e-5] of [BSPNode.build]. *)
Definition eps : float := 0x1.4f8b588e368f1p-17.

(** ** Vec3 *)

Module Vec3.

Record t : Type := mk { x : float; y : float; z : float }.

Definition add (self other : t) : t :=
  mk (x self + x other) (y self + y other) (z self + z other).

Definition sub (self other : t) : t :=
  mk (x self - x other) (y self - y other) (z self - z other).

Definition mul (self : t) (scalar : float) : t :=
  mk (x self * scalar) (y self * scalar) (z self * scalar).

Definition dot (self other : t) : float :=
  x self * x other + y self * y other + z self * z other.

Definition cross (self other : t) : t :=
  mk (y self * z other - z self * y other)
     (z self * x other - x self * z other)
     (x self * y other - y self * x other).

Definition length (self : t) : result float := math_sqrt (dot self self).

Definition normalize (self : t) : result t :=
  l <- length self ;;
  if l =? 0 then Ok (mk 0 0 0) else Ok (mul self (1 / l)).

End Vec3.

(** ** Plane *)

Module Plane.

Record t : Type := mk { normal : Vec3.t; d : float }.

Definition from_points (a b c : Vec3.t) : result t :=
  let ab := Vec3.sub b a in
  let ac := Vec3.sub c a in
  n <- Vec3.normalize (Vec3.cross ab ac) ;;
  let d := Vec3.dot n a in
  Ok (mk n d).

Definition classify_point (self : t) (p : Vec3.t) : float :=
  Vec3.dot (normal self) p - d self.

End Plane.

(** ** Polygon *)

Module Polygon.

Record t : Type := mk { vertices : list Vec3.t; plane : Plane.t }.

Definition from_vertices (verts : list Vec3.t) : result t :=
  match verts with
  | v0 :: v1 :: v2 :: _ =>
      plane <- Plane.from_points v0 v1 v2 ;;
      Ok (mk verts plane)
  | _ => Raise ValueError   (* len(verts) < 3 *)
  end.

Definition centroid (self : t) : result Vec3.t :=
  match vertices self with
  | [] => Raise ZeroDivisionError
  | vs =>
      let n := float_of_nat (List.length vs) in
      Ok (Vec3.mk (fsum (map Vec3.x vs) / n)
                  (fsum (map Vec3.y vs) / n)
                  (fsum (map Vec3.z vs) / n))
  end.

End Polygon.

(** ** Loops

    [for x in xs: body] with loop state [s]: the body may raise, which ends
    the loop. *)

Fixpoint for_each {S A : Type} (body : S -> A -> result S) (xs : list A) (s : S)
  : result S :=
  match xs with
  | [] => Ok s
  | a :: rest => s' <- body s a ;; for_each body rest s'
  end.

(** [[f(x) for x in xs]] *)
Fixpoint comprehension {A B : Type} (f : A -> result B) (xs : list A)
  : result (list B) :=
  match xs with
  | [] => Ok []
  | a :: rest => b <- f a ;; bs <- comprehension f rest ;; Ok (b :: bs)
  end.

(** ** BSPNode

    A node exclusively owns its children, so the object graph below a node is
    a tree and [build], which mutates [self], is a function from the node's
    state before the call to its state after it. *)

Module BSPNode.

Inductive t : Type :=
  mk { plane : option Plane.t;
       front : option t;
       back : option t;
       polygons : list Polygon.t }.

(** [BSPNode()]: the constructor called without polygons. *)
Definition empty : t := mk None None None [].

(** The three lists filled by the loop of [build]. *)
Record lists : Type :=
  mk_lists { coplanar : list Polygon.t;
             front_list : list Polygon.t;
             back_list : list Polygon.t }.

(** The body of the loop [for poly in polygons] of [build]. *)
Definition classify_body (pl : Plane.t) (acc : lists) (poly : Polygon.t)
  : result lists :=
  c <- Polygon.centroid poly ;;
  let classification := Plane.classify_point pl c in
  if abs classification <=? eps then
    Ok (mk_lists (coplanar acc ++ [poly]) (front_list acc) (back_list acc))
  else if 0 <? classification then
    Ok (mk_lists (coplanar acc) (front_list acc ++ [poly]) (back_list acc))
  else
    Ok (mk_lists (coplanar acc) (front_list acc) (back_list acc ++ [poly])).

(** [child or BSPNode()] *)
Definition or_new (child : option t) : t :=
  match child with
  | Some n => n
  | None => empty
  end.

(** [self.build(polygons)] with [limit] frames left on the call stack. *)
Fixpoint build (limit : nat) (self : t) (polys : list Polygon.t) : result t :=
  match limit with
  | O => Raise RecursionError
  | S limit' =>
      match polys with
      | [] => Ok self
      | first :: _ =>
          let pl := match plane self with
                    | Some pl => pl
                    | None => Polygon.plane first
                    end in
          ls <- for_each (classify_body pl) polys (mk_lists [] [] []) ;;
          let own := polygons self ++ coplanar ls in
          front' <- match front_list ls with
                    | [] => Ok (front self)
                    | _ :: _ =>
                        n <- build limit' (or_new (front self)) (front_list ls) ;;
                        Ok (Some n)
                    end ;;
          back' <- match back_list ls with
                   | [] => Ok (back self)
                   | _ :: _ =>
                       n <- build limit' (or_new (back self)) (back_list ls) ;;
                       Ok (Some n)
                   end ;;
          Ok (mk (Some pl) front' back' own)
      end
  end.

(** [BSPNode(polygons)] *)
Definition init (limit : nat) (polys : option (list Polygon.t)) : result t :=
  match polys with
  | None | Some [] => Ok empty
  | Some ps => build limit empty ps
  end.

End BSPNode.

(** ** BSPTree *)

Module BSPTree.

Record t : Type := mk { root : BSPNode.t }.

Definition init (limit : nat) (polys : list Polygon.t) : result t :=
  r <- BSPNode.init limit (Some polys) ;;
  Ok (mk r).

(** The inner function [traverse] of [all_polygons], threading [result]. *)
Fixpoint traverse (node : BSPNode.t) (result : list Polygon.t)
  : list Polygon.t :=
  match node with
  | BSPNode.mk _ f b ps =>
      let result := result ++ ps in
      let result := match f with
                    | Some n => traverse n result
                    | None => result
                    end in
      match b with
      | Some n => traverse n result
      | None => result
      end
  end.

Definition all_polygons (self : t) : list Polygon.t := traverse (root self) [].

End BSPTree.

(** ** Geometry helpers *)

Definition make_cube (center : Vec3.t) (size : float)
  : result (list Polygon.t) :=
  let cx := Vec3.x center in
  let cy := Vec3.y center in
  let cz := Vec3.z center in
  let s := size / 2 in
  let p0 := Vec3.mk (cx - s) (cy - s) (cz - s) in
  let p1 := Vec3.mk (cx + s) (cy - s) (cz - s) in
  let p2 := Vec3.mk (cx + s) (cy + s) (cz - s) in
  let p3 := Vec3.mk (cx - s) (cy + s) (cz - s) in
  let p4 := Vec3.mk (cx - s) (cy - s) (cz + s) in
  let p5 := Vec3.mk (cx + s) (cy - s) (cz + s) in
  let p6 := Vec3.mk (cx + s) (cy + s) (cz + s) in
  let p7 := Vec3.mk (cx - s) (cy + s) (cz + s) in
  let faces := [ [p0; p1; p2; p3];    (* back *)
                 [p4; p5; p6; p7];    (* front *)
                 [p0; p1; p5; p4];    (* bottom *)
                 [p2; p3; p7; p6];    (* top *)
                 [p1; p2; p6; p5];    (* right *)
                 [p3; p0; p4; p7] ]   (* left *) in
  comprehension Polygon.from_vertices faces.

(** ** destruction.py *)

Definition distance (a b : Vec3.t) : result float :=
  dx <- pow2 (Vec3.x a - Vec3.x b) ;;
  dy <- pow2 (Vec3.y a - Vec3.y b) ;;
  dz <- pow2 (Vec3.z a - Vec3.z b) ;;
  math_sqrt (dx + dy + dz).

(** The body of the loop of [apply_explosion]. *)
Definition explosion_body (position : Vec3.t) (radius : float)
  (remaining : list Polygon.t) (poly : Polygon.t) : result (list Polygon.t) :=
  c <- Polygon.centroid poly ;;
  dist <- distance c position ;;
  if radius <? dist then Ok (remaining ++ [poly]) else Ok remaining.

(** [apply_explosion(tree, position, radius)]; [limit] bounds the
    construction of the result. The traversal of [tree.all_polygons()] is
    taken without a stack bound here: in the source a traversal nests fewer
    calls than the construction of the same tree (the deepest [build] frame
    still calls [centroid] and the generator inside [sum]), so on a stack
    on which the tree was built the traversal is not the call that fails.
    On a tree deeper than the stack the source raises RecursionError in
    the traversal; the store model [Heap.apply_explosion] bounds it. *)
Definition apply_explosion (limit : nat) (tree : BSPTree.t)
  (position : Vec3.t) (radius : float) : result BSPTree.t :=
  remaining <- for_each (explosion_body position radius)
                        (BSPTree.all_polygons tree) [] ;;
  BSPTree.init limit remaining.

(** [range(n)] as floats, for [i * spacing]. *)
Definition build_city (limit : nat) (rows cols : nat) (spacing size : float)
  : result BSPTree.t :=
  polys <- for_each
             (fun polys i =>
                for_each
                  (fun polys j =>
                     let center := Vec3.mk (float_of_nat i * spacing) 0
                                           (float_of_nat j * spacing) in
                     cube <- make_cube center size ;;
                     Ok (polys ++ cube))
                  (seq 0 cols) polys)
             (seq 0 rows) [] ;;
  BSPTree.init limit polys.

(** ** Vocabulary of the specification *)

(** The polygon has a centroid: its vertex list is not empty. *)
Definition has_centroid (p : Polygon.t) : bool :=
  match Polygon.vertices p with
  | [] => false
  | _ :: _ => true
  end.

(** The three outcomes of the test cascade of [build], as tests on a
    polygon against a plane. *)
Definition is_coplanar (pl : Plane.t) (p : Polygon.t) : bool :=
  match Polygon.centroid p with
  | Ok c => abs (Plane.classify_point pl c) <=? eps
  | Raise _ => false
  end.

Definition is_front (pl : Plane.t) (p : Polygon.t) : bool :=
  match Polygon.centroid p with
  | Ok c => negb (abs (Plane.classify_point pl c) <=? eps)
            && (0 <? Plane.classify_point pl c)
  | Raise _ => false
  end.

Definition is_back (pl : Plane.t) (p : Polygon.t) : bool :=
  match Polygon.centroid p with
  | Ok c => negb (abs (Plane.classify_point pl c) <=? eps)
            && negb (0 <? Plane.classify_point pl c)
  | Raise _ => false
  end.

(** The centroid lies within [eps] of the polygon's own plane. *)
Definition self_coplanar (p : Polygon.t) : bool :=
  is_coplanar (Polygon.plane p) p.

(** The polygons of a node and of everything below it, in traversal order. *)
Definition flatten (n : BSPNode.t) : list Polygon.t := BSPTree.traverse n [].

Definition flatten_opt (n : option BSPNode.t) : list Polygon.t :=
  match n with
  | Some n => flatten n
  | None => []
  end.

(** The classification of a polygon's centroid, as tests on its sign. *)
Definition is_positive (pl : Plane.t) (p : Polygon.t) : bool :=
  match Polygon.centroid p with
  | Ok c => 0 <? Plane.classify_point pl c
  | Raise _ => false
  end.

Definition is_negative (pl : Plane.t) (p : Polygon.t) : bool :=
  match Polygon.centroid p with
  | Ok c => Plane.classify_point pl c <? 0
  | Raise _ => false
  end.

Definition is_unordered (pl : Plane.t) (p : Polygon.t) : bool :=
  match Polygon.centroid p with
  | Ok c => is_nan (Plane.classify_point pl c)
  | Raise _ => false
  end.

(** The partition invariant of a tree, for given tests of the own, front
    and back polygons of a node against the node's plane. A node without a
    plane is an untouched node: it holds nothing. *)
Fixpoint partitioned (own fr bk : Plane.t -> Polygon.t -> bool)
  (n : BSPNode.t) : bool :=
  match n with
  | BSPNode.mk pl f b ps =>
      match pl with
      | Some pl =>
          forallb (own pl) ps
          && forallb (fr pl) (flatten_opt f)
          && forallb (bk pl) (flatten_opt b)
      | None =>
          match ps, f, b with
          | [], None, None => true
          | _, _, _ => false
          end
      end
      && match f with
         | Some c => partitioned own fr bk c
         | None => true
         end
      && match b with
         | Some c => partitioned own fr bk c
         | None => true
         end
  end.

(** The invariant as the specification words it: within [eps], positive,
    negative. *)
Definition spec_invariant : BSPNode.t -> bool :=
  partitioned is_coplanar is_positive is_negative.

(** The invariant with the tests [build] performs. *)
Definition code_invariant : BSPNode.t -> bool :=
  partitioned is_coplanar is_front is_back.

(** The specification's invariant with not-a-number classifications
    admitted on the back side. *)
Definition nan_invariant : BSPNode.t -> bool :=
  partitioned is_coplanar is_positive
    (fun pl p => is_negative pl p || is_unordered pl p).

(** What [build] makes of a child list on a fresh node. *)
Definition child_of (limit : nat) (l : list Polygon.t)
  : result (option BSPNode.t) :=
  match l with
  | [] => Ok None
  | _ :: _ => n <- BSPNode.build limit BSPNode.empty l ;; Ok (Some n)
  end.

(** ** Vocabulary for binary64 values *)

(** The value is not negative: its sign bit is clear, or it is a zero or
    not a number. *)
Definition nonneg (f : spec_float) : Prop :=
  match f with
  | S754_infinity s | S754_finite s _ _ => s = false
  | _ => True
  end.

(** The float is a zero or a finite number. *)
Definition finite (v : float) : bool :=
  match Prim2SF v with
  | S754_zero _ | S754_finite _ _ _ => true
  | _ => false
  end.

Definition finite_vec (v : Vec3.t) : bool :=
  finite (Vec3.x v) && finite (Vec3.y v) && finite (Vec3.z v).

(** Every component is [0.0] or [-0.0]. *)
Definition zero_vec (v : Vec3.t) : bool :=
  (Vec3.x v =? 0) && (Vec3.y v =? 0) && (Vec3.z v =? 0).

(** ** Vocabulary for the destruction operation *)

(** The distance from the polygon's centroid to [position]. *)
Definition centroid_distance (position : Vec3.t) (p : Polygon.t)
  : result float :=
  c <- Polygon.centroid p ;;
  distance c position.

(** The distance can be computed: the loop body does not raise. *)
Definition measurable (position : Vec3.t) (p : Polygon.t) : bool :=
  match centroid_distance position p with
  | Ok _ => true
  | Raise _ => false
  end.

(** The polygon passes the test [distance(...) > radius]. *)
Definition kept (position : Vec3.t) (radius : float) (p : Polygon.t) : bool :=
  match centroid_distance position p with
  | Ok dist => radius <? dist
  | Raise _ => false
  end.

(** The polygon's distance is at most [radius]. *)
Definition within (position : Vec3.t) (radius : float) (p : Polygon.t) : bool :=
  match centroid_distance position p with
  | Ok dist => dist <=? radius
  | Raise _ => false
  end.

(** ** The object store

    [BSPNode] objects are mutable and referred to by address. The store is
    the list of all node objects ever allocated; [BSPNode()] appends one.
    This is the model in which "the input tree is not mutated" is a
    statement about the code rather than about the embedding. *)

Module Heap.

Definition addr : Type := nat.

Record node : Type :=
  mk_node { plane : option Plane.t;
            front : option addr;
            back : option addr;
            polygons : list Polygon.t }.

Definition t : Type := list node.

Definition fresh : node := mk_node None None None [].

Definition get (h : t) (a : addr) : node := nth a h fresh.

Fixpoint set (h : t) (a : addr) (n : node) : t :=
  match h, a with
  | [], _ => []
  | _ :: rest, O => n :: rest
  | o :: rest, S a' => o :: set rest a' n
  end.

(** [BSPNode()] *)
Definition alloc (h : t) : t * addr := (h ++ [fresh], List.length h).

Definition set_plane (n : node) (pl : Plane.t) : node :=
  mk_node (Some pl) (front n) (back n) (polygons n).

Definition set_front (n : node) (c : addr) : node :=
  mk_node (plane n) (Some c) (back n) (polygons n).

Definition set_back (n : node) (c : addr) : node :=
  mk_node (plane n) (front n) (Some c) (polygons n).

Definition extend_polygons (n : node) (ps : list Polygon.t) : node :=
  mk_node (plane n) (front n) (back n) (polygons n ++ ps).

(** [if not self.front: self.front = BSPNode()], returning the child. *)
Definition front_or_new (self : addr) (h : t) : t * addr :=
  match front (get h self) with
  | Some c => (h, c)
  | None =>
      let '(h', c) := alloc h in
      (set h' self (set_front (get h' self) c), c)
  end.

Definition back_or_new (self : addr) (h : t) : t * addr :=
  match back (get h self) with
  | Some c => (h, c)
  | None =>
      let '(h', c) := alloc h in
      (set h' self (set_back (get h' self) c), c)
  end.

(** [self.build(polygons)] on the object at address [self]. The store is
    returned also when the call raises: it is the store at that moment. *)
Fixpoint build (limit : nat) (self : addr) (polys : list Polygon.t) (h : t)
  : t * result unit :=
  match limit with
  | O => (h, Raise RecursionError)
  | S limit' =>
      match polys with
      | [] => (h, Ok tt)
      | first :: _ =>
          let h := match plane (get h self) with
                   | Some _ => h
                   | None => set h self (set_plane (get h self) (Polygon.plane first))
                   end in
          let pl := match plane (get h self) with
                    | Some pl => pl
                    | None => Polygon.plane first
                    end in
          match for_each (BSPNode.classify_body pl) polys
                  (BSPNode.mk_lists [] [] []) with
          | Raise e => (h, Raise e)
          | Ok ls =>
              let h := set h self (extend_polygons (get h self) (BSPNode.coplanar ls)) in
              let '(h, r) :=
                match BSPNode.front_list ls with
                | [] => (h, Ok tt)
                | _ :: _ =>
                    let '(h, child) := front_or_new self h in
                    build limit' child (BSPNode.front_list ls) h
                end in
              match r with
              | Raise e => (h, Raise e)
              | Ok _ =>
                  match BSPNode.back_list ls with
                  | [] => (h, Ok tt)
                  | _ :: _ =>
                      let '(h, child) := back_or_new self h in
                      build limit' child (BSPNode.back_list ls) h
                  end
              end
          end
      end
  end.

(** [BSPNode(polygons)]: allocate, then build when the list is not empty. *)
Definition node_init (limit : nat) (polys : option (list Polygon.t)) (h : t)
  : t * result addr :=
  let '(h, self) := alloc h in
  match polys with
  | None | Some [] => (h, Ok self)
  | Some ps =>
      let '(h, r) := build limit self ps h in
      (h, _ <- r ;; Ok self)
  end.

(** A [BSPTree] object: its one field, assigned once by [__init__]. *)
Record tree : Type := mk_tree { root : addr }.

Definition tree_init (limit : nat) (polys : list Polygon.t) (h : t)
  : t * result tree :=
  let '(h, r) := node_init limit (Some polys) h in
  (h, a <- r ;; Ok (mk_tree a)).

(** [traverse(node)] of [all_polygons]; it reads the store and extends the
    local list [acc] only. *)
Fixpoint traverse (limit : nat) (h : t) (n : option addr)
  (acc : list Polygon.t) : result (list Polygon.t) :=
  match limit with
  | O => Raise RecursionError
  | S limit' =>
      match n with
      | None => Ok acc
      | Some a =>
          let o := get h a in
          acc <- traverse limit' h (front o) (acc ++ polygons o) ;;
          traverse limit' h (back o) acc
      end
  end.

Definition all_polygons (limit : nat) (h : t) (self : tree)
  : result (list Polygon.t) :=
  traverse limit h (Some (root self)) [].

Definition apply_explosion (limit : nat) (self : tree) (position : Vec3.t)
  (radius : float) (h : t) : t * result tree :=
  match all_polygons limit h self with
  | Raise e => (h, Raise e)
  | Ok polys =>
      match for_each (explosion_body position radius) polys [] with
      | Raise e => (h, Raise e)
      | Ok remaining => tree_init limit remaining h
      end
  end.

(** Every reference held in the store points into the store. *)
Definition in_store (h : t) (r : option addr) : bool :=
  match r with
  | Some a => Nat.ltb a (List.length h)
  | None => true
  end.

Definition closed (h : t) : bool :=
  forallb (fun o => in_store h (front o) && in_store h (back o)) h.

(** [h'] holds every object of [h], unchanged. *)
Definition preserves (h h' : t) : Prop :=
  (List.length h <= List.length h')%nat /\
  forall a, (a < List.length h)%nat -> get h' a = get h a.

End Heap.

(** The value is a zero; the value is a zero or a finite number. *)
Definition is_zero_sf (f : spec_float) : Prop :=
  match f with
  | S754_zero _ => True
  | _ => False
  end.

Definition is_fin_sf (f : spec_float) : Prop :=
  match f with
  | S754_zero _ | S754_finite _ _ _ => True
  | _ => False
  end.

(** What [build] does with one of its two child lists: nothing when the
    list is empty, else the child (created when absent) is built with it. *)
Definition grow (limit : nat) (child : option BSPNode.t) (l : list Polygon.t)
  : result (option BSPNode.t) :=
  match l with
  | [] => Ok child
  | _ :: _ => n <- BSPNode.build limit (BSPNode.or_new child) l ;; Ok (Some n)
  end.

(** ** Exact collinearity

    The rational number a finite float denotes, and collinearity of three
    points decided on those numbers. *)



(** ** Sample inputs *)

Module Sample.

(** The polygon [Polygon.from_vertices] returns for a vertex loop. *)
Definition polygon (vs : list Vec3.t) : Polygon.t :=
  match Polygon.from_vertices vs with
  | Ok p => p
  | Raise _ => Polygon.mk vs (Plane.mk (Vec3.mk 0 0 0) 0)
  end.

Definition origin : Vec3.t := Vec3.mk 0 0 0.

(** The six faces of the cube of size 10 centered at the origin. *)
Definition cube : list Polygon.t :=
  match make_cube origin 10 with
  | Ok faces => faces
  | Raise _ => []
  end.

(** A triangle with integer coordinates, 10^12 away from the origin. *)
Definition far_vertices : list Vec3.t :=
  [Vec3.mk 1000000000000 0 0; Vec3.mk 1000000000001 1 0;
   Vec3.mk 1000000000000 1 1].

Definition far_triangle : Polygon.t := polygon far_vertices.

(** A triangle in the plane [z = 1/3], next to the origin. *)
Definition third : float := 1 / 3.

Definition near_vertices : list Vec3.t :=
  [Vec3.mk 0 0 third; Vec3.mk 1 0 third; Vec3.mk 0 1 third].

Definition near_triangle : Polygon.t := polygon near_vertices.

(** A quadrilateral whose fourth vertex is off the plane of the first
    three. *)
Definition bent_vertices : list Vec3.t :=
  [Vec3.mk 0 0 0; Vec3.mk 1 0 0; Vec3.mk 0 1 0; Vec3.mk 0 0 4].

Definition bent_quad : Polygon.t := polygon bent_vertices.


(** Three points of the diagonal [x = y = z]. *)
Definition diag_a : Vec3.t := Vec3.mk 0 0 0.
Definition diag_b : Vec3.t := Vec3.mk 1 1 1.
Definition diag_c : Vec3.t := Vec3.mk 2 2 2.

(** A polygon given a plane of its own choosing, with components of
    magnitude [2 ** 1023], and a triangle around the point (4, 4, 0). *)
Definition steep : Polygon.t :=
  Polygon.mk [Vec3.mk (-1) (-1) 0; Vec3.mk 1 (-1) 0; Vec3.mk 0 2 0]
             (Plane.mk (Vec3.mk 0x1p1023 (-0x1p1023) 0) 0).

Definition flat_triangle : Polygon.t :=
  polygon [Vec3.mk 3 3 0; Vec3.mk 5 3 0; Vec3.mk 4 6 0].

(** The store after [BSPTree(cube)] was built in an empty store, and the
    tree object. *)
Definition cube_store : Heap.t := fst (Heap.tree_init 6 cube []).

Definition cube_tree : Heap.tree := Heap.mk_tree 0%nat.

End Sample.

(** The cube scenario: the tree of the cube and the trees after the two
    edits at its center. *)
Module Scenario.

Definition tree_of (r : result BSPTree.t) : BSPTree.t :=
  match r with
  | Ok t => t
  | Raise _ => BSPTree.mk BSPNode.empty
  end.

Definition built : BSPTree.t := tree_of (BSPTree.init 6 Sample.cube).

Definition after_20 : BSPTree.t :=
  tree_of (apply_explosion 6 built Sample.origin 20).

Definition after_0 : BSPTree.t :=
  tree_of (apply_explosion 6 built Sample.origin 0).

End Scenario.

(** ** The store and the ownership tree

    [represents lo h a n]: the object at address [a] of the store [h] and
    the objects it reaches form the tree [n]; every child object lies at
    an address of at least [lo]. *)

Fixpoint represents (lo : nat) (h : Heap.t) (a : Heap.addr) (n : BSPNode.t)
  : Prop :=
  match n with
  | BSPNode.mk pl f b ps =>
      (a < List.length h)%nat /\
      Heap.plane (Heap.get h a) = pl /\
      Heap.polygons (Heap.get h a) = ps /\
      match f, Heap.front (Heap.get h a) with
      | None, None => True
      | Some nf, Some c => (lo <= c)%nat /\ represents lo h c nf
      | _, _ => False
      end /\
      match b, Heap.back (Heap.get h a) with
      | None, None => True
      | Some nb, Some c => (lo <= c)%nat /\ represents lo h c nb
      | _, _ => False
      end
  end.

(** The stack depth a traversal of the tree needs. *)
Fixpoint depth_needed (n : BSPNode.t) : nat :=
  match n with
  | BSPNode.mk _ f b _ =>
      S (Nat.max
           match f with Some c => depth_needed c | None => 1%nat end
           match b with Some c => depth_needed c | None => 1%nat end)
  end.

(** The statement proved by induction on the stack limit: on a node that
    has no children yet, the store and the state-passing model agree. *)
Definition agree_at (limit : nat) : Prop :=
  forall self polys h pl ps,
    (self < List.length h)%nat ->
    Heap.get h self = Heap.mk_node pl None None ps ->
    match BSPNode.build limit (BSPNode.mk pl None None ps) polys with
    | Ok n =>
        snd (Heap.build limit self polys h) = Ok tt /\
        represents (List.length h) (fst (Heap.build limit self polys h)) self n
    | Raise e => snd (Heap.build limit self polys h) = Raise e
    end.

(** ** The city of [build_city] and the program of [main.py] *)

(** The faces [make_cube] returns. *)
Definition cube_faces (center : Vec3.t) (size : float) : list Polygon.t :=
  match make_cube center size with
  | Ok faces => faces
  | Raise _ => []
  end.

(** [Vec3(i * spacing, 0, j * spacing)] *)
Definition city_center (spacing : float) (i j : nat) : Vec3.t :=
  Vec3.mk (float_of_nat i * spacing) 0 (float_of_nat j * spacing).

(** The faces of all cubes, row after row. *)
Definition city_polygons (rows cols : nat) (spacing size : float)
  : list Polygon.t :=
  flat_map
    (fun i => flat_map (fun j => cube_faces (city_center spacing i j) size)
                       (seq 0 cols))
    (seq 0 rows).

Module Main.

Import String.

(** What [print(label, n)] writes: the label and the number. *)
Definition line : Type := (String.string * nat)%type.

(** The two labels [main()] prints. *)
Definition initial_label : String.string := "Initial polygons:"%string.

Definition after_label : String.string := "Polygons after explosion:"%string.

(** [main()], with the lines written so far and how the call ends. *)
Definition main (limit : nat) : list line * result unit :=
  match build_city limit 3 3 20 10 with
  | Raise e => ([], Raise e)
  | Ok city =>
      let out := [(initial_label,
                   List.length (BSPTree.all_polygons city))] in
      match apply_explosion limit city (Vec3.mk 20 0 20) 12 with
      | Raise e => (out, Raise e)
      | Ok city =>
          (out ++ [(after_label,
                    List.length (BSPTree.all_polygons city))],
           Ok tt)
      end
  end.

(** The trees of [main()]. *)
Definition city : BSPTree.t := Scenario.tree_of (build_city 12 3 3 20 10).

Definition ruins : BSPTree.t :=
  Scenario.tree_of (apply_explosion 12 city (Vec3.mk 20 0 20) 12).

End Main.

(** ** The shape of a constructed tree *)

(** Every node holds at least one polygon, and its plane is the plane of
    the first polygon it holds. *)
Fixpoint anchored (n : BSPNode.t) : Prop :=
  match n with
  | BSPNode.mk pl f b ps =>
      match ps with
      | p :: _ => pl = Some (Polygon.plane p)
      | [] => False
      end /\
      match f with Some c => anchored c | None => True end /\
      match b with Some c => anchored c | None => True end
  end.

(** The number of node objects of a tree. *)
Fixpoint node_count (n : BSPNode.t) : nat :=
  match n with
  | BSPNode.mk _ f b _ =>
      S (match f with Some c => node_count c | None => 0 end +
         match b with Some c => node_count c | None => 0 end)
  end.

(** The invariant of a child that may be absent. *)
Definition code_invariant_opt (c : option BSPNode.t) : bool :=
  match c with
  | Some n => code_invariant n
  | None => true
  end.

(** The cube tree after [build] was called on its root a second time, with
    the faces of the cube again; and the plane of that root. *)
Definition built_twice : BSPNode.t :=
  match BSPNode.build 6 (BSPTree.root Scenario.built) Sample.cube with
  | Ok n => n
  | Raise _ => BSPNode.empty
  end.

Definition root_plane : Plane.t :=
  match BSPNode.plane (BSPTree.root Scenario.built) with
  | Some pl => pl
  | None => Plane.mk (Vec3.mk 0 0 0) 0
  end.

(** The cube tree after an explosion of radius 8 at a corner of the cube
    and one at another corner. *)
Definition corner : Vec3.t := Vec3.mk 5 5 5.

Definition other_corner : Vec3.t := Vec3.mk 5 (-5) (-5).

Definition after (t : BSPTree.t) (position : Vec3.t) : BSPTree.t :=
  Scenario.tree_of (apply_explosion 7 t position 8).

(** ** Degenerate planes *)

(** The plane has a zero normal and a zero offset, as [Plane.from_points]
    returns for points whose cross product is zero. *)
Definition degenerate (pl : Plane.t) : bool :=
  zero_vec (Plane.normal pl) && (Plane.d pl =? 0).

(** The polygon has a centroid with finite coordinates. *)
Definition finite_centroid (p : Polygon.t) : bool :=
  match Polygon.centroid p with
  | Ok c => finite_vec c
  | Raise _ => false
  end.

(** A polygon on three points of the diagonal, followed by the faces of
    the cube. *)
Definition diagonal : Polygon.t :=
  Sample.polygon [Sample.diag_a; Sample.diag_b; Sample.diag_c].

Definition diagonal_first : list Polygon.t := diagonal :: Sample.cube.

(** The distance from the polygon's centroid to [position] is computed and
    is a number. *)
Definition numeric_distance (position : Vec3.t) (p : Polygon.t) : bool :=
  match centroid_distance position p with
  | Ok d => d =? d
  | Raise _ => false
  end.

(** ** Collinear points and the test [l == 0] *)







(** ** Vocabulary for rounding

    The rounding of [SpecFloat] is followed on the rational numbers the
    mantissa and exponent pairs denote. *)

(** Something was shifted out of a rounding record. *)
Definition flags (r : shr_record) : bool := shr_r r || shr_s r.

(** The exponent binary64 gives to a number of magnitude [k]. *)
Definition fexp64 (k : Z) : Z := Z.max (k - 53)%Z (-1074)%Z.

(** The rational number [m * 2 ^ e]. *)
Definition Qv (m e : Z) : Q := (inject_Z m * Qpower 2 e)%Q.

(** The pair is the mantissa and exponent of a binary64 number. *)
Definition canon (m : positive) (e : Z) : Prop :=
  e = fexp64 (Zdigits2 (Zpos m) + e)%Z /\ (e <= 971)%Z.

(** The value is a zero, a positive number or plus infinity. *)
Definition nonneg_sf (f : spec_float) : Prop :=
  match f with
  | S754_zero _ | S754_finite false _ _ | S754_infinity false => True
  | _ => False
  end.

(** The value is plus infinity or a positive number that reaches
    [2 ^ j]. *)
Definition at_least (j : Z) (f : spec_float) : Prop :=
  match f with
  | S754_infinity false => True
  | S754_finite false m e => (Qv 1 j <= Qv (Zpos m) e)%Q
  | _ => False
  end.

(** If the value is a finite number, its magnitude is at most [B]. *)
Definition at_most (B : Q) (f : spec_float) : Prop :=
  match f with
  | S754_finite _ m e => (Qv (Zpos m) e <= B)%Q
  | _ => True
  end.

(** Half of the largest binary64 number. *)
Definition half_max : Q := Qv 9007199254740991 970.

(** The polygon is the one [Polygon.from_vertices] returns for its
    vertices, and its vertex list is shorter than 2^63, the range in which
    [float_of_nat] is the conversion of a list length. *)
Definition from_its_vertices (p : Polygon.t) : Prop :=
  Polygon.from_vertices (Polygon.vertices p) = Ok p /\
  (Z.of_nat (List.length (Polygon.vertices p)) < 2 ^ 63)%Z.

(** ** Basic facts: the monad, the loops, the traversal *)

Lemma bind_Ok {A B : Type} (m : result A) (k : A -> result B) (b : B) :
  bind m k = Ok b -> exists a, m = Ok a /\ k a = Ok b.
Proof.
  destruct m as [a|e]; simpl; intros H; [exists a; auto | discriminate].
Qed.

Lemma Ok_inj {A : Type} (a b : A) : Ok a = Ok b -> a = b.
Proof. congruence. Qed.

Lemma has_centroid_Ok (p : Polygon.t) :
  has_centroid p = true <-> exists c, Polygon.centroid p = Ok c.
Proof.
  unfold has_centroid, Polygon.centroid.
  destruct (Polygon.vertices p); split; intros H;
    try discriminate; try (destruct H; discriminate); eauto.
Qed.

Lemma no_centroid_Raise (p : Polygon.t) :
  has_centroid p = false -> Polygon.centroid p = Raise ZeroDivisionError.
Proof.
  unfold has_centroid, Polygon.centroid.
  destruct (Polygon.vertices p); [reflexivity | discriminate].
Qed.

(** Exactly one of the three tests holds of a polygon that has a centroid. *)
Lemma sides_exclusive (pl : Plane.t) (p : Polygon.t) :
  has_centroid p = true ->
  (is_coplanar pl p = true /\ is_front pl p = false /\ is_back pl p = false) \/
  (is_coplanar pl p = false /\ is_front pl p = true /\ is_back pl p = false) \/
  (is_coplanar pl p = false /\ is_front pl p = false /\ is_back pl p = true).
Proof.
  intros H. apply has_centroid_Ok in H. destruct H as [c Hc].
  unfold is_coplanar, is_front, is_back. rewrite Hc.
  destruct (abs (Plane.classify_point pl c) <=? eps);
    destruct (0 <? Plane.classify_point pl c); simpl; auto.
Qed.

(** The loop of [build] computes three filters of its input, in order. *)
Lemma classify_loop (pl : Plane.t) (polys : list Polygon.t) (acc : BSPNode.lists) :
  for_each (BSPNode.classify_body pl) polys acc =
  if forallb has_centroid polys then
    Ok (BSPNode.mk_lists
          (BSPNode.coplanar acc ++ filter (is_coplanar pl) polys)
          (BSPNode.front_list acc ++ filter (is_front pl) polys)
          (BSPNode.back_list acc ++ filter (is_back pl) polys))
  else Raise ZeroDivisionError.
Proof.
  revert acc. induction polys as [|p polys IH]; intros acc; simpl.
  - rewrite !app_nil_r. destruct acc; reflexivity.
  - unfold BSPNode.classify_body at 1.
    unfold is_coplanar, is_front, is_back.
    destruct (has_centroid p) eqn:Hp; simpl.
    + apply has_centroid_Ok in Hp. destruct Hp as [c Hc]. rewrite Hc. simpl.
      destruct (abs (Plane.classify_point pl c) <=? eps);
        destruct (0 <? Plane.classify_point pl c); simpl; rewrite IH;
        destruct (forallb has_centroid polys); simpl;
        rewrite <- ?app_assoc; reflexivity.
    + rewrite (no_centroid_Raise _ Hp). reflexivity.
Qed.

(** Induction on nodes, through the optional children. *)
Lemma BSPNode_ind' (P : BSPNode.t -> Prop)
  (step : forall pl f b ps,
      (forall n, f = Some n -> P n) ->
      (forall n, b = Some n -> P n) ->
      P (BSPNode.mk pl f b ps)) :
  forall n, P n.
Proof.
  fix IH 1. intros [pl f b ps]. apply step.
  - destruct f as [nf|]; intros n Hn; [|discriminate].
    injection Hn as <-. apply IH.
  - destruct b as [nb|]; intros n Hn; [|discriminate].
    injection Hn as <-. apply IH.
Qed.

Lemma traverse_acc (n : BSPNode.t) (acc : list Polygon.t) :
  BSPTree.traverse n acc = acc ++ flatten n.
Proof.
  revert acc. induction n as [pl f b ps IHf IHb] using BSPNode_ind'.
  intros acc. unfold flatten. simpl.
  destruct f as [nf|]; destruct b as [nb|].
  - rewrite (IHb nb eq_refl (BSPTree.traverse nf (acc ++ ps))).
    rewrite (IHb nb eq_refl (BSPTree.traverse nf ps)).
    rewrite (IHf nf eq_refl (acc ++ ps)), (IHf nf eq_refl ps).
    now rewrite !app_assoc.
  - rewrite (IHf nf eq_refl (acc ++ ps)), (IHf nf eq_refl ps).
    now rewrite !app_assoc.
  - rewrite (IHb nb eq_refl (acc ++ ps)), (IHb nb eq_refl ps).
    now rewrite !app_assoc.
  - reflexivity.
Qed.

(** The traversal order: own polygons, then front, then back. *)
Lemma flatten_mk pl f b ps :
  flatten (BSPNode.mk pl f b ps) = ps ++ flatten_opt f ++ flatten_opt b.
Proof.
  unfold flatten at 1. simpl.
  destruct f as [nf|]; destruct b as [nb|]; simpl.
  - now rewrite !traverse_acc, app_assoc.
  - now rewrite traverse_acc, app_nil_r.
  - now rewrite traverse_acc.
  - now rewrite app_nil_r.
Qed.

Lemma flatten_empty : flatten BSPNode.empty = [].
Proof. reflexivity. Qed.

(** One call of [build], with the loop replaced by its three filters. *)
Lemma build_step (limit : nat) (self : BSPNode.t) (first : Polygon.t)
  (rest : list Polygon.t) :
  let polys := first :: rest in
  let pl := match BSPNode.plane self with
            | Some pl => pl
            | None => Polygon.plane first
            end in
  BSPNode.build (S limit) self polys =
  if forallb has_centroid polys then
    front' <- match filter (is_front pl) polys with
              | [] => Ok (BSPNode.front self)
              | _ :: _ =>
                  n <- BSPNode.build limit (BSPNode.or_new (BSPNode.front self))
                         (filter (is_front pl) polys) ;;
                  Ok (Some n)
              end ;;
    back' <- match filter (is_back pl) polys with
             | [] => Ok (BSPNode.back self)
             | _ :: _ =>
                 n <- BSPNode.build limit (BSPNode.or_new (BSPNode.back self))
                        (filter (is_back pl) polys) ;;
                 Ok (Some n)
             end ;;
    Ok (BSPNode.mk (Some pl) front' back'
          (BSPNode.polygons self ++ filter (is_coplanar pl) polys))
  else Raise ZeroDivisionError.
Proof.
  intros polys pl. unfold polys at 1.
  cbn [BSPNode.build]. fold polys. fold pl.
  rewrite classify_loop.
  destruct (forallb has_centroid polys); reflexivity.
Qed.

(** The three filters split the input without loss or repetition. *)
Lemma sides_partition (pl : Plane.t) (polys : list Polygon.t) :
  forallb has_centroid polys = true ->
  Permutation polys
    (filter (is_coplanar pl) polys ++ filter (is_front pl) polys
     ++ filter (is_back pl) polys).
Proof.
  induction polys as [|p polys IH]; simpl; intros H; [constructor|].
  apply andb_true_iff in H. destruct H as [Hp H]. specialize (IH H).
  destruct (sides_exclusive pl p Hp) as [(-> & -> & ->)|[(-> & -> & ->)|(-> & -> & ->)]].
  - simpl. now constructor.
  - apply Permutation_cons_app. exact IH.
  - rewrite app_assoc. apply Permutation_cons_app. rewrite <- app_assoc. exact IH.
Qed.

(** Regrouping the three parts of a node after each received its share. *)
Lemma perm_regroup {A : Type} (a f b c x y p : list A) :
  Permutation p (c ++ x ++ y) ->
  Permutation ((a ++ c) ++ (f ++ x) ++ (b ++ y)) ((a ++ f ++ b) ++ p).
Proof.
  intros ->. rewrite <- !app_assoc. apply Permutation_app_head.
  rewrite (Permutation_app_swap_app c f). apply Permutation_app_head.
  rewrite (Permutation_app_swap_app b c). apply Permutation_app_head.
  rewrite (Permutation_app_swap_app b x). reflexivity.
Qed.

Lemma flatten_or_new (c : option BSPNode.t) :
  flatten (BSPNode.or_new c) = flatten_opt c.
Proof. destruct c; reflexivity. Qed.

(** Coverage: whatever [build] returns holds the node's former polygons
    and the new ones, each exactly once. *)
Lemma build_coverage (limit : nat) :
  forall self polys n,
    BSPNode.build limit self polys = Ok n ->
    Permutation (flatten n) (flatten self ++ polys).
Proof.
  induction limit as [|limit IH]; intros self polys n H; [discriminate|].
  destruct polys as [|first rest].
  - simpl in H. injection H as <-. now rewrite app_nil_r.
  - rewrite build_step in H. cbv zeta in H.
    set (polys := first :: rest) in *.
    set (pl := match BSPNode.plane self with
               | Some pl => pl | None => Polygon.plane first end) in *.
    destruct (forallb has_centroid polys) eqn:Hc; [|discriminate].
    apply bind_Ok in H. destruct H as (fr & Hfr & H).
    apply bind_Ok in H. destruct H as (bk & Hbk & H).
    injection H as <-.
    assert (Pf : Permutation (flatten_opt fr)
                   (flatten_opt (BSPNode.front self) ++ filter (is_front pl) polys)).
    { destruct (filter (is_front pl) polys) as [|q qs] eqn:E.
      - injection Hfr as <-. now rewrite app_nil_r.
      - apply bind_Ok in Hfr. destruct Hfr as (nf & Hnf & Hfr).
        injection Hfr as <-. apply IH in Hnf.
        now rewrite flatten_or_new in Hnf. }
    assert (Pb : Permutation (flatten_opt bk)
                   (flatten_opt (BSPNode.back self) ++ filter (is_back pl) polys)).
    { destruct (filter (is_back pl) polys) as [|q qs] eqn:E.
      - injection Hbk as <-. now rewrite app_nil_r.
      - apply bind_Ok in Hbk. destruct Hbk as (nb & Hnb & Hbk).
        injection Hbk as <-. apply IH in Hnb.
        now rewrite flatten_or_new in Hnb. }
    rewrite flatten_mk. destruct self as [spl sf sb sps]. rewrite flatten_mk.
    cbn [BSPNode.polygons BSPNode.front BSPNode.back] in *.
    rewrite Pf, Pb.
    apply perm_regroup. exact (sides_partition pl polys Hc).
Qed.

(** ** Termination of [build] *)

Lemma self_coplanar_has_centroid (p : Polygon.t) :
  self_coplanar p = true -> has_centroid p = true.
Proof.
  unfold self_coplanar, is_coplanar. intros H. apply has_centroid_Ok.
  destruct (Polygon.centroid p) as [c|e]; [eauto | discriminate].
Qed.

Lemma forallb_filter {A : Type} (P Q : A -> bool) (l : list A) :
  forallb P l = true -> forallb P (filter Q l) = true.
Proof.
  induction l as [|a l IH]; simpl; [auto|].
  intros H. apply andb_true_iff in H. destruct H as [Ha H].
  destruct (Q a); simpl; [rewrite Ha|]; auto.
Qed.

Lemma filter_length_le {A : Type} (Q : A -> bool) (l : list A) :
  (List.length (filter Q l) <= List.length l)%nat.
Proof.
  induction l as [|a l IH]; simpl; [lia|]. destruct (Q a); simpl; lia.
Qed.

(** A larger stack never changes a result that a smaller one gave. *)
Lemma build_limit_mono (limit : nat) :
  forall self polys n,
    BSPNode.build limit self polys = Ok n ->
    forall limit', (limit <= limit')%nat ->
    BSPNode.build limit' self polys = Ok n.
Proof.
  induction limit as [|limit IH]; intros self polys n H limit' Hle;
    [discriminate|].
  destruct limit' as [|limit']; [lia|].
  destruct polys as [|first rest]; [exact H|].
  rewrite build_step in *. cbv zeta in *.
  destruct (forallb has_centroid (first :: rest)); [|discriminate].
  apply bind_Ok in H. destruct H as (fr & Hfr & H).
  apply bind_Ok in H. destruct H as (bk & Hbk & H).
  match goal with
  | |- bind ?m _ = _ => assert (Ef : m = Ok fr)
  end.
  { destruct (filter (is_front _) (first :: rest)); [exact Hfr|].
    apply bind_Ok in Hfr. destruct Hfr as (nf & Hnf & Hfr).
    rewrite (IH _ _ _ Hnf limit'); [exact Hfr | lia]. }
  rewrite Ef. cbn [bind].
  match goal with
  | |- bind ?m _ = _ => assert (Eb : m = Ok bk)
  end.
  { destruct (filter (is_back _) (first :: rest)); [exact Hbk|].
    apply bind_Ok in Hbk. destruct Hbk as (nb & Hnb & Hbk).
    rewrite (IH _ _ _ Hnb limit'); [exact Hbk | lia]. }
  rewrite Eb. exact H.
Qed.

(** When every polygon lies on its own plane, each call stores the first
    polygon of its list in the node, so the lists shrink and a stack of
    [length polys + 1] frames is enough. *)
Lemma build_returns (limit : nat) :
  forall polys,
    forallb self_coplanar polys = true ->
    (List.length polys < limit)%nat ->
    exists n, BSPNode.build limit BSPNode.empty polys = Ok n.
Proof.
  induction limit as [|limit IH]; intros polys Hs Hl; [lia|].
  destruct polys as [|first rest]; [eexists; reflexivity|].
  rewrite build_step. cbv zeta. cbn [BSPNode.plane BSPNode.empty].
  set (polys := first :: rest) in *.
  set (pl := Polygon.plane first).
  assert (Hc : forallb has_centroid polys = true).
  { clear -Hs. induction polys as [|p l IHl]; simpl in *; [auto|].
    apply andb_true_iff in Hs. destruct Hs as [Hp Hs].
    rewrite (self_coplanar_has_centroid _ Hp). auto. }
  rewrite Hc.
  assert (Hfirst : self_coplanar first = true).
  { simpl in Hs. apply andb_true_iff in Hs. tauto. }
  assert (Hside : forall Q, Q first = false ->
            (List.length (filter Q polys) < limit)%nat).
  { intros Q HQ. unfold polys. simpl. rewrite HQ.
    pose proof (filter_length_le Q rest). simpl in Hl. lia. }
  destruct (sides_exclusive pl first (self_coplanar_has_centroid _ Hfirst))
    as [(_ & Hf & Hb)|[(Hcop & _)|(Hcop & _)]];
    [| unfold self_coplanar in Hfirst; fold pl in Hfirst; congruence ..].
  assert (Ef : exists fr,
             match filter (is_front pl) polys with
             | [] => Ok (BSPNode.front BSPNode.empty)
             | _ :: _ =>
                 n <- BSPNode.build limit (BSPNode.or_new (BSPNode.front BSPNode.empty))
                        (filter (is_front pl) polys) ;;
                 Ok (Some n)
             end = Ok fr).
  { destruct (IH (filter (is_front pl) polys)) as [nf Hnf];
      [apply forallb_filter, Hs | apply Hside, Hf |].
    destruct (filter (is_front pl) polys); [eexists; reflexivity|].
    cbn [BSPNode.front BSPNode.empty BSPNode.or_new]. rewrite Hnf.
    eexists; reflexivity. }
  assert (Eb : exists bk,
             match filter (is_back pl) polys with
             | [] => Ok (BSPNode.back BSPNode.empty)
             | _ :: _ =>
                 n <- BSPNode.build limit (BSPNode.or_new (BSPNode.back BSPNode.empty))
                        (filter (is_back pl) polys) ;;
                 Ok (Some n)
             end = Ok bk).
  { destruct (IH (filter (is_back pl) polys)) as [nb Hnb];
      [apply forallb_filter, Hs | apply Hside, Hb |].
    destruct (filter (is_back pl) polys); [eexists; reflexivity|].
    cbn [BSPNode.back BSPNode.empty BSPNode.or_new]. rewrite Hnb.
    eexists; reflexivity. }
  destruct Ef as [fr Ef]. destruct Eb as [bk Eb].
  cbn [BSPNode.front BSPNode.back BSPNode.empty] in *.
  rewrite Ef. cbn [bind]. rewrite Eb. cbn [bind]. eexists; reflexivity.
Qed.

(** The only exception [build] can raise once every polygon has a centroid
    is [RecursionError]. *)
Lemma build_raises (limit : nat) :
  forall self polys e,
    forallb has_centroid polys = true ->
    BSPNode.build limit self polys = Raise e -> e = RecursionError.
Proof.
  induction limit as [|limit IH]; intros self polys e Hc H.
  - simpl in H. congruence.
  - destruct polys as [|first rest]; [discriminate|].
    rewrite build_step in H. cbv zeta in H. rewrite Hc in H.
    match type of H with
    | bind ?m _ = _ => destruct m as [fr|e1] eqn:Ef
    end.
    + cbn [bind] in H.
      match type of H with
      | bind ?m _ = _ => destruct m as [bk|e2] eqn:Eb
      end; [discriminate|].
      cbn [bind] in H. injection H as <-.
      destruct (filter (is_back _) (first :: rest)) eqn:E in Eb; [discriminate|].
      match type of Eb with
      | bind ?m _ = _ => destruct m as [nb|e3] eqn:Enb
      end; [discriminate|].
      cbn [bind] in Eb. injection Eb as <-.
      eapply IH; [|exact Enb]. rewrite <- E. now apply forallb_filter.
    + cbn [bind] in H. injection H as <-.
      destruct (filter (is_front _) (first :: rest)) eqn:E in Ef; [discriminate|].
      match type of Ef with
      | bind ?m _ = _ => destruct m as [nf|e3] eqn:Enf
      end; [discriminate|].
      cbn [bind] in Ef. injection Ef as <-.
      eapply IH; [|exact Enf]. rewrite <- E. now apply forallb_filter.
Qed.

(** A fresh node given a list whose first polygon is off its own plane
    never finishes: that polygon heads the front or the back list, whose
    child adopts the same plane, and so on down the stack. *)
Lemma build_first_off_plane (limit : nat) :
  forall first rest n,
    self_coplanar first = false ->
    BSPNode.build limit BSPNode.empty (first :: rest) <> Ok n.
Proof.
  induction limit as [|limit IH]; intros first rest n Hs H; [discriminate|].
  rewrite build_step in H. cbv zeta in H.
  cbn [BSPNode.plane BSPNode.front BSPNode.back BSPNode.empty BSPNode.or_new] in H.
  destruct (forallb has_centroid (first :: rest)) eqn:Hc; [|discriminate].
  apply bind_Ok in H. destruct H as (fr & Hfr & H).
  apply bind_Ok in H. destruct H as (bk & Hbk & _).
  assert (Hf : has_centroid first = true).
  { simpl in Hc. apply andb_true_iff in Hc. tauto. }
  destruct (sides_exclusive (Polygon.plane first) first Hf)
    as [(Hcop & _)|[(_ & Hfront & _)|(_ & _ & Hback)]].
  - unfold self_coplanar in Hs. congruence.
  - simpl in Hfr. rewrite Hfront in Hfr.
    apply bind_Ok in Hfr. destruct Hfr as (nf & Hnf & _).
    exact (IH _ _ _ Hs Hnf).
  - simpl in Hbk. rewrite Hback in Hbk.
    apply bind_Ok in Hbk. destruct Hbk as (nb & Hnb & _).
    exact (IH _ _ _ Hs Hnb).
Qed.

(** ** Filters and permutations *)

Lemma filter_all {A : Type} (P : A -> bool) (l : list A) :
  forallb P l = true -> filter P l = l.
Proof.
  induction l as [|a l IH]; simpl; [auto|].
  intros H. apply andb_true_iff in H. destruct H as [-> H]. now rewrite IH.
Qed.

Lemma filter_none {A : Type} (P Q : A -> bool) (l : list A) :
  (forall a, Q a = true -> P a = false) ->
  forallb Q l = true -> filter P l = [].
Proof.
  intros HPQ. induction l as [|a l IH]; simpl; [auto|].
  intros H. apply andb_true_iff in H. destruct H as [Ha H].
  now rewrite (HPQ a Ha), IH.
Qed.

Lemma forallb_filter_self {A : Type} (P : A -> bool) (l : list A) :
  forallb P (filter P l) = true.
Proof.
  induction l as [|a l IH]; simpl; [auto|].
  destruct (P a) eqn:E; simpl; [rewrite E|]; auto.
Qed.

Lemma forallb_perm {A : Type} (P : A -> bool) (l l' : list A) :
  Permutation l l' -> forallb P l = forallb P l'.
Proof.
  induction 1; simpl; try congruence.
  - now rewrite !andb_assoc, (andb_comm (P y)).
Qed.

Lemma forallb_weaken {A : Type} (P Q : A -> bool) (l : list A) :
  (forall a, P a = true -> Q a = true) ->
  forallb P l = true -> forallb Q l = true.
Proof.
  intros HPQ. induction l as [|a l IH]; simpl; [auto|].
  intros H. apply andb_true_iff in H. destruct H as [Ha H].
  now rewrite (HPQ a Ha), IH.
Qed.

Lemma front_not_coplanar pl p : is_front pl p = true -> is_coplanar pl p = false.
Proof.
  unfold is_front, is_coplanar. destruct (Polygon.centroid p); [|auto].
  destruct (abs _ <=? eps); simpl; auto.
Qed.

Lemma back_not_coplanar pl p : is_back pl p = true -> is_coplanar pl p = false.
Proof.
  unfold is_back, is_coplanar. destruct (Polygon.centroid p); [|auto].
  destruct (abs _ <=? eps); simpl; auto.
Qed.

Lemma coplanar_not_front pl p : is_coplanar pl p = true -> is_front pl p = false.
Proof.
  unfold is_front, is_coplanar. destruct (Polygon.centroid p); [|auto].
  now intros ->.
Qed.

Lemma coplanar_not_back pl p : is_coplanar pl p = true -> is_back pl p = false.
Proof.
  unfold is_back, is_coplanar. destruct (Polygon.centroid p); [|auto].
  now intros ->.
Qed.

Lemma front_not_back pl p : is_front pl p = true -> is_back pl p = false.
Proof.
  unfold is_front, is_back. destruct (Polygon.centroid p); [|auto].
  destruct (abs _ <=? eps); simpl; [auto|]. now intros ->.
Qed.

Lemma back_not_front pl p : is_back pl p = true -> is_front pl p = false.
Proof.
  unfold is_front, is_back. destruct (Polygon.centroid p); [|auto].
  destruct (abs _ <=? eps); simpl; [auto|].
  destruct (0 <? _); simpl; congruence.
Qed.

(** ** One level of a fresh build, as data *)

Lemma build_fresh (limit : nat) (first : Polygon.t) (rest : list Polygon.t) :
  let polys := first :: rest in
  let pl := Polygon.plane first in
  BSPNode.build (S limit) BSPNode.empty polys =
  if forallb has_centroid polys then
    f <- child_of limit (filter (is_front pl) polys) ;;
    b <- child_of limit (filter (is_back pl) polys) ;;
    Ok (BSPNode.mk (Some pl) f b (filter (is_coplanar pl) polys))
  else Raise ZeroDivisionError.
Proof.
  intros polys pl. unfold polys. rewrite build_step. cbv zeta.
  reflexivity.
Qed.

Lemma child_of_coverage (limit : nat) (l : list Polygon.t) (c : option BSPNode.t) :
  child_of limit l = Ok c -> Permutation (flatten_opt c) l.
Proof.
  unfold child_of. destruct l as [|q qs].
  - intros H. injection H as <-. constructor.
  - intros H. apply bind_Ok in H. destruct H as (n & Hn & H).
    injection H as <-. apply build_coverage in Hn. exact Hn.
Qed.

(** ** The partition invariant *)

Lemma partitioned_mk own fr bk pl f b ps :
  partitioned own fr bk (BSPNode.mk (Some pl) f b ps) =
  forallb (own pl) ps && forallb (fr pl) (flatten_opt f)
  && forallb (bk pl) (flatten_opt b)
  && match f with Some c => partitioned own fr bk c | None => true end
  && match b with Some c => partitioned own fr bk c | None => true end.
Proof. reflexivity. Qed.

Lemma child_of_invariant (limit : nat)
  (IH : forall polys n, BSPNode.build limit BSPNode.empty polys = Ok n ->
                        code_invariant n = true)
  (l : list Polygon.t) (c : option BSPNode.t) :
  child_of limit l = Ok c ->
  match c with Some n => code_invariant n | None => true end = true.
Proof.
  unfold child_of. destruct l as [|q qs]; intros H.
  - now injection H as <-.
  - apply bind_Ok in H. destruct H as (n & Hn & H). injection H as <-.
    exact (IH _ _ Hn).
Qed.

(** Every tree a fresh [build] returns satisfies the invariant, with the
    tests of the code. *)
Lemma build_invariant (limit : nat) :
  forall polys n,
    BSPNode.build limit BSPNode.empty polys = Ok n ->
    code_invariant n = true.
Proof.
  induction limit as [|limit IH]; intros polys n H; [discriminate|].
  destruct polys as [|first rest].
  - injection H as <-. reflexivity.
  - rewrite build_fresh in H. cbv zeta in H.
    set (polys := first :: rest) in *.
    destruct (forallb has_centroid polys); [|discriminate].
    apply bind_Ok in H. destruct H as (f & Hf & H).
    apply bind_Ok in H. destruct H as (b & Hb & H).
    apply Ok_inj in H. subst n. unfold code_invariant. rewrite partitioned_mk.
    rewrite forallb_filter_self.
    rewrite (forallb_perm _ (child_of_coverage _ _ Hf)), forallb_filter_self.
    rewrite (forallb_perm _ (child_of_coverage _ _ Hb)), forallb_filter_self.
    fold code_invariant.
    rewrite (@child_of_invariant limit IH _ _ Hf), (@child_of_invariant limit IH _ _ Hb).
    reflexivity.
Qed.

(** ** Rebuilding a tree from its own traversal *)

Lemma child_of_nonempty (limit : nat) (l : list Polygon.t) (n : BSPNode.t) :
  child_of limit l = Ok (Some n) ->
  BSPNode.build limit BSPNode.empty l = Ok n /\ l <> [].
Proof.
  unfold child_of. destruct l as [|q qs]; intros H; [discriminate|].
  apply bind_Ok in H. destruct H as (m & Hm & H). injection H as <-.
  split; [exact Hm | discriminate].
Qed.

Lemma child_of_rebuild (limit : nat)
  (IH : forall polys n, BSPNode.build limit BSPNode.empty polys = Ok n ->
                        BSPNode.build limit BSPNode.empty (flatten n) = Ok n)
  (l : list Polygon.t) (c : option BSPNode.t) :
  child_of limit l = Ok c -> child_of limit (flatten_opt c) = Ok c.
Proof.
  intros H. destruct c as [n|]; [|reflexivity].
  pose proof (child_of_coverage _ _ H) as P.
  apply child_of_nonempty in H. destruct H as [H Hne].
  unfold child_of. simpl in *. destruct (flatten n) as [|q qs] eqn:E.
  - apply Permutation_nil in P. contradiction.
  - rewrite <- E, (IH _ _ H). reflexivity.
Qed.

(** The tree is a fixed point: building from [flatten n] gives [n] back. *)
Lemma build_flatten (limit : nat) :
  forall polys n,
    BSPNode.build limit BSPNode.empty polys = Ok n ->
    BSPNode.build limit BSPNode.empty (flatten n) = Ok n.
Proof.
  induction limit as [|limit IH]; intros polys n H; [discriminate|].
  destruct polys as [|first rest].
  - injection H as <-. reflexivity.
  - pose proof H as H0.
    assert (Hfirst : self_coplanar first = true).
    { destruct (self_coplanar first) eqn:E; [reflexivity|].
      now apply build_first_off_plane in H. }
    pose proof (build_coverage _ _ _ H) as Pn. simpl in Pn.
    rewrite build_fresh in H. cbv zeta in H.
    set (polys := first :: rest) in *. set (pl := Polygon.plane first) in *.
    destruct (forallb has_centroid polys) eqn:Hc; [|discriminate].
    apply bind_Ok in H. destruct H as (f & Hf & H).
    apply bind_Ok in H. destruct H as (b & Hb & H).
    apply Ok_inj in H. subst n. rewrite flatten_mk in *.
    assert (EC : filter (is_coplanar pl) polys
                 = first :: filter (is_coplanar pl) rest).
    { unfold polys. simpl. unfold self_coplanar in Hfirst. fold pl in Hfirst.
      now rewrite Hfirst. }
    pose proof (child_of_coverage _ _ Hf) as Pf.
    pose proof (child_of_coverage _ _ Hb) as Pb.
    assert (Ff : forallb (is_front pl) (flatten_opt f) = true)
      by (rewrite (forallb_perm _ Pf); apply forallb_filter_self).
    assert (Fb : forallb (is_back pl) (flatten_opt b) = true)
      by (rewrite (forallb_perm _ Pb); apply forallb_filter_self).
    assert (Fc : forallb (is_coplanar pl) (filter (is_coplanar pl) polys) = true)
      by apply forallb_filter_self.
    set (L := filter (is_coplanar pl) polys ++ flatten_opt f ++ flatten_opt b) in *.
    assert (EL : L = first :: (filter (is_coplanar pl) rest
                               ++ flatten_opt f ++ flatten_opt b))
      by (unfold L; now rewrite EC).
    assert (Hc' : forallb has_centroid L = true)
      by (rewrite (forallb_perm _ Pn); exact Hc).
    assert (E1 : filter (is_coplanar pl) L = filter (is_coplanar pl) polys).
    { unfold L. rewrite !filter_app, (filter_all _ _ Fc).
      rewrite (filter_none _ _ _ (front_not_coplanar pl) Ff).
      rewrite (filter_none _ _ _ (back_not_coplanar pl) Fb).
      now rewrite !app_nil_r. }
    assert (E2 : filter (is_front pl) L = flatten_opt f).
    { unfold L. rewrite !filter_app, (filter_all _ _ Ff).
      rewrite (filter_none _ _ _ (coplanar_not_front pl) Fc).
      rewrite (filter_none _ _ _ (back_not_front pl) Fb).
      now rewrite app_nil_r. }
    assert (E3 : filter (is_back pl) L = flatten_opt b).
    { unfold L. rewrite !filter_app, (filter_all _ _ Fb).
      rewrite (filter_none _ _ _ (coplanar_not_back pl) Fc).
      rewrite (filter_none _ _ _ (front_not_back pl) Ff).
      reflexivity. }
    rewrite EL, build_fresh. cbv zeta. rewrite <- EL. fold pl.
    rewrite Hc', E1, E2, E3.
    rewrite (@child_of_rebuild limit IH _ _ Hf), (@child_of_rebuild limit IH _ _ Hb).
    reflexivity.
Qed.

(** ** Facts about binary64 arithmetic

    Each primitive operation is specified by its [_spec] equation on
    [spec_float]; the facts below follow by cases on the operands. *)

Lemma SFcompare_antisym (x y : spec_float) :
  SFcompare y x = option_map CompOpp (SFcompare x y).
Proof.
  destruct x as [sx|sx| |sx mx ex], y as [sy|sy| |sy my ey]; simpl;
    try destruct sx; try destruct sy; simpl; try reflexivity.
  all: rewrite (Z.compare_antisym ey ex);
    destruct (ey ?= ex)%Z; simpl; try reflexivity.
  all: change (Pos.compare_cont Eq mx my) with (Pos.compare mx my);
    change (Pos.compare_cont Eq my mx) with (Pos.compare my mx);
    rewrite (Pos.compare_antisym my mx); destruct (Pos.compare my mx); reflexivity.
Qed.

Lemma leb_not_gt (x y : float) : (x <=? y) = true -> (y <? x) = false.
Proof.
  rewrite leb_spec, ltb_spec. unfold SFleb, SFltb.
  rewrite (SFcompare_antisym (Prim2SF x) (Prim2SF y)).
  destruct (SFcompare (Prim2SF x) (Prim2SF y)) as [[| |]|]; simpl; congruence.
Qed.

Lemma ltb_asym (x y : float) : (x <? y) = true -> (y <? x) = false.
Proof.
  rewrite !ltb_spec. unfold SFltb.
  rewrite (SFcompare_antisym (Prim2SF x) (Prim2SF y)).
  destruct (SFcompare (Prim2SF x) (Prim2SF y)) as [[| |]|]; simpl; congruence.
Qed.

Lemma round_aux_sign s m e l :
  match binary_round_aux prec emax s m e l with
  | S754_infinity s' | S754_finite s' _ _ | S754_zero s' => s' = s
  | S754_nan => True
  end.
Proof.
  unfold binary_round_aux.
  destruct (shr_fexp prec emax m e l) as [mrs' e'].
  destruct (shr_fexp prec emax _ e' loc_Exact) as [mrs'' e''].
  destruct (shr_m mrs''); auto. destruct (_ <=? _)%Z; auto.
Qed.

Lemma nonneg_mul_self x : nonneg (SF64mul x x).
Proof.
  destruct x as [s|s| |s m e]; simpl; auto.
  - now destruct s.
  - pose proof (round_aux_sign (xorb s s) (Z.pos (m * m)) (e + e) loc_Exact) as H.
    unfold SF64mul, SFmul.
    destruct (binary_round_aux _ _ _ _ _ _); simpl; auto; rewrite H; now destruct s.
Qed.

Lemma nonneg_add x y : nonneg x -> nonneg y -> nonneg (SF64add x y).
Proof.
  destruct x as [sx|sx| |sx mx ex], y as [sy|sy| |sy my ey]; simpl;
    intros Hx Hy; subst; simpl; auto.
  - destruct sx, sy; simpl; auto.
  - unfold SF64add, SFadd. simpl.
    unfold binary_normalize, binary_round.
    destruct (shl_align _ _ _) as [mz ez].
    pose proof (round_aux_sign false (Z.pos mz) ez loc_Exact) as H.
    destruct (binary_round_aux _ _ _ _ _ _); simpl; auto.
Qed.

Lemma nonneg_not_neg x : nonneg (Prim2SF x) -> (x <? 0) = false.
Proof.
  rewrite ltb_spec. change (Prim2SF 0) with (S754_zero false).
  destruct (Prim2SF x) as [s|s| |s m e]; simpl; intros H; subst; reflexivity.
Qed.

Lemma dot_self_not_neg (v : Vec3.t) : (Vec3.dot v v <? 0) = false.
Proof.
  apply nonneg_not_neg. unfold Vec3.dot.
  rewrite !add_spec, !mul_spec.
  repeat apply nonneg_add; apply nonneg_mul_self.
Qed.

(** ** Plane and polygon derivation never hit the domain error *)

Lemma length_returns (v : Vec3.t) :
  Vec3.length v = Ok (sqrt (Vec3.dot v v)).
Proof.
  unfold Vec3.length, math_sqrt. now rewrite dot_self_not_neg.
Qed.

Lemma normalize_returns (v : Vec3.t) :
  Vec3.normalize v =
  Ok (if sqrt (Vec3.dot v v) =? 0 then Vec3.mk 0 0 0
      else Vec3.mul v (1 / sqrt (Vec3.dot v v))).
Proof.
  unfold Vec3.normalize. rewrite length_returns. simpl.
  now destruct (sqrt (Vec3.dot v v) =? 0).
Qed.

Lemma from_points_returns (a b c : Vec3.t) :
  exists pl, Plane.from_points a b c = Ok pl.
Proof.
  unfold Plane.from_points. rewrite normalize_returns. simpl. eauto.
Qed.

(** ** The destruction loop *)

Lemma pow2_nonneg (v r : float) : pow2 v = Ok r -> nonneg (Prim2SF r).
Proof.
  unfold pow2. destruct (_ && _); [discriminate|].
  intros H. apply Ok_inj in H. subst r. rewrite mul_spec.
  apply nonneg_mul_self.
Qed.

(** The only exception [distance] can raise is [OverflowError]. *)
Lemma distance_raises (a b : Vec3.t) (e : exn) :
  distance a b = Raise e -> e = OverflowError.
Proof.
  unfold distance.
  destruct (pow2 (Vec3.x a - Vec3.x b)) as [dx|e1] eqn:Ex;
    [|unfold pow2 in Ex; destruct (_ && _); simpl; congruence].
  destruct (pow2 (Vec3.y a - Vec3.y b)) as [dy|e2] eqn:Ey;
    [|unfold pow2 in Ey; destruct (_ && _); simpl; congruence].
  destruct (pow2 (Vec3.z a - Vec3.z b)) as [dz|e3] eqn:Ez;
    [|unfold pow2 in Ez; destruct (_ && _); simpl; congruence].
  simpl. unfold math_sqrt.
  rewrite nonneg_not_neg; [discriminate|].
  rewrite !add_spec.
  repeat apply nonneg_add; eapply pow2_nonneg; eassumption.
Qed.

Lemma explosion_body_eq (position : Vec3.t) (radius : float)
  (remaining : list Polygon.t) (poly : Polygon.t) :
  explosion_body position radius remaining poly =
  dist <- centroid_distance position poly ;;
  Ok (if radius <? dist then remaining ++ [poly] else remaining).
Proof.
  unfold explosion_body, centroid_distance.
  destruct (Polygon.centroid poly) as [c|e]; simpl; [|reflexivity].
  destruct (distance c position) as [dist|e]; simpl; [|reflexivity].
  now destruct (radius <? dist).
Qed.

(** When every distance can be computed the loop is a filter. *)
Lemma explosion_loop (position : Vec3.t) (radius : float)
  (polys acc : list Polygon.t) :
  forallb (measurable position) polys = true ->
  for_each (explosion_body position radius) polys acc =
  Ok (acc ++ filter (kept position radius) polys).
Proof.
  revert acc. induction polys as [|p polys IH]; intros acc H; simpl.
  - now rewrite app_nil_r.
  - simpl in H. apply andb_true_iff in H. destruct H as [Hp H].
    rewrite explosion_body_eq. unfold measurable, kept in *.
    destruct (centroid_distance position p) as [dist|e]; [|discriminate].
    simpl. rewrite (IH _ H).
    destruct (radius <? dist); [now rewrite <- app_assoc | reflexivity].
Qed.

(** The loop returns only when every distance can be computed. *)
Lemma explosion_loop_returns (position : Vec3.t) (radius : float)
  (polys acc r : list Polygon.t) :
  for_each (explosion_body position radius) polys acc = Ok r ->
  forallb (measurable position) polys = true.
Proof.
  revert acc. induction polys as [|p polys IH]; intros acc H; [reflexivity|].
  simpl in *. rewrite explosion_body_eq in H. unfold measurable at 1.
  destruct (centroid_distance position p) as [dist|e]; [|discriminate].
  simpl in *. exact (IH _ H).
Qed.

Lemma BSPNode_init_eq (limit : nat) (polys : list Polygon.t) :
  BSPNode.init limit (Some polys) =
  match polys with
  | [] => Ok BSPNode.empty
  | _ :: _ => BSPNode.build limit BSPNode.empty polys
  end.
Proof. now destruct polys. Qed.

(** Construction of a tree, in terms of the list it is given. *)
Lemma BSPTree_init_inv (limit : nat) (polys : list Polygon.t) (t : BSPTree.t) :
  BSPTree.init limit polys = Ok t ->
  (polys = [] /\ t = BSPTree.mk BSPNode.empty) \/
  (polys <> [] /\ BSPNode.build limit BSPNode.empty polys = Ok (BSPTree.root t)).
Proof.
  unfold BSPTree.init. rewrite BSPNode_init_eq. intros H.
  apply bind_Ok in H. destruct H as (r & Hr & H). apply Ok_inj in H. subst t.
  destruct polys as [|p ps].
  - left. apply Ok_inj in Hr. now subst r.
  - right. split; [discriminate | exact Hr].
Qed.

Lemma BSPTree_init_coverage (limit : nat) (polys : list Polygon.t) (t : BSPTree.t) :
  BSPTree.init limit polys = Ok t ->
  Permutation (BSPTree.all_polygons t) polys.
Proof.
  intros H. destruct (BSPTree_init_inv _ _ H) as [[-> ->]|[_ Hb]].
  - constructor.
  - apply build_coverage in Hb. exact Hb.
Qed.

(** Rebuilding a tree from its own traversal gives the same tree. *)
Lemma BSPTree_init_flatten (limit : nat) (polys : list Polygon.t) (t : BSPTree.t) :
  BSPTree.init limit polys = Ok t ->
  BSPTree.init limit (BSPTree.all_polygons t) = Ok t.
Proof.
  intros H. pose proof (BSPTree_init_coverage _ _ H) as P.
  destruct (BSPTree_init_inv _ _ H) as [[-> ->]|[Hne Hb]]; [reflexivity|].
  unfold BSPTree.init. rewrite BSPNode_init_eq.
  unfold BSPTree.all_polygons in *. fold (flatten (BSPTree.root t)) in *.
  destruct (flatten (BSPTree.root t)) as [|q qs] eqn:E.
  - apply Permutation_nil in P. contradiction.
  - rewrite <- E, (build_flatten _ _ Hb). simpl. now destruct t.
Qed.

(** The result of [apply_explosion], in terms of the input's traversal. *)
Lemma apply_explosion_inv (limit : nat) (tree t' : BSPTree.t)
  (position : Vec3.t) (radius : float) :
  apply_explosion limit tree position radius = Ok t' ->
  forallb (measurable position) (BSPTree.all_polygons tree) = true /\
  BSPTree.init limit
    (filter (kept position radius) (BSPTree.all_polygons tree)) = Ok t'.
Proof.
  unfold apply_explosion. intros H.
  apply bind_Ok in H. destruct H as (remaining & Hl & H).
  pose proof (explosion_loop_returns _ _ _ _ Hl) as Hm.
  rewrite (explosion_loop _ radius _ [] Hm) in Hl. apply Ok_inj in Hl.
  subst remaining. auto.
Qed.

Lemma apply_explosion_eq (limit : nat) (tree : BSPTree.t)
  (position : Vec3.t) (radius : float) :
  forallb (measurable position) (BSPTree.all_polygons tree) = true ->
  apply_explosion limit tree position radius =
  BSPTree.init limit (filter (kept position radius) (BSPTree.all_polygons tree)).
Proof.
  intros Hm. unfold apply_explosion.
  now rewrite (explosion_loop _ radius _ [] Hm).
Qed.

Lemma kept_measurable position radius p :
  kept position radius p = true -> measurable position p = true.
Proof.
  unfold kept, measurable. now destruct (centroid_distance position p).
Qed.

(** Applying the same explosion to its own result changes nothing. *)
Lemma apply_explosion_again (limit : nat) (tree t' : BSPTree.t)
  (position : Vec3.t) (radius : float) :
  apply_explosion limit tree position radius = Ok t' ->
  apply_explosion limit t' position radius = Ok t'.
Proof.
  intros H. apply apply_explosion_inv in H. destruct H as [_ Hi].
  pose proof (BSPTree_init_coverage _ _ Hi) as P.
  assert (Hk : forallb (kept position radius) (BSPTree.all_polygons t') = true)
    by (rewrite (forallb_perm _ P); apply forallb_filter_self).
  rewrite apply_explosion_eq.
  - rewrite (filter_all _ _ Hk). exact (BSPTree_init_flatten _ _ Hi).
  - exact (forallb_weaken _ _ _ (kept_measurable position radius) Hk).
Qed.

(** ** The object store: reads, writes, allocation *)

Lemma length_set (h : Heap.t) (a : Heap.addr) (n : Heap.node) :
  List.length (Heap.set h a n) = List.length h.
Proof.
  revert a. induction h as [|o h IH]; intros [|a]; simpl; auto.
Qed.

Lemma get_set_eq (h : Heap.t) (a : Heap.addr) (n : Heap.node) :
  (a < List.length h)%nat -> Heap.get (Heap.set h a n) a = n.
Proof.
  unfold Heap.get. revert a.
  induction h as [|o h IH]; intros [|a]; simpl; intros H; try lia; auto.
  apply IH. lia.
Qed.

Lemma get_set_neq (h : Heap.t) (a b : Heap.addr) (n : Heap.node) :
  a <> b -> Heap.get (Heap.set h a n) b = Heap.get h b.
Proof.
  unfold Heap.get. revert a b.
  induction h as [|o h IH]; intros [|a] [|b]; simpl; intros H;
    try congruence; auto.
Qed.

Lemma get_alloc_old (h : Heap.t) (a : Heap.addr) :
  (a < List.length h)%nat -> Heap.get (h ++ [Heap.fresh]) a = Heap.get h a.
Proof. intros H. unfold Heap.get. now rewrite app_nth1. Qed.

Lemma get_alloc_new (h : Heap.t) :
  Heap.get (h ++ [Heap.fresh]) (List.length h) = Heap.fresh.
Proof. unfold Heap.get. now rewrite app_nth2, Nat.sub_diag by lia. Qed.

Lemma preserves_refl (h : Heap.t) : Heap.preserves h h.
Proof. split; auto. Qed.

Lemma preserves_trans (h1 h2 h3 : Heap.t) :
  Heap.preserves h1 h2 -> Heap.preserves h2 h3 -> Heap.preserves h1 h3.
Proof.
  intros [L1 G1] [L2 G2]. split; [lia|].
  intros a Ha. rewrite G2 by lia. now apply G1.
Qed.

(** ** Frame of [build]

    [changes_only self h h']: going from [h] to [h'], no object of [h]
    other than the one at [self] was written. *)

Lemma build_frame (limit : nat) :
  forall self polys h,
    (self < List.length h)%nat ->
    Heap.front (Heap.get h self) = None ->
    Heap.back (Heap.get h self) = None ->
    (List.length h <= List.length (fst (Heap.build limit self polys h)))%nat /\
    forall a, (a < List.length h)%nat -> a <> self ->
      Heap.get (fst (Heap.build limit self polys h)) a = Heap.get h a.
Proof.
  induction limit as [|limit IH]; intros self polys h Hs Hf Hb;
    [simpl; auto|].
  destruct polys as [|first rest]; [simpl; auto|].
  cbn [Heap.build]. cbv zeta.
  set (polys := first :: rest).
  set (h1 := match Heap.plane (Heap.get h self) return Heap.t with
             | Some _ => h
             | None => Heap.set h self
                         (Heap.set_plane (Heap.get h self) (Polygon.plane first))
             end).
  assert (L1 : List.length h1 = List.length h)
    by (unfold h1; destruct (Heap.plane _); [|rewrite length_set]; auto).
  assert (G1 : forall a, a <> self -> Heap.get h1 a = Heap.get h a).
  { intros a Ha. unfold h1. destruct (Heap.plane _); [auto|].
    apply get_set_neq. auto. }
  assert (F1 : Heap.front (Heap.get h1 self) = None /\
               Heap.back (Heap.get h1 self) = None).
  { unfold h1. destruct (Heap.plane _); [auto|].
    rewrite get_set_eq by lia. auto. }
  destruct F1 as [Hf1 Hb1].
  set (pl := match Heap.plane (Heap.get h1 self) with
             | Some pl => pl | None => Polygon.plane first end).
  destruct (for_each (BSPNode.classify_body pl) polys (BSPNode.mk_lists [] [] []))
    as [ls|e]; [|cbn [fst]; split; [lia | intros; apply G1; auto]].
  set (h2 := Heap.set h1 self
               (Heap.extend_polygons (Heap.get h1 self) (BSPNode.coplanar ls))).
  assert (L2 : List.length h2 = List.length h)
    by (unfold h2; now rewrite length_set).
  assert (G2 : forall a, a <> self -> Heap.get h2 a = Heap.get h a).
  { intros a Ha. unfold h2. rewrite get_set_neq; auto. }
  assert (Hf2 : Heap.front (Heap.get h2 self) = None)
    by (unfold h2; rewrite get_set_eq by lia; exact Hf1).
  assert (Hb2 : Heap.back (Heap.get h2 self) = None)
    by (unfold h2; rewrite get_set_eq by lia; exact Hb1).
  clearbody h2. clear Hf1 Hb1 G1 L1. clearbody h1.
  (* the front child *)
  assert (Front : exists h3 r,
    match BSPNode.front_list ls with
    | [] => (h2, Ok tt)
    | _ :: _ =>
        let '(h, child) := Heap.front_or_new self h2 in
        Heap.build limit child (BSPNode.front_list ls) h
    end = (h3, r) /\
    (List.length h <= List.length h3)%nat /\
    (forall a, (a < List.length h)%nat -> a <> self ->
               Heap.get h3 a = Heap.get h a) /\
    Heap.back (Heap.get h3 self) = None).
  { destruct (BSPNode.front_list ls) as [|q qs].
    - exists h2, (Ok tt). repeat split; auto; lia.
    - unfold Heap.front_or_new. rewrite Hf2. cbn [Heap.alloc].
      set (c := List.length h2).
      set (hc := Heap.set (h2 ++ [Heap.fresh]) self
                   (Heap.set_front (Heap.get (h2 ++ [Heap.fresh]) self) c)).
      assert (Lc : List.length hc = S (List.length h))
        by (unfold hc; rewrite length_set, length_app; simpl; lia).
      assert (Gc : forall a, (a < List.length h)%nat -> a <> self ->
                             Heap.get hc a = Heap.get h a).
      { intros a Ha Hn. unfold hc. rewrite get_set_neq by auto.
        rewrite get_alloc_old by lia. auto. }
      assert (Gs : Heap.back (Heap.get hc self) = None).
      { unfold hc. rewrite get_set_eq by (rewrite length_app; simpl; lia).
        simpl. rewrite get_alloc_old by lia. exact Hb2. }
      assert (Gn : Heap.get hc c = Heap.fresh).
      { unfold hc. rewrite get_set_neq by (unfold c; lia).
        unfold c. apply get_alloc_new. }
      destruct (IH c (q :: qs) hc) as [L3 G3];
        [unfold c; lia | now rewrite Gn | now rewrite Gn |].
      destruct (Heap.build limit c (q :: qs) hc) as [h3 r]. simpl in *.
      exists h3, r. repeat split.
      + lia.
      + intros a Ha Hn. rewrite G3 by (unfold c; lia). auto.
      + rewrite G3 by (unfold c; lia). exact Gs. }
  destruct Front as (h3 & r & -> & L3 & G3 & Hb3).
  destruct r as [[]|e]; [|cbn [fst]; auto].
  destruct (BSPNode.back_list ls) as [|q qs]; [cbn [fst]; auto|].
  unfold Heap.back_or_new. rewrite Hb3. cbn [Heap.alloc].
  set (c := List.length h3).
  set (hc := Heap.set (h3 ++ [Heap.fresh]) self
               (Heap.set_back (Heap.get (h3 ++ [Heap.fresh]) self) c)).
  assert (Lc : List.length hc = S (List.length h3))
    by (unfold hc; rewrite length_set, length_app; simpl; lia).
  assert (Gc : forall a, (a < List.length h)%nat -> a <> self ->
                         Heap.get hc a = Heap.get h a).
  { intros a Ha Hn. unfold hc. rewrite get_set_neq by auto.
    rewrite get_alloc_old by lia. auto. }
  assert (Gn : Heap.get hc c = Heap.fresh).
  { unfold hc. rewrite get_set_neq by (unfold c; lia).
    unfold c. apply get_alloc_new. }
  destruct (IH c (q :: qs) hc) as [L4 G4];
    [unfold c; lia | now rewrite Gn | now rewrite Gn |].
  split; [lia|].
  intros a Ha Hn. rewrite G4 by (unfold c; lia). auto.
Qed.

(** ** Frame of construction and of the destruction operation *)

Lemma node_init_frame (limit : nat) (polys : option (list Polygon.t))
  (h : Heap.t) :
  Heap.preserves h (fst (Heap.node_init limit polys h)) /\
  match snd (Heap.node_init limit polys h) with
  | Ok a => a = List.length h
  | Raise _ => True
  end.
Proof.
  unfold Heap.node_init. cbn [Heap.alloc].
  assert (P0 : Heap.preserves h (h ++ [Heap.fresh])).
  { split; [rewrite length_app; lia|]. intros a Ha. now apply get_alloc_old. }
  destruct polys as [[|p ps]|]; cbn [fst snd]; auto.
  destruct (@build_frame limit (List.length h) (p :: ps) (h ++ [Heap.fresh]))
    as [L G].
  - rewrite length_app. simpl. lia.
  - now rewrite get_alloc_new.
  - now rewrite get_alloc_new.
  - destruct (Heap.build limit (List.length h) (p :: ps) (h ++ [Heap.fresh]))
      as [h' r]. cbn [fst snd] in *.
    rewrite length_app in L, G. simpl in L, G. split.
    + split; [lia|]. intros a Ha.
      rewrite G by lia. now apply get_alloc_old.
    + destruct r as [[]|e]; simpl; auto.
Qed.

Lemma tree_init_frame (limit : nat) (polys : list Polygon.t) (h : Heap.t) :
  Heap.preserves h (fst (Heap.tree_init limit polys h)) /\
  match snd (Heap.tree_init limit polys h) with
  | Ok t' => Heap.root t' = List.length h
  | Raise _ => True
  end.
Proof.
  unfold Heap.tree_init.
  destruct (node_init_frame limit (Some polys) h) as [P R].
  destruct (Heap.node_init limit (Some polys) h) as [h' r].
  cbn [fst snd] in *. split; [exact P|].
  destruct r as [a|e]; simpl; auto.
Qed.

Lemma closed_get (h : Heap.t) (a : Heap.addr) :
  Heap.closed h = true -> (a < List.length h)%nat ->
  Heap.in_store h (Heap.front (Heap.get h a)) = true /\
  Heap.in_store h (Heap.back (Heap.get h a)) = true.
Proof.
  unfold Heap.closed. intros H Ha.
  rewrite forallb_forall in H.
  specialize (H (Heap.get h a) (nth_In h Heap.fresh Ha)).
  now apply andb_true_iff in H.
Qed.

(** A traversal that starts inside a closed store stays inside it, so it
    reads the same objects in any store that preserves them. *)
Lemma traverse_frame (limit : nat) (h h' : Heap.t) :
  Heap.closed h = true -> Heap.preserves h h' ->
  forall n acc,
    Heap.in_store h n = true ->
    Heap.traverse limit h' n acc = Heap.traverse limit h n acc.
Proof.
  intros Hc [_ G]. induction limit as [|limit IH]; intros n acc Hn;
    [reflexivity|].
  destruct n as [a|]; [|reflexivity]. simpl in Hn.
  apply Nat.ltb_lt in Hn. cbn [Heap.traverse]. cbv zeta.
  rewrite (G a Hn).
  destruct (@closed_get h a Hc Hn) as [Hf Hb].
  rewrite (IH _ _ Hf).
  destruct (Heap.traverse limit h (Heap.front (Heap.get h a))
              (acc ++ Heap.polygons (Heap.get h a))) as [acc'|e]; simpl;
    [apply IH, Hb | reflexivity].
Qed.

(** ** Zeros, finite values and not-a-number *)

Lemma eqb_zero (x : float) : (x =? 0) = true <-> is_zero_sf (Prim2SF x).
Proof.
  rewrite FloatAxioms.eqb_spec. change (Prim2SF 0) with (S754_zero false).
  destruct (Prim2SF x) as [s|s| |s m e]; simpl; try destruct s; simpl;
    split; intros H; auto; try discriminate; try contradiction.
Qed.

Lemma zero_mul x y : is_zero_sf x -> is_fin_sf y -> is_zero_sf (SF64mul x y).
Proof. destruct x, y; simpl; auto; try contradiction. Qed.

Lemma zero_add x y : is_zero_sf x -> is_zero_sf y -> is_zero_sf (SF64add x y).
Proof. destruct x as [sx| | |], y as [sy| | |]; simpl; try contradiction.
  destruct sx, sy; simpl; auto. Qed.

Lemma zero_sub x y : is_zero_sf x -> is_zero_sf y -> is_zero_sf (SF64sub x y).
Proof. destruct x as [sx| | |], y as [sy| | |]; simpl; try contradiction.
  destruct sx, sy; simpl; auto. Qed.


Lemma zero_sqrt x : is_zero_sf x -> is_zero_sf (SF64sqrt x).
Proof. destruct x as [s| | |]; simpl; auto; try contradiction. Qed.

Lemma zero_fin x : is_zero_sf x -> is_fin_sf x.
Proof. destruct x; simpl; auto. Qed.


(** A zero or finite result of an operation has finite operands. *)
Lemma sub_zero_fin x y : is_zero_sf (SF64sub x y) -> is_fin_sf x /\ is_fin_sf y.
Proof.
  destruct x as [sx|sx| |sx mx ex], y as [sy|sy| |sy my ey]; simpl; auto;
    try destruct sx; try destruct sy; simpl; auto; try contradiction.
Qed.

Lemma mul_fin x y : is_fin_sf (SF64mul x y) -> is_fin_sf x /\ is_fin_sf y.
Proof.
  destruct x as [sx|sx| |sx mx ex], y as [sy|sy| |sy my ey]; simpl; auto;
    try contradiction.
Qed.

Lemma sub_fin x y : is_fin_sf (SF64sub x y) -> is_fin_sf x /\ is_fin_sf y.
Proof.
  destruct x as [sx|sx| |sx mx ex], y as [sy|sy| |sy my ey]; simpl; auto;
    try destruct sx; try destruct sy; simpl; auto; try contradiction.
Qed.

Lemma back_negative_or_nan (c : float) :
  (abs c <=? eps) = false -> (0 <? c) = false ->
  (c <? 0) = true \/ is_nan c = true.
Proof.
  unfold is_nan. rewrite leb_spec, !ltb_spec, FloatAxioms.eqb_spec, abs_spec.
  change (Prim2SF 0) with (S754_zero false).
  replace (Prim2SF eps) with (S754_finite false 5902958103587057 (-69)%Z)
    by (symmetry; vm_compute; reflexivity).
  destruct (Prim2SF c) as [s|s| |s m e]; simpl; try destruct s; simpl; auto;
    try discriminate.
Qed.

Lemma finite_fin (x : float) : finite x = true <-> is_fin_sf (Prim2SF x).
Proof.
  unfold finite. destruct (Prim2SF x); simpl; split; intros H;
    auto; try discriminate; try contradiction.
Qed.

Lemma zero_vec_components (v : Vec3.t) :
  zero_vec v = true ->
  is_zero_sf (Prim2SF (Vec3.x v)) /\ is_zero_sf (Prim2SF (Vec3.y v)) /\
  is_zero_sf (Prim2SF (Vec3.z v)).
Proof.
  unfold zero_vec. intros H.
  apply andb_true_iff in H. destruct H as [H Hz].
  apply andb_true_iff in H. destruct H as [Hx Hy].
  now rewrite <- !eqb_zero.
Qed.

Lemma finite_vec_components (v : Vec3.t) :
  finite_vec v = true ->
  is_fin_sf (Prim2SF (Vec3.x v)) /\ is_fin_sf (Prim2SF (Vec3.y v)) /\
  is_fin_sf (Prim2SF (Vec3.z v)).
Proof.
  unfold finite_vec. intros H.
  apply andb_true_iff in H. destruct H as [H Hz].
  apply andb_true_iff in H. destruct H as [Hx Hy].
  now rewrite <- !finite_fin.
Qed.

(** The dot product of a zero vector with a finite vector is a zero. *)
Lemma dot_zero_l (n p : Vec3.t) :
  zero_vec n = true -> finite_vec p = true ->
  is_zero_sf (Prim2SF (Vec3.dot n p)).
Proof.
  intros Hn Hp.
  destruct (zero_vec_components _ Hn) as (Nx & Ny & Nz).
  destruct (finite_vec_components _ Hp) as (Px & Py & Pz).
  unfold Vec3.dot. rewrite !add_spec, !mul_spec.
  repeat apply zero_add; apply zero_mul; assumption.
Qed.

Lemma zero_vec_finite (v : Vec3.t) : zero_vec v = true -> finite_vec v = true.
Proof.
  intros H. destruct (zero_vec_components _ H) as (X & Y & Z).
  unfold finite_vec. apply zero_fin, finite_fin in X, Y, Z.
  now rewrite X, Y, Z.
Qed.

(** A vector whose components are zeros normalizes to [Vec3(0, 0, 0)]. *)
Lemma normalize_zero (v : Vec3.t) :
  zero_vec v = true -> Vec3.normalize v = Ok (Vec3.mk 0 0 0).
Proof.
  intros H. rewrite normalize_returns.
  assert (E : (sqrt (Vec3.dot v v) =? 0) = true).
  { apply eqb_zero. rewrite sqrt_spec. apply zero_sqrt.
    apply dot_zero_l; [exact H | now apply zero_vec_finite]. }
  now rewrite E.
Qed.

(** A zero cross product of the edge vectors is computed from finite
    points only. *)
Lemma zero_cross_finite (a b c : Vec3.t) :
  zero_vec (Vec3.cross (Vec3.sub b a) (Vec3.sub c a)) = true ->
  finite_vec a = true.
Proof.
  intros H. destruct (zero_vec_components _ H) as (X & Y & Z).
  cbn [Vec3.cross Vec3.sub Vec3.x Vec3.y Vec3.z] in X, Y, Z.
  rewrite sub_spec, !mul_spec, !sub_spec in X, Y.
  apply sub_zero_fin in X, Y.
  destruct X as [X1 _]. destruct Y as [Y1 Y2].
  apply mul_fin in X1, Y1, Y2.
  destruct X1 as [X1 _]. destruct Y1 as [Y1 _]. destruct Y2 as [Y2 _].
  apply sub_fin in X1, Y1, Y2.
  unfold finite_vec. apply andb_true_iff. split; [apply andb_true_iff; split|];
    apply finite_fin; tauto.
Qed.

(** * The claims *)

(** ** Construction does not always return (C1, C2, C3) *)

Lemma build_off_plane_raises (limit : nat) (first : Polygon.t)
  (rest : list Polygon.t) :
  self_coplanar first = false ->
  forallb has_centroid (first :: rest) = true ->
  BSPNode.build limit BSPNode.empty (first :: rest) = Raise RecursionError.
Proof.
  intros Hs Hc.
  destruct (BSPNode.build limit BSPNode.empty (first :: rest)) as [n|e] eqn:E.
  - now apply build_first_off_plane in E.
  - now rewrite (build_raises _ _ _ Hc E).
Qed.

Lemma BSPTree_init_off_plane (limit : nat) (first : Polygon.t)
  (rest : list Polygon.t) :
  self_coplanar first = false ->
  forallb has_centroid (first :: rest) = true ->
  BSPTree.init limit (first :: rest) = Raise RecursionError.
Proof.
  intros Hs Hc. unfold BSPTree.init. rewrite BSPNode_init_eq.
  now rewrite build_off_plane_raises.
Qed.

(** C1 (the code fails the claim). The claim promises that [BSPTree(polys)]
    stores every polygon of every input list. For the list holding the one
    triangle (1e12,0,0), (1e12+1,1,0), (1e12,1,1) no tree is built at all:
    its centroid is 1.2e-4 off the plane computed from its own vertices,
    so [build] hands it to a child over and over, and the construction
    raises [RecursionError] whatever the stack limit. *)
Theorem far_triangle_is_never_stored :
  Polygon.from_vertices Sample.far_vertices = Ok Sample.far_triangle /\
  (exists c, Polygon.centroid Sample.far_triangle = Ok c /\
             (eps <? Plane.classify_point (Polygon.plane Sample.far_triangle) c)
             = true) /\
  forall limit, BSPTree.init limit [Sample.far_triangle] = Raise RecursionError.
Proof.
  split; [vm_compute; reflexivity|]. split.
  - eexists. split; vm_compute; reflexivity.
  - intros limit. apply BSPTree_init_off_plane; vm_compute; reflexivity.
Qed.

(** C3 (the code fails the claim). The claim promises that [build]
    terminates on every list, polygons off their own plane included. On the
    quadrilateral (0,0,0), (1,0,0), (0,1,0), (0,0,4), whose centroid is at
    distance 1 from the plane of its first three vertices, it does not
    return: every stack limit ends in [RecursionError]. *)
Theorem build_never_returns_on_bent_quad :
  Polygon.from_vertices Sample.bent_vertices = Ok Sample.bent_quad /\
  self_coplanar Sample.bent_quad = false /\
  forall limit,
    BSPNode.build limit BSPNode.empty [Sample.bent_quad] = Raise RecursionError /\
    BSPTree.init limit [Sample.bent_quad] = Raise RecursionError.
Proof.
  split; [vm_compute; reflexivity|]. split; [vm_compute; reflexivity|].
  intros limit. split.
  - apply build_off_plane_raises; vm_compute; reflexivity.
  - apply BSPTree_init_off_plane; vm_compute; reflexivity.
Qed.

(** C2 (the code fails the claim). The claim describes the result of
    [apply_explosion] for every tree, point and radius. The tree built
    from the triangle in the plane z = 1/3 and the far triangle holds both
    at its root. An explosion of radius 1 at (1/3, 1/3, 1/3) removes the
    first and keeps the second, and rebuilding from the far triangle alone
    never returns: there is no result for the claim to describe. *)
Theorem explosion_never_returns_on_two_triangles :
  forall limit,
  exists tree,
    BSPTree.init (S limit) [Sample.near_triangle; Sample.far_triangle] = Ok tree /\
    BSPTree.all_polygons tree = [Sample.near_triangle; Sample.far_triangle] /\
    filter (kept (Vec3.mk Sample.third Sample.third Sample.third) 1)
           (BSPTree.all_polygons tree) = [Sample.far_triangle] /\
    apply_explosion (S limit) tree
      (Vec3.mk Sample.third Sample.third Sample.third) 1
    = Raise RecursionError.
Proof.
  intros limit.
  assert (E : exists n,
             BSPNode.build 1 BSPNode.empty
               [Sample.near_triangle; Sample.far_triangle] = Ok n /\
             flatten n = [Sample.near_triangle; Sample.far_triangle]).
  { eexists. split; vm_compute; reflexivity. }
  destruct E as (n & Hn & Hf).
  exists (BSPTree.mk n). split; [|split; [exact Hf|]].
  - unfold BSPTree.init. rewrite BSPNode_init_eq.
    rewrite (build_limit_mono _ _ Hn (limit' := S limit)) by lia.
    reflexivity.
  - unfold BSPTree.all_polygons. cbn [BSPTree.root].
    fold (flatten n). rewrite Hf.
    assert (K : filter (kept (Vec3.mk Sample.third Sample.third Sample.third) 1)
                  [Sample.near_triangle; Sample.far_triangle]
                = [Sample.far_triangle]) by (vm_compute; reflexivity).
    split; [exact K|].
    rewrite apply_explosion_eq.
    + unfold BSPTree.all_polygons. cbn [BSPTree.root]. fold (flatten n).
      rewrite Hf, K. apply BSPTree_init_off_plane; vm_compute; reflexivity.
    + unfold BSPTree.all_polygons. cbn [BSPTree.root]. fold (flatten n).
      rewrite Hf. vm_compute. reflexivity.
Qed.

(** ** One call of [build] on a node without a plane (C4) *)

Lemma build_step_grow (limit : nat) (self : BSPNode.t) (first : Polygon.t)
  (rest : list Polygon.t) :
  let polys := first :: rest in
  let pl := match BSPNode.plane self with
            | Some pl => pl
            | None => Polygon.plane first
            end in
  BSPNode.build (S limit) self polys =
  if forallb has_centroid polys then
    front' <- grow limit (BSPNode.front self) (filter (is_front pl) polys) ;;
    back' <- grow limit (BSPNode.back self) (filter (is_back pl) polys) ;;
    Ok (BSPNode.mk (Some pl) front' back'
          (BSPNode.polygons self ++ filter (is_coplanar pl) polys))
  else Raise ZeroDivisionError.
Proof.
  intros polys pl. unfold polys. rewrite build_step. cbv zeta.
  reflexivity.
Qed.

(** C4. A call of [build] with a non-empty list on a node that has no
    plane adopts the plane of the first polygon, appends to the node's own
    list the polygons whose classification is within 1e-5 in absolute
    value (in input order), and builds the front child with those of
    positive and the back child with those of negative classification
    (a list without a centroid-less polygon; such a polygon raises
    ZeroDivisionError before anything is stored). *)
Theorem build_adopts_first_plane_and_classifies (limit : nat)
  (self : BSPNode.t) (first : Polygon.t) (rest : list Polygon.t) :
  BSPNode.plane self = None ->
  let polys := first :: rest in
  let pl := Polygon.plane first in
  BSPNode.build (S limit) self polys =
    (if forallb has_centroid polys then
       front' <- grow limit (BSPNode.front self) (filter (is_front pl) polys) ;;
       back' <- grow limit (BSPNode.back self) (filter (is_back pl) polys) ;;
       Ok (BSPNode.mk (Some pl) front' back'
             (BSPNode.polygons self ++ filter (is_coplanar pl) polys))
     else Raise ZeroDivisionError)
  /\
  forall p c,
    Polygon.centroid p = Ok c ->
    let s := Plane.classify_point pl c in
    ((abs s <=? eps) = true ->
       is_coplanar pl p = true /\ is_front pl p = false /\ is_back pl p = false)
    /\
    ((abs s <=? eps) = false -> (0 <? s) = true ->
       is_coplanar pl p = false /\ is_front pl p = true /\ is_back pl p = false)
    /\
    ((abs s <=? eps) = false -> (s <? 0) = true ->
       is_coplanar pl p = false /\ is_front pl p = false /\ is_back pl p = true).
Proof.
  intros Hpl polys pl. split.
  - unfold polys, pl. rewrite build_step_grow. cbv zeta. now rewrite Hpl.
  - intros p c Hc. cbv zeta. unfold is_coplanar, is_front, is_back.
    rewrite Hc.
    pose proof (@ltb_asym (Plane.classify_point pl c) 0) as A.
    destruct (abs (Plane.classify_point pl c) <=? eps);
      destruct (0 <? Plane.classify_point pl c);
      destruct (Plane.classify_point pl c <? 0); simpl;
      repeat split; intros; try discriminate; auto.
    all: specialize (A eq_refl); discriminate.
Qed.

Lemma build_adopts_first_plane_and_classifies_witness :
  BSPNode.plane BSPNode.empty = None /\
  exists n,
    BSPNode.build 2 BSPNode.empty [Sample.near_triangle; Sample.flat_triangle]
    = Ok n /\
    BSPNode.plane n = Some (Polygon.plane Sample.near_triangle) /\
    BSPNode.polygons n = [Sample.near_triangle] /\
    flatten_opt (BSPNode.back n) = [Sample.flat_triangle].
Proof.
  split; [reflexivity|].
  destruct (@build_adopts_first_plane_and_classifies 1 BSPNode.empty
              Sample.near_triangle [Sample.flat_triangle] eq_refl) as [E _].
  rewrite E. vm_compute. eexists. repeat split.
Defined.

(** ** Polygon construction (C5) *)

(** C5. [Polygon.from_vertices] raises exactly when it is given fewer than
    three vertices, and then it raises the ValueError the specification
    calls InvalidGeometry; on three or more vertices it returns a polygon
    with those vertices. A caller that builds polygons in a list
    comprehension, as [make_cube] does, neither catches nor replaces the
    error: it returns all polygons or raises that same error. *)
Theorem from_vertices_raises_iff_short :
  (forall verts,
      match Polygon.from_vertices verts with
      | Raise e => e = ValueError /\ (List.length verts < 3)%nat
      | Ok p => (3 <= List.length verts)%nat /\ Polygon.vertices p = verts
      end) /\
  (forall faces,
      match comprehension Polygon.from_vertices faces with
      | Raise e =>
          e = ValueError /\
          exists verts, In verts faces /\ (List.length verts < 3)%nat
      | Ok polys =>
          map Polygon.vertices polys = faces /\
          forall verts, In verts faces -> (3 <= List.length verts)%nat
      end).
Proof.
  assert (One : forall verts,
      match Polygon.from_vertices verts with
      | Raise e => e = ValueError /\ (List.length verts < 3)%nat
      | Ok p => (3 <= List.length verts)%nat /\ Polygon.vertices p = verts
      end).
  { intros [|v0 [|v1 [|v2 r]]]; simpl; try (split; [reflexivity|lia]).
    destruct (from_points_returns v0 v1 v2) as [pl E]. rewrite E. simpl.
    split; [lia|reflexivity]. }
  split; [exact One|].
  induction faces as [|f faces IH]; simpl.
  - split; [reflexivity | intros ? []].
  - specialize (One f).
    destruct (Polygon.from_vertices f) as [p|e]; simpl.
    + destruct One as [L V].
      destruct (comprehension Polygon.from_vertices faces) as [ps|e]; simpl.
      * destruct IH as [M A]. split; [now rewrite V, M|].
        intros verts [<-|Hin]; auto.
      * destruct IH as [-> (verts & Hin & Hs)]. split; [reflexivity|].
        exists verts. auto.
    + destruct One as [-> Hs]. split; [reflexivity|]. exists f. auto.
Qed.

(** ** Degenerate planes (C6) *)


(** ** The partition invariant *)

Lemma partitioned_weaken (own fr bk own' fr' bk' : Plane.t -> Polygon.t -> bool) :
  (forall pl p, own pl p = true -> own' pl p = true) ->
  (forall pl p, fr pl p = true -> fr' pl p = true) ->
  (forall pl p, bk pl p = true -> bk' pl p = true) ->
  forall n, partitioned own fr bk n = true -> partitioned own' fr' bk' n = true.
Proof.
  intros Ho Hf Hb.
  induction n as [pl f b ps IHf IHb] using BSPNode_ind'.
  destruct pl as [pl|].
  - rewrite !partitioned_mk. intros H.
    apply andb_true_iff in H. destruct H as [H H5].
    apply andb_true_iff in H. destruct H as [H H4].
    apply andb_true_iff in H. destruct H as [H H3].
    apply andb_true_iff in H. destruct H as [H1 H2].
    rewrite (forallb_weaken _ _ _ (Ho pl) H1).
    rewrite (forallb_weaken _ _ _ (Hf pl) H2).
    rewrite (forallb_weaken _ _ _ (Hb pl) H3).
    destruct f as [nf|]; [rewrite (IHf nf eq_refl H4)|];
      (destruct b as [nb|]; [rewrite (IHb nb eq_refl H5)|]); reflexivity.
  - simpl. destruct ps; [|discriminate]. destruct f; [discriminate|].
    destruct b; [discriminate|]. reflexivity.
Qed.

Lemma front_positive pl p : is_front pl p = true -> is_positive pl p = true.
Proof.
  unfold is_front, is_positive. destruct (Polygon.centroid p); [|auto].
  intros H. now apply andb_true_iff in H.
Qed.

Lemma back_negative_or_unordered pl p :
  is_back pl p = true -> is_negative pl p || is_unordered pl p = true.
Proof.
  unfold is_back, is_negative, is_unordered.
  destruct (Polygon.centroid p) as [c|]; [|auto]. intros H.
  apply andb_true_iff in H. destruct H as [H1 H2].
  apply negb_true_iff in H1, H2.
  destruct (back_negative_or_nan H1 H2) as [->| ->];
    [reflexivity | apply orb_true_r].
Qed.

Lemma code_invariant_nan (n : BSPNode.t) :
  code_invariant n = true -> nan_invariant n = true.
Proof.
  apply partitioned_weaken; auto using front_positive, back_negative_or_unordered.
Qed.

Lemma BSPTree_init_invariant (limit : nat) (polys : list Polygon.t)
  (t : BSPTree.t) :
  BSPTree.init limit polys = Ok t -> code_invariant (BSPTree.root t) = true.
Proof.
  intros H. destruct (BSPTree_init_inv _ _ H) as [[_ ->]|[_ Hb]].
  - reflexivity.
  - exact (build_invariant _ _ Hb).
Qed.

(** Why the back side admits not-a-number. Two polygons: one constructed
    directly with a plane whose normal has components of magnitude 2^1023
    (not the plane of its vertices), one a triangle around (4, 4, 0). The
    tree is built; the triangle's classification against the root's plane
    is inf - inf, not a number, and the triangle is stored in the back
    subtree although its classification is not below 0. A plane derived
    by [Polygon.from_vertices] cannot do the same: its normal comes out
    of [normalize], see the last section. *)
Lemma unordered_polygon_in_back_subtree :
  exists t c,
    BSPTree.init 2 [Sample.steep; Sample.flat_triangle] = Ok t /\
    flatten_opt (BSPNode.back (BSPTree.root t)) = [Sample.flat_triangle] /\
    BSPNode.plane (BSPTree.root t) = Some (Polygon.plane Sample.steep) /\
    Polygon.centroid Sample.flat_triangle = Ok c /\
    (Plane.classify_point (Polygon.plane Sample.steep) c <? 0) = false /\
    is_nan (Plane.classify_point (Polygon.plane Sample.steep) c) = true /\
    spec_invariant (BSPTree.root t) = false.
Proof.
  eexists. eexists. repeat split; vm_compute; reflexivity.
Qed.

(** The invariant [build] establishes, whatever planes the polygons
    carry: in every tree produced by [BSPTree] construction, each node's
    polygons classify within 1e-5 of the node's plane, every polygon of
    its front subtree classifies above 0, and every polygon of its back
    subtree classifies below 0 or as not-a-number (the [else] branch takes
    what is neither within 1e-5 nor above 0); the trees that
    [apply_explosion] returns satisfy the same invariant. *)
Theorem built_trees_are_partitioned (limit : nat) (polys : list Polygon.t)
  (t : BSPTree.t) :
  BSPTree.init limit polys = Ok t ->
  nan_invariant (BSPTree.root t) = true /\
  forall limit' position radius t',
    apply_explosion limit' t position radius = Ok t' ->
    nan_invariant (BSPTree.root t') = true.
Proof.
  intros H. split.
  - apply code_invariant_nan. exact (BSPTree_init_invariant _ _ H).
  - intros limit' position radius t' E. apply apply_explosion_inv in E.
    destruct E as [_ E]. apply code_invariant_nan.
    exact (BSPTree_init_invariant _ _ E).
Qed.

Lemma built_trees_are_partitioned_witness :
  exists t,
    BSPTree.init 6 Sample.cube = Ok t /\
    nan_invariant (BSPTree.root t) = true.
Proof.
  assert (E : exists t, BSPTree.init 6 Sample.cube = Ok t)
    by (vm_compute; eexists; reflexivity).
  destruct E as [t E]. exists t. split; [exact E|].
  exact (proj1 (@built_trees_are_partitioned 6 Sample.cube t E)).
Defined.
(** ** The destruction operation leaves its input alone (C8) *)

(** C8. [apply_explosion] never mutates its input tree. In the store of
    node objects, whatever the call does (return a tree or raise, at any
    stack limit), every object that existed before the call is unchanged
    after it, so the input tree has the same node structure and
    [all_polygons] returns for it the same sequence as before; and a tree
    that is returned has a root allocated by the call. *)
Theorem apply_explosion_leaves_input_unchanged (limit : nat) (h : Heap.t)
  (self : Heap.tree) (position : Vec3.t) (radius : float) :
  Heap.closed h = true ->
  (Heap.root self < List.length h)%nat ->
  let h' := fst (Heap.apply_explosion limit self position radius h) in
  Heap.preserves h h' /\
  (forall depth, Heap.all_polygons depth h' self = Heap.all_polygons depth h self) /\
  match snd (Heap.apply_explosion limit self position radius h) with
  | Ok t' => Heap.root t' = List.length h
  | Raise _ => True
  end.
Proof.
  intros Hc Hr h'.
  assert (P : Heap.preserves h h' /\
              match snd (Heap.apply_explosion limit self position radius h) with
              | Ok t' => Heap.root t' = List.length h
              | Raise _ => True
              end).
  { unfold h', Heap.apply_explosion.
    destruct (Heap.all_polygons limit h self) as [polys|e];
      [|split; [apply preserves_refl | exact I]].
    destruct (for_each (explosion_body position radius) polys []) as [rem|e];
      [|split; [apply preserves_refl | exact I]].
    apply tree_init_frame. }
  destruct P as [P R]. split; [exact P|]. split; [|exact R].
  intros depth. unfold Heap.all_polygons.
  apply traverse_frame; [exact Hc | exact P |].
  simpl. now apply Nat.ltb_lt.
Qed.


Lemma apply_explosion_leaves_input_unchanged_witness :
  Heap.closed Sample.cube_store = true /\
  (Heap.root Sample.cube_tree < List.length Sample.cube_store)%nat /\
  Heap.all_polygons 7
    (fst (Heap.apply_explosion 7 Sample.cube_tree Sample.origin 3
            Sample.cube_store))
    Sample.cube_tree
  = Heap.all_polygons 7 Sample.cube_store Sample.cube_tree.
Proof.
  assert (Hc : Heap.closed Sample.cube_store = true) by (vm_compute; reflexivity).
  assert (Hr : (Heap.root Sample.cube_tree < List.length Sample.cube_store)%nat)
    by (vm_compute; lia).
  split; [exact Hc|]. split; [exact Hr|].
  pose proof (@apply_explosion_leaves_input_unchanged
                         7 Sample.cube_store Sample.cube_tree
                         Sample.origin 3 Hc Hr) as X.
  cbv zeta in X.
  destruct X as (_ & X & _).
  exact (X 7%nat).
Defined.

(** ** The cube scenario (C9) *)

Lemma BSPTree_init_mono (limit limit' : nat) (polys : list Polygon.t)
  (t : BSPTree.t) :
  BSPTree.init limit polys = Ok t -> (limit <= limit')%nat ->
  BSPTree.init limit' polys = Ok t.
Proof.
  intros H L. destruct (BSPTree_init_inv _ _ H) as [[-> ->]|[Hne Hb]];
    [reflexivity|].
  unfold BSPTree.init. rewrite BSPNode_init_eq.
  destruct polys as [|p ps]; [contradiction|].
  rewrite (build_limit_mono _ _ Hb L). simpl. now destruct t.
Qed.

Lemma apply_explosion_mono (limit limit' : nat) (tree t' : BSPTree.t)
  (position : Vec3.t) (radius : float) :
  apply_explosion limit tree position radius = Ok t' -> (limit <= limit')%nat ->
  apply_explosion limit' tree position radius = Ok t'.
Proof.
  intros H L. apply apply_explosion_inv in H. destruct H as [Hm Hi].
  rewrite apply_explosion_eq by exact Hm.
  exact (@BSPTree_init_mono _ _ _ _ Hi L).
Qed.

(** C9. The six faces [make_cube] produces for the cube of size 10
    centered at the origin give a tree of 6 polygons; the edit at the
    center with radius 20 gives a tree of 0 polygons, the edit with radius
    0 a tree of 6 polygons (on any stack of at least 6 frames). *)
Theorem cube_scenario (k : nat) :
  make_cube Sample.origin 10 = Ok Sample.cube /\
  List.length Sample.cube = 6%nat /\
  BSPTree.init (6 + k) Sample.cube = Ok Scenario.built /\
  List.length (BSPTree.all_polygons Scenario.built) = 6%nat /\
  apply_explosion (6 + k) Scenario.built Sample.origin 20 = Ok Scenario.after_20 /\
  List.length (BSPTree.all_polygons Scenario.after_20) = 0%nat /\
  apply_explosion (6 + k) Scenario.built Sample.origin 0 = Ok Scenario.after_0 /\
  List.length (BSPTree.all_polygons Scenario.after_0) = 6%nat.
Proof.
  assert (Et : BSPTree.init 6 Sample.cube = Ok Scenario.built)
    by (vm_compute; reflexivity).
  assert (E20 : apply_explosion 6 Scenario.built Sample.origin 20
                = Ok Scenario.after_20) by (vm_compute; reflexivity).
  assert (E0 : apply_explosion 6 Scenario.built Sample.origin 0
               = Ok Scenario.after_0) by (vm_compute; reflexivity).
  split; [vm_compute; reflexivity|]. split; [vm_compute; reflexivity|].
  split; [apply (@BSPTree_init_mono 6 _ _ _ Et); lia|].
  split; [vm_compute; reflexivity|].
  split; [apply (@apply_explosion_mono 6 _ _ _ _ _ E20); lia|].
  split; [vm_compute; reflexivity|].
  split; [apply (@apply_explosion_mono 6 _ _ _ _ _ E0); lia|].
  vm_compute; reflexivity.
Qed.

(** ** Idempotence of the destruction operation (C10) *)

Lemma explosion_loop_raises (position : Vec3.t) (radius : float)
  (polys acc : list Polygon.t) (e : exn) :
  for_each (explosion_body position radius) polys acc = Raise e ->
  exists p, In p polys /\ centroid_distance position p = Raise e.
Proof.
  revert acc. induction polys as [|p polys IH]; intros acc H; [discriminate|].
  simpl in H. rewrite explosion_body_eq in H.
  destruct (centroid_distance position p) as [dist|e'] eqn:E.
  - simpl in H. destruct (IH _ H) as (q & Hq & Eq). exists q. simpl. auto.
  - simpl in H. exists p. simpl. split; [auto | congruence].
Qed.

Lemma centroid_distance_raises (position : Vec3.t) (p : Polygon.t) (e : exn) :
  has_centroid p = true ->
  centroid_distance position p = Raise e -> e = OverflowError.
Proof.
  intros Hc. apply has_centroid_Ok in Hc. destruct Hc as [c Hc].
  unfold centroid_distance. rewrite Hc. simpl. apply distance_raises.
Qed.

Lemma BSPTree_init_returns (limit : nat) (polys : list Polygon.t) :
  forallb self_coplanar polys = true ->
  (List.length polys < limit)%nat ->
  exists t, BSPTree.init limit polys = Ok t.
Proof.
  intros Hs Hl. unfold BSPTree.init. rewrite BSPNode_init_eq.
  destruct polys as [|p ps]; [eexists; reflexivity|].
  destruct (@build_returns limit (p :: ps) Hs Hl) as [n ->]. eexists; reflexivity.
Qed.

(** C10. For a list of polygons that each lie within 1e-5 of their own
    plane (and a stack of more frames than the list has polygons), the
    tree is built, and applying the same explosion twice gives a tree with
    the same [all_polygons] sequence as applying it once. The one way the
    first application can fail is the OverflowError of a squared
    coordinate difference that is out of the float range. *)
Theorem explosion_is_idempotent (limit : nat) (polys : list Polygon.t)
  (position : Vec3.t) (radius : float) :
  forallb self_coplanar polys = true ->
  (List.length polys < limit)%nat ->
  exists t,
    BSPTree.init limit polys = Ok t /\
    match apply_explosion limit t position radius with
    | Ok once =>
        exists twice,
          apply_explosion limit once position radius = Ok twice /\
          BSPTree.all_polygons twice = BSPTree.all_polygons once
    | Raise e =>
        e = OverflowError /\
        exists p, In p polys /\
                  centroid_distance position p = Raise OverflowError
    end.
Proof.
  intros Hs Hl. destruct (@BSPTree_init_returns limit polys Hs Hl) as [t Ht].
  exists t. split; [exact Ht|].
  pose proof (@BSPTree_init_coverage limit polys t Ht) as P.
  destruct (apply_explosion limit t position radius) as [once|e] eqn:E.
  - exists once. split; [exact (@apply_explosion_again _ _ _ _ _ E) | reflexivity].
  - unfold apply_explosion in E.
    destruct (for_each (explosion_body position radius)
                (BSPTree.all_polygons t) []) as [remaining|e'] eqn:L.
    + exfalso. simpl in E.
      pose proof (@explosion_loop_returns _ _ _ _ _ L) as Hm.
      rewrite (@explosion_loop _ radius _ [] Hm) in L. apply Ok_inj in L.
      subst remaining. simpl in E.
      destruct (@BSPTree_init_returns limit
                  (filter (kept position radius) (BSPTree.all_polygons t)))
        as [t' Ht'].
      * apply forallb_filter. now rewrite (forallb_perm _ P).
      * pose proof (filter_length_le (kept position radius)
                      (BSPTree.all_polygons t)).
        rewrite (Permutation_length P) in *. lia.
      * congruence.
    + simpl in E. assert (e' = e) by congruence. subst e'.
      destruct (@explosion_loop_raises _ _ _ _ _ L) as (p & Hp & Ep).
      assert (Hin : In p polys) by (eapply Permutation_in; eassumption).
      assert (Hc : has_centroid p = true).
      { apply self_coplanar_has_centroid.
        rewrite forallb_forall in Hs. now apply Hs. }
      pose proof (@centroid_distance_raises _ _ _ Hc Ep) as ->.
      split; [reflexivity|]. exists p. auto.
Qed.

Lemma explosion_is_idempotent_witness :
  forallb self_coplanar Sample.cube = true /\
  (List.length Sample.cube < 7)%nat /\
  exists t,
    BSPTree.init 7 Sample.cube = Ok t /\
    match apply_explosion 7 t (Vec3.mk 5 0 0) 6 with
    | Ok once =>
        exists twice,
          apply_explosion 7 once (Vec3.mk 5 0 0) 6 = Ok twice /\
          BSPTree.all_polygons twice = BSPTree.all_polygons once
    | Raise e =>
        e = OverflowError /\
        exists p, In p Sample.cube /\
                  centroid_distance (Vec3.mk 5 0 0) p = Raise OverflowError
    end.
Proof.
  assert (Hs : forallb self_coplanar Sample.cube = true)
    by (vm_compute; reflexivity).
  assert (Hl : (List.length Sample.cube < 7)%nat) by (vm_compute; lia).
  split; [exact Hs|]. split; [exact Hl|].
  exact (@explosion_is_idempotent 7 Sample.cube (Vec3.mk 5 0 0) 6 Hs Hl).
Defined.

(** * Further properties *)

(** ** Coverage and termination, where construction returns *)

(** Polygon coverage: a tree that [BSPTree(polys)] returns stores every
    polygon of [polys] exactly once; [all_polygons] is a permutation of the
    input and has its length. *)
Theorem stored_polygons_are_the_input (limit : nat) (polys : list Polygon.t)
  (t : BSPTree.t) :
  BSPTree.init limit polys = Ok t ->
  Permutation (BSPTree.all_polygons t) polys /\
  List.length (BSPTree.all_polygons t) = List.length polys.
Proof.
  intros H. pose proof (@BSPTree_init_coverage limit polys t H) as P.
  split; [exact P | exact (Permutation_length P)].
Qed.

Lemma stored_polygons_are_the_input_witness :
  BSPTree.init 6 Sample.cube = Ok Scenario.built /\
  List.length (BSPTree.all_polygons Scenario.built) = List.length Sample.cube.
Proof.
  assert (E : BSPTree.init 6 Sample.cube = Ok Scenario.built)
    by (vm_compute; reflexivity).
  split; [exact E|].
  exact (proj2 (@stored_polygons_are_the_input 6 Sample.cube Scenario.built E)).
Defined.

(** Construction returns when every polygon lies within 1e-5 of its own
    plane and the stack has more frames than the list has polygons;
    and it returns only when the first polygon of the list does. *)
Theorem construction_returns_on_self_coplanar (limit : nat)
  (polys : list Polygon.t) :
  (forallb self_coplanar polys = true ->
   (List.length polys < limit)%nat ->
   exists t, BSPTree.init limit polys = Ok t) /\
  (forall first rest t,
      polys = first :: rest ->
      BSPTree.init limit polys = Ok t ->
      self_coplanar first = true).
Proof.
  split; [apply BSPTree_init_returns|].
  intros first rest t -> H.
  destruct (@BSPTree_init_inv limit (first :: rest) t H) as [[E _]|[_ Hb]];
    [discriminate|].
  destruct (self_coplanar first) eqn:E; [reflexivity|].
  now apply build_first_off_plane in Hb.
Qed.

(** ** Destruction correctness, where the rebuild returns *)

Lemma filter_split (A : Type) (keep : A -> bool) (xs : list A) :
  Permutation (filter keep xs ++ filter (fun x => negb (keep x)) xs) xs.
Proof.
  induction xs as [|x xs IHxs]; simpl; [constructor|].
  destruct (keep x); simpl; [now constructor|].
  symmetry. apply Permutation_cons_app. now symmetry.
Qed.

(** A tree that [apply_explosion] returns holds exactly the polygons of
    the input whose centroid is farther than [radius] from [position]:
    each polygon of the result has a distance above the radius, no polygon
    at a distance of at most the radius is in it, and the result together
    with the polygons that failed the test is the input. *)
Theorem explosion_keeps_the_far_polygons (limit : nat) (tree t' : BSPTree.t)
  (position : Vec3.t) (radius : float) :
  apply_explosion limit tree position radius = Ok t' ->
  Permutation (BSPTree.all_polygons t')
    (filter (kept position radius) (BSPTree.all_polygons tree)) /\
  (forall p, In p (BSPTree.all_polygons t') ->
     In p (BSPTree.all_polygons tree) /\
     exists dist, centroid_distance position p = Ok dist /\
                  (radius <? dist) = true) /\
  (forall p, In p (BSPTree.all_polygons tree) ->
     within position radius p = true ->
     ~ In p (BSPTree.all_polygons t')) /\
  Permutation (BSPTree.all_polygons tree)
    (BSPTree.all_polygons t'
     ++ filter (fun p => negb (kept position radius p))
          (BSPTree.all_polygons tree)).
Proof.
  intros H. apply apply_explosion_inv in H. destruct H as [Hm Hi].
  pose proof (@BSPTree_init_coverage _ _ _ Hi) as P.
  assert (K : forall p, In p (BSPTree.all_polygons t') ->
                In p (BSPTree.all_polygons tree) /\
                kept position radius p = true).
  { intros p Hp. apply (Permutation_in _ P) in Hp.
    now apply filter_In in Hp. }
  split; [exact P|]. split; [|split].
  - intros p Hp. destruct (K p Hp) as [Hin Hk]. split; [exact Hin|].
    unfold kept in Hk.
    destruct (centroid_distance position p) as [dist|]; [|discriminate].
    exists dist. auto.
  - intros p Hin Hw Hp. destruct (K p Hp) as [_ Hk].
    unfold kept, within in *.
    destruct (centroid_distance position p) as [dist|]; [|discriminate].
    rewrite (@leb_not_gt _ _ Hw) in Hk. discriminate.
  - rewrite P. symmetry. apply filter_split.
Qed.

Lemma explosion_keeps_the_far_polygons_witness :
  apply_explosion 6 Scenario.built Sample.origin 0 = Ok Scenario.after_0 /\
  Permutation (BSPTree.all_polygons Scenario.after_0)
    (filter (kept Sample.origin 0) (BSPTree.all_polygons Scenario.built)).
Proof.
  assert (E : apply_explosion 6 Scenario.built Sample.origin 0
              = Ok Scenario.after_0) by (vm_compute; reflexivity).
  split; [exact E|].
  exact (proj1 (@explosion_keeps_the_far_polygons
                  6 Scenario.built Scenario.after_0 Sample.origin 0 E)).
Defined.

(** Rebuilding a tree from its own traversal order gives the same tree. *)
Theorem rebuild_from_traversal_is_identity (limit : nat)
  (polys : list Polygon.t) (t : BSPTree.t) :
  BSPTree.init limit polys = Ok t ->
  BSPTree.init limit (BSPTree.all_polygons t) = Ok t.
Proof. apply BSPTree_init_flatten. Qed.

Lemma rebuild_from_traversal_is_identity_witness :
  BSPTree.init 6 Sample.cube = Ok Scenario.built /\
  BSPTree.init 6 (BSPTree.all_polygons Scenario.built) = Ok Scenario.built.
Proof.
  assert (E : BSPTree.init 6 Sample.cube = Ok Scenario.built)
    by (vm_compute; reflexivity).
  split; [exact E|].
  exact (@rebuild_from_traversal_is_identity 6 Sample.cube Scenario.built E).
Defined.

(** ** The store builds the tree of the state-passing model *)

Lemma represents_frame (lo : nat) (h h' : Heap.t) :
  (List.length h <= List.length h')%nat ->
  (forall x, (lo <= x < List.length h)%nat -> Heap.get h' x = Heap.get h x) ->
  forall n a,
    Heap.get h' a = Heap.get h a ->
    represents lo h a n -> represents lo h' a n.
Proof.
  intros L G. induction n as [pl f b ps IHf IHb] using BSPNode_ind'.
  intros a Ga (Ha & Hpl & Hps & Hf & Hb). cbn [represents]. rewrite Ga.
  split; [lia|]. split; [exact Hpl|]. split; [exact Hps|]. split.
  - destruct f as [nf|]; destruct (Heap.front (Heap.get h a)) as [c|]; auto.
    destruct Hf as [Hlo Hr]. split; [exact Hlo|].
    assert (Hc : (c < List.length h)%nat) by (destruct nf; apply Hr).
    apply (IHf nf eq_refl); [apply G; lia | exact Hr].
  - destruct b as [nb|]; destruct (Heap.back (Heap.get h a)) as [c|]; auto.
    destruct Hb as [Hlo Hr]. split; [exact Hlo|].
    assert (Hc : (c < List.length h)%nat) by (destruct nb; apply Hr).
    apply (IHb nb eq_refl); [apply G; lia | exact Hr].
Qed.

Lemma represents_lower (lo lo' : nat) (h : Heap.t) :
  (lo' <= lo)%nat ->
  forall n a, represents lo h a n -> represents lo' h a n.
Proof.
  intros L. induction n as [pl f b ps IHf IHb] using BSPNode_ind'.
  intros a (Ha & Hpl & Hps & Hf & Hb). cbn [represents].
  split; [exact Ha|]. split; [exact Hpl|]. split; [exact Hps|]. split.
  - destruct f as [nf|]; destruct (Heap.front (Heap.get h a)) as [c|]; auto.
    destruct Hf as [Hlo Hr]. split; [lia | exact (IHf nf eq_refl c Hr)].
  - destruct b as [nb|]; destruct (Heap.back (Heap.get h a)) as [c|]; auto.
    destruct Hb as [Hlo Hr]. split; [lia | exact (IHb nb eq_refl c Hr)].
Qed.

Lemma heap_build_step (limit : nat) (self : Heap.addr) (first : Polygon.t)
  (rest : list Polygon.t) (h : Heap.t) :
  let polys := first :: rest in
  let h1 := match Heap.plane (Heap.get h self) return Heap.t with
            | Some _ => h
            | None => Heap.set h self
                        (Heap.set_plane (Heap.get h self) (Polygon.plane first))
            end in
  let pl := match Heap.plane (Heap.get h1 self) with
            | Some pl => pl
            | None => Polygon.plane first
            end in
  Heap.build (S limit) self polys h =
  match for_each (BSPNode.classify_body pl) polys (BSPNode.mk_lists [] [] []) with
  | Raise e => (h1, Raise e)
  | Ok ls =>
      let h2 := Heap.set h1 self
                  (Heap.extend_polygons (Heap.get h1 self) (BSPNode.coplanar ls)) in
      let '(h3, r) :=
        match BSPNode.front_list ls with
        | [] => (h2, Ok tt)
        | _ :: _ =>
            let '(hc, child) := Heap.front_or_new self h2 in
            Heap.build limit child (BSPNode.front_list ls) hc
        end in
      match r with
      | Raise e => (h3, Raise e)
      | Ok _ =>
          match BSPNode.back_list ls with
          | [] => (h3, Ok tt)
          | _ :: _ =>
              let '(hc, child) := Heap.back_or_new self h3 in
              Heap.build limit child (BSPNode.back_list ls) hc
          end
      end
  end.
Proof. reflexivity. Qed.

Lemma child_build (limit : nat) (IH : agree_at limit)
  (link : Heap.node -> Heap.addr -> Heap.node) (h : Heap.t)
  (self : Heap.addr) (l : list Polygon.t) :
  (self < List.length h)%nat ->
  let c := List.length h in
  let hc := Heap.set (h ++ [Heap.fresh]) self
              (link (Heap.get (h ++ [Heap.fresh]) self) c) in
  match BSPNode.build limit BSPNode.empty l with
  | Ok n =>
      snd (Heap.build limit c l hc) = Ok tt /\
      represents (List.length h) (fst (Heap.build limit c l hc)) c n /\
      Heap.get (fst (Heap.build limit c l hc)) self = link (Heap.get h self) c /\
      (List.length h < List.length (fst (Heap.build limit c l hc)))%nat /\
      forall a, (a < List.length h)%nat -> a <> self ->
                Heap.get (fst (Heap.build limit c l hc)) a = Heap.get h a
  | Raise e => snd (Heap.build limit c l hc) = Raise e
  end.
Proof.
  intros Hs c hc.
  assert (Lc : List.length hc = S (List.length h))
    by (unfold hc; rewrite length_set, length_app; simpl; lia).
  assert (Gn : Heap.get hc c = Heap.fresh).
  { unfold hc. rewrite get_set_neq by (unfold c; lia). apply get_alloc_new. }
  assert (Gs : Heap.get hc self = link (Heap.get h self) c).
  { unfold hc. rewrite get_set_eq by (rewrite length_app; simpl; lia).
    now rewrite get_alloc_old. }
  assert (Go : forall a, (a < List.length h)%nat -> a <> self ->
                         Heap.get hc a = Heap.get h a).
  { intros a Ha Hn. unfold hc. rewrite get_set_neq by auto.
    now apply get_alloc_old. }
  pose proof (IH c l hc None [] ltac:(unfold c; lia) Gn) as A.
  change (BSPNode.mk None None None []) with BSPNode.empty in A.
  destruct (@build_frame limit c l hc) as [L G];
    [unfold c; lia | now rewrite Gn | now rewrite Gn |].
  destruct (BSPNode.build limit BSPNode.empty l) as [n|e]; [|exact A].
  destruct A as [A1 A2]. split; [exact A1|]. split.
  - apply (@represents_lower (List.length hc)); [lia | exact A2].
  - split; [|split].
    + rewrite G by (unfold c; lia). exact Gs.
    + lia.
    + intros a Ha Hn. rewrite G by (unfold c; lia). now apply Go.
Qed.

Lemma pure_build_step (limit : nat) (pl : option Plane.t)
  (ps : list Polygon.t) (first : Polygon.t) (rest : list Polygon.t) :
  let pl' := match pl with Some p => p | None => Polygon.plane first end in
  BSPNode.build (S limit) (BSPNode.mk pl None None ps) (first :: rest) =
  ls <- for_each (BSPNode.classify_body pl') (first :: rest)
          (BSPNode.mk_lists [] [] []) ;;
  f <- grow limit None (BSPNode.front_list ls) ;;
  b <- grow limit None (BSPNode.back_list ls) ;;
  Ok (BSPNode.mk (Some pl') f b (ps ++ BSPNode.coplanar ls)).
Proof. reflexivity. Qed.

(** One child slot: nothing happens for an empty list; else a child is
    allocated, linked into [self] and built. *)
Lemma slot_step (limit : nat) (IH : agree_at limit)
  (link : Heap.node -> Heap.addr -> Heap.node) (h : Heap.t)
  (self : Heap.addr) (l : list Polygon.t) :
  (self < List.length h)%nat ->
  let step :=
    match l with
    | [] => (h, Ok tt)
    | _ :: _ =>
        Heap.build limit (List.length h) l
          (Heap.set (h ++ [Heap.fresh]) self
             (link (Heap.get (h ++ [Heap.fresh]) self) (List.length h)))
    end in
  match grow limit None l with
  | Ok child =>
      snd step = Ok tt /\
      (List.length h <= List.length (fst step))%nat /\
      (forall a, (a < List.length h)%nat -> a <> self ->
                 Heap.get (fst step) a = Heap.get h a) /\
      match child with
      | None => Heap.get (fst step) self = Heap.get h self
      | Some n =>
          Heap.get (fst step) self = link (Heap.get h self) (List.length h) /\
          represents (List.length h) (fst step) (List.length h) n
      end
  | Raise e => snd step = Raise e
  end.
Proof.
  intros Hs step. unfold grow. destruct l as [|q qs].
  - unfold step. simpl. auto.
  - cbn [BSPNode.or_new].
    pose proof (@child_build limit IH link h self (q :: qs) Hs) as C.
    cbv zeta in C. fold step in C.
    destruct (BSPNode.build limit BSPNode.empty (q :: qs)) as [n|e];
      [|exact C].
    destruct C as (C1 & C2 & C3 & C4 & C5). simpl.
    repeat split; auto. lia.
Qed.

Lemma front_slot (limit : nat) (IH : agree_at limit) (h : Heap.t)
  (self : Heap.addr) (l : list Polygon.t) :
  (self < List.length h)%nat ->
  Heap.front (Heap.get h self) = None ->
  exists h' r,
    match l with
    | [] => (h, Ok tt)
    | _ :: _ =>
        let '(hc, child) := Heap.front_or_new self h in
        Heap.build limit child l hc
    end = (h', r) /\
    match grow limit None l with
    | Ok child =>
        r = Ok tt /\
        (List.length h <= List.length h')%nat /\
        (forall a, (a < List.length h)%nat -> a <> self ->
                   Heap.get h' a = Heap.get h a) /\
        match child with
        | None => Heap.get h' self = Heap.get h self
        | Some n =>
            Heap.get h' self = Heap.set_front (Heap.get h self) (List.length h) /\
            represents (List.length h) h' (List.length h) n
        end
    | Raise e => r = Raise e
    end.
Proof.
  intros Hs Hn.
  pose proof (@slot_step limit IH Heap.set_front h self l Hs) as S.
  cbv zeta in S. unfold Heap.front_or_new. rewrite Hn. cbn [Heap.alloc].
  match type of S with
  | context [fst ?s] => destruct s as [h' r] eqn:E
  end.
  exists h', r. split; [first [reflexivity | destruct l; exact E]|]. exact S.
Qed.

Lemma back_slot (limit : nat) (IH : agree_at limit) (h : Heap.t)
  (self : Heap.addr) (l : list Polygon.t) :
  (self < List.length h)%nat ->
  Heap.back (Heap.get h self) = None ->
  exists h' r,
    match l with
    | [] => (h, Ok tt)
    | _ :: _ =>
        let '(hc, child) := Heap.back_or_new self h in
        Heap.build limit child l hc
    end = (h', r) /\
    match grow limit None l with
    | Ok child =>
        r = Ok tt /\
        (List.length h <= List.length h')%nat /\
        (forall a, (a < List.length h)%nat -> a <> self ->
                   Heap.get h' a = Heap.get h a) /\
        match child with
        | None => Heap.get h' self = Heap.get h self
        | Some n =>
            Heap.get h' self = Heap.set_back (Heap.get h self) (List.length h) /\
            represents (List.length h) h' (List.length h) n
        end
    | Raise e => r = Raise e
    end.
Proof.
  intros Hs Hn.
  pose proof (@slot_step limit IH Heap.set_back h self l Hs) as S.
  cbv zeta in S. unfold Heap.back_or_new. rewrite Hn. cbn [Heap.alloc].
  match type of S with
  | context [fst ?s] => destruct s as [h' r] eqn:E
  end.
  exists h', r. split; [first [reflexivity | destruct l; exact E]|]. exact S.
Qed.

Lemma build_agrees : forall limit, agree_at limit.
Proof.
  induction limit as [|limit IH]; intros self polys h pl ps Hs Hg;
    [reflexivity|].
  destruct polys as [|first rest].
  { simpl. split; [reflexivity|]. rewrite Hg. simpl. auto. }
  rewrite pure_build_step, heap_build_step. cbv zeta.
  set (pl' := match pl with Some p => p | None => Polygon.plane first end).
  set (h1 := match Heap.plane (Heap.get h self) return Heap.t with
             | Some _ => h
             | None => Heap.set h self
                         (Heap.set_plane (Heap.get h self) (Polygon.plane first))
             end).
  assert (G1 : Heap.get h1 self = Heap.mk_node (Some pl') None None ps).
  { unfold h1, pl'. rewrite Hg. simpl. destruct pl as [p|]; [exact Hg|].
    now rewrite get_set_eq by lia. }
  assert (L1 : List.length h1 = List.length h).
  { unfold h1. destruct (Heap.plane _); [|rewrite length_set]; reflexivity. }
  assert (O1 : forall a, a <> self -> Heap.get h1 a = Heap.get h a).
  { intros a Ha. unfold h1. destruct (Heap.plane _); [reflexivity|].
    now apply get_set_neq. }
  clearbody h1. rewrite G1. cbn [Heap.plane].
  destruct (for_each (BSPNode.classify_body pl') (first :: rest)
              (BSPNode.mk_lists [] [] [])) as [ls|e]; [|reflexivity].
  cbn [bind].
  set (own := ps ++ BSPNode.coplanar ls).
  set (h2 := Heap.set h1 self
               (Heap.extend_polygons (Heap.mk_node (Some pl') None None ps)
                  (BSPNode.coplanar ls))).
  assert (G2 : Heap.get h2 self = Heap.mk_node (Some pl') None None own)
    by (unfold h2; now rewrite get_set_eq by lia).
  assert (L2 : List.length h2 = List.length h)
    by (unfold h2; now rewrite length_set).
  assert (O2 : forall a, a <> self -> Heap.get h2 a = Heap.get h a).
  { intros a Ha. unfold h2. rewrite get_set_neq by auto. now apply O1. }
  clearbody h2. clear G1 L1 O1 h1.
  (* the front child *)
  destruct (@front_slot limit IH h2 self (BSPNode.front_list ls))
    as (h3 & r3 & -> & F); [lia | now rewrite G2 |].
  destruct (grow limit None (BSPNode.front_list ls)) as [f|e];
    [|subst r3; reflexivity].
  destruct F as (-> & L3 & O3 & F). cbn [bind].
  assert (B3 : Heap.back (Heap.get h3 self) = None).
  { destruct f as [nf|]; [destruct F as [-> _] | rewrite F];
      rewrite G2; reflexivity. }
  (* the back child *)
  destruct (@back_slot limit IH h3 self (BSPNode.back_list ls))
    as (h4 & r4 & -> & B); [lia | exact B3 |].
  destruct (grow limit None (BSPNode.back_list ls)) as [b|e];
    [|subst r4; reflexivity].
  destruct B as (-> & L4 & O4 & B). cbn [bind fst snd].
  split; [reflexivity|].
  cbn [represents]. split; [lia|].
  assert (K : forall x, (List.length h <= x < List.length h3)%nat ->
                        Heap.get h4 x = Heap.get h3 x)
    by (intros x Hx; apply O4; lia).
  rewrite L2 in *.
  assert (In_store : forall lo hh a n, represents lo hh a n ->
                                      (a < List.length hh)%nat)
    by (intros lo hh a [? ? ? ?] R; apply R).
  destruct f as [nf|]; destruct b as [nb|].
  - destruct F as [F1 F2]. destruct B as [B1 B2].
    pose proof (In_store _ _ _ _ F2) as I2.
    rewrite B1, F1, G2. cbn.
    split; [reflexivity|]. split; [reflexivity|]. split; [split; [lia|]|split; [lia|]].
    + apply (@represents_frame (List.length h) h3 h4);
        [lia | exact K | apply K; lia | exact F2].
    + apply (@represents_lower (List.length h3)); [lia | exact B2].
  - destruct F as [F1 F2]. pose proof (In_store _ _ _ _ F2) as I2.
    rewrite B, F1, G2. cbn.
    split; [reflexivity|]. split; [reflexivity|]. split; [split; [lia|]|exact I].
    apply (@represents_frame (List.length h) h3 h4);
      [lia | exact K | apply K; lia | exact F2].
  - destruct B as [B1 B2]. rewrite B1, F, G2. cbn.
    split; [reflexivity|]. split; [reflexivity|]. split; [exact I|split; [lia|]].
    apply (@represents_lower (List.length h3)); [lia | exact B2].
  - rewrite B, F, G2. cbn. repeat split.
Qed.

(** The traversal of the store reads the polygons in the order of the
    traversal of the tree, when the stack allows its depth. *)
Lemma traverse_agrees (lo : nat) (h : Heap.t) :
  forall n a acc limit,
    represents lo h a n -> (depth_needed n <= limit)%nat ->
    Heap.traverse limit h (Some a) acc = Ok (BSPTree.traverse n acc).
Proof.
  induction n as [pl f b ps IHf IHb] using BSPNode_ind'.
  intros a acc limit (Ha & Hpl & Hps & Hf & Hb) Hd.
  cbn [depth_needed] in Hd.
  destruct limit as [|limit]; [lia|]. apply le_S_n in Hd.
  cbn [Heap.traverse BSPTree.traverse]. cbv zeta. rewrite Hps.
  assert (F : Heap.traverse limit h (Heap.front (Heap.get h a)) (acc ++ ps) =
              Ok match f with
                 | Some n => BSPTree.traverse n (acc ++ ps)
                 | None => acc ++ ps
                 end).
  { destruct f as [nf|]; destruct (Heap.front (Heap.get h a)) as [c|];
      try contradiction.
    - apply (IHf nf eq_refl); [apply Hf | lia].
    - destruct limit; [lia | reflexivity]. }
  rewrite F. cbn [bind].
  destruct b as [nb|]; destruct (Heap.back (Heap.get h a)) as [c|];
    try contradiction.
  - apply (IHb nb eq_refl); [apply Hb | lia].
  - destruct limit; [lia | reflexivity].
Qed.

Lemma represents_empty (lo : nat) (h : Heap.t) (a : Heap.addr) :
  (a < List.length h)%nat -> Heap.get h a = Heap.fresh ->
  represents lo h a BSPNode.empty.
Proof. intros Ha G. cbn. rewrite G. cbn. auto. Qed.

Lemma represents_in_store (lo : nat) (h : Heap.t) (a : Heap.addr)
  (n : BSPNode.t) : represents lo h a n -> (a < List.length h)%nat.
Proof. destruct n. intros R. apply R. Qed.

Lemma represents_preserved (lo : nat) (h h' : Heap.t) (a : Heap.addr)
  (n : BSPNode.t) :
  Heap.preserves h h' -> represents lo h a n -> represents lo h' a n.
Proof.
  intros [L G] R. pose proof (represents_in_store _ _ _ _ R) as Ha.
  apply (@represents_frame lo h h'); auto.
  intros x Hx. apply G. lia.
Qed.

(** [BSPTree(polys)] in the store and in the state-passing model. *)
Lemma tree_init_agrees (limit : nat) (polys : list Polygon.t) (h : Heap.t) :
  match BSPTree.init limit polys with
  | Ok t' =>
      snd (Heap.tree_init limit polys h) = Ok (Heap.mk_tree (List.length h)) /\
      represents (List.length h) (fst (Heap.tree_init limit polys h))
                 (List.length h) (BSPTree.root t')
  | Raise e => snd (Heap.tree_init limit polys h) = Raise e
  end.
Proof.
  unfold BSPTree.init, Heap.tree_init, Heap.node_init. cbn [Heap.alloc].
  rewrite BSPNode_init_eq.
  assert (L : List.length (h ++ [Heap.fresh]) = S (List.length h))
    by (rewrite length_app; simpl; lia).
  destruct polys as [|p ps].
  { cbn [bind fst snd BSPTree.root]. split; [reflexivity|].
    apply represents_empty; [lia | apply get_alloc_new]. }
  pose proof (@build_agrees limit (List.length h) (p :: ps)
                (h ++ [Heap.fresh]) None [] ltac:(lia)
                (get_alloc_new h)) as A.
  change (BSPNode.mk None None None []) with BSPNode.empty in A.
  destruct (Heap.build limit (List.length h) (p :: ps) (h ++ [Heap.fresh]))
    as [h' r].
  cbn [fst snd] in *.
  destruct (BSPNode.build limit BSPNode.empty (p :: ps)) as [n|e];
    cbn [bind BSPTree.root].
  - destruct A as [-> R]. split; [reflexivity|].
    apply (@represents_lower (List.length (h ++ [Heap.fresh]))); [lia|exact R].
  - rewrite A. reflexivity.
Qed.

(** ** The store of node objects and the state-passing model agree *)

(** Construction in the store of node objects does what construction in
    the state-passing model does: [BSPTree(polys)] raises the same
    exception in both, and when the model returns a tree the store holds,
    at a newly allocated root, objects that form exactly that tree, whose
    [all_polygons] is the sequence the model computes (given the stack
    depth the traversal needs). *)
Theorem store_builds_the_tree_of_the_model (limit : nat)
  (polys : list Polygon.t) (h : Heap.t) :
  match BSPTree.init limit polys with
  | Ok t' =>
      snd (Heap.tree_init limit polys h) = Ok (Heap.mk_tree (List.length h)) /\
      represents (List.length h) (fst (Heap.tree_init limit polys h))
                 (List.length h) (BSPTree.root t') /\
      forall depth,
        (depth_needed (BSPTree.root t') <= depth)%nat ->
        Heap.all_polygons depth (fst (Heap.tree_init limit polys h))
                          (Heap.mk_tree (List.length h))
        = Ok (BSPTree.all_polygons t')
  | Raise e => snd (Heap.tree_init limit polys h) = Raise e
  end.
Proof.
  pose proof (tree_init_agrees limit polys h) as A.
  destruct (BSPTree.init limit polys) as [t'|e]; [|exact A].
  destruct A as [A R]. split; [exact A|]. split; [exact R|].
  intros depth Hd. unfold Heap.all_polygons, BSPTree.all_polygons.
  cbn [Heap.root]. exact (@traverse_agrees _ _ _ _ [] depth R Hd).
Qed.

(** The destruction operation in the store of node objects does what it
    does in the state-passing model: on a store that holds the tree [t] at
    the address [a], with the stack depth the traversal of [t] needs, it
    raises the same exception or returns, at a newly allocated root, the
    tree the model returns; in both cases the store still holds [t] at
    [a]. *)
Theorem store_explosion_is_the_explosion_of_the_model (limit lo : nat)
  (t : BSPTree.t) (h : Heap.t) (a : Heap.addr)
  (position : Vec3.t) (radius : float) :
  represents lo h a (BSPTree.root t) ->
  (depth_needed (BSPTree.root t) <= limit)%nat ->
  let s := Heap.apply_explosion limit (Heap.mk_tree a) position radius h in
  represents lo (fst s) a (BSPTree.root t) /\
  match apply_explosion limit t position radius with
  | Ok t' =>
      snd s = Ok (Heap.mk_tree (List.length h)) /\
      represents (List.length h) (fst s) (List.length h) (BSPTree.root t')
  | Raise e => snd s = Raise e
  end.
Proof.
  intros R Hd s. unfold s, Heap.apply_explosion, Heap.all_polygons,
    apply_explosion, BSPTree.all_polygons.
  cbn [Heap.root].
  rewrite (@traverse_agrees _ _ _ _ [] limit R Hd).
  destruct (for_each (explosion_body position radius)
              (BSPTree.traverse (BSPTree.root t) []) []) as [rem|e];
    cbn [bind fst snd]; [|split; [exact R | reflexivity]].
  split.
  - apply (@represents_preserved lo h); [|exact R].
    apply tree_init_frame.
  - apply tree_init_agrees.
Qed.

Lemma store_explosion_is_the_explosion_of_the_model_witness :
  represents 0%nat Sample.cube_store 0%nat (BSPTree.root Scenario.built) /\
  (depth_needed (BSPTree.root Scenario.built) <= 7)%nat /\
  represents 0%nat
    (fst (Heap.apply_explosion 7%nat (Heap.mk_tree 0%nat) Sample.origin 20
            Sample.cube_store))
    0%nat (BSPTree.root Scenario.built).
Proof.
  assert (R : represents 0%nat Sample.cube_store 0%nat (BSPTree.root Scenario.built)).
  { vm_compute. repeat match goal with |- _ /\ _ => split end;
      solve [reflexivity | lia | exact I]. }
  assert (Hd : (depth_needed (BSPTree.root Scenario.built) <= 7)%nat)
    by (vm_compute; lia).
  split; [exact R|]. split; [exact Hd|].
  pose proof (@store_explosion_is_the_explosion_of_the_model
                7%nat 0%nat Scenario.built Sample.cube_store 0%nat
                Sample.origin 20 R Hd) as X.
  cbv zeta in X. destruct X as [X _]. exact X.
Defined.

(** * The rest of the code *)

(** ** [make_cube], [build_city] and [main] *)

Lemma from_vertices_quad (a b c d : Vec3.t) :
  exists pl,
    Polygon.from_vertices [a; b; c; d] = Ok (Polygon.mk [a; b; c; d] pl).
Proof.
  unfold Polygon.from_vertices.
  destruct (from_points_returns a b c) as [pl ->]. exists pl. reflexivity.
Qed.

Lemma cube_faces_eq (center : Vec3.t) (size : float) :
  make_cube center size = Ok (cube_faces center size) /\
  List.length (cube_faces center size) = 6%nat /\
  forallb (fun p => Nat.eqb (List.length (Polygon.vertices p)) 4)
          (cube_faces center size) = true /\
  forallb has_centroid (cube_faces center size) = true.
Proof.
  unfold cube_faces, make_cube. cbv zeta. cbn [comprehension].
  repeat match goal with
         | |- context [Polygon.from_vertices [?a; ?b; ?c; ?d]] =>
             destruct (from_vertices_quad a b c d) as [? ->]; cbn [bind]
         end.
  repeat split.
Qed.

(** [make_cube] never raises: whatever the center and the size are
    (infinities and not-a-number included), it returns six polygons of four
    vertices each, so each of them has a centroid. *)
Theorem make_cube_returns_six_quads (center : Vec3.t) (size : float) :
  exists faces,
    make_cube center size = Ok faces /\
    List.length faces = 6%nat /\
    forallb (fun p => Nat.eqb (List.length (Polygon.vertices p)) 4) faces
    = true /\
    forallb has_centroid faces = true.
Proof.
  exists (cube_faces center size). apply cube_faces_eq.
Qed.

Lemma city_row (spacing size : float) (i : nat) :
  forall js polys,
    for_each
      (fun polys j =>
         let center := Vec3.mk (float_of_nat i * spacing) 0
                               (float_of_nat j * spacing) in
         cube <- make_cube center size ;;
         Ok (polys ++ cube))
      js polys
    = Ok (polys ++
          flat_map (fun j => cube_faces (city_center spacing i j) size) js).
Proof.
  induction js as [|j js IH]; intros polys; simpl.
  - now rewrite app_nil_r.
  - fold (city_center spacing i j).
    rewrite (proj1 (cube_faces_eq (city_center spacing i j) size)).
    cbn [bind]. rewrite IH. now rewrite app_assoc.
Qed.

Lemma city_rows (spacing size : float) (cols : nat) :
  forall rows polys,
    for_each
      (fun polys i =>
         for_each
           (fun polys j =>
              let center := Vec3.mk (float_of_nat i * spacing) 0
                                    (float_of_nat j * spacing) in
              cube <- make_cube center size ;;
              Ok (polys ++ cube))
           (seq 0 cols) polys)
      rows polys
    = Ok (polys ++
          flat_map
            (fun i =>
               flat_map (fun j => cube_faces (city_center spacing i j) size)
                        (seq 0 cols))
            rows).
Proof.
  induction rows as [|i rows IH]; intros polys; simpl.
  - now rewrite app_nil_r.
  - rewrite city_row. cbn [bind]. rewrite IH. now rewrite app_assoc.
Qed.

Lemma build_city_eq (limit rows cols : nat) (spacing size : float) :
  build_city limit rows cols spacing size =
  BSPTree.init limit (city_polygons rows cols spacing size).
Proof.
  unfold build_city, city_polygons. rewrite city_rows. reflexivity.
Qed.

Lemma flat_map_const_length {A B : Type} (f : A -> list B) (k : nat)
  (xs : list A) :
  (forall x, List.length (f x) = k) ->
  List.length (flat_map f xs) = (k * List.length xs)%nat.
Proof.
  intros H. induction xs as [|x xs IH]; simpl; [lia|].
  rewrite length_app, H, IH. lia.
Qed.

Lemma flat_map_forallb {A B : Type} (f : A -> list B) (P : B -> bool)
  (xs : list A) :
  (forall x, forallb P (f x) = true) -> forallb P (flat_map f xs) = true.
Proof.
  intros H. induction xs as [|x xs IH]; simpl; [reflexivity|].
  now rewrite forallb_app, H, IH.
Qed.

Lemma city_polygons_length (rows cols : nat) (spacing size : float) :
  List.length (city_polygons rows cols spacing size) = (6 * rows * cols)%nat.
Proof.
  unfold city_polygons.
  rewrite (@flat_map_const_length _ _ _ (6 * cols)%nat).
  - rewrite length_seq. lia.
  - intros i. rewrite (@flat_map_const_length _ _ _ 6%nat).
    + now rewrite length_seq.
    + intros j. apply cube_faces_eq.
Qed.

Lemma city_polygons_centroid (rows cols : nat) (spacing size : float) :
  forallb has_centroid (city_polygons rows cols spacing size) = true.
Proof.
  unfold city_polygons. apply flat_map_forallb. intros i.
  apply flat_map_forallb. intros j. apply cube_faces_eq.
Qed.

(** [build_city] hands [BSPTree] the faces of [rows * cols] cubes, row after
    row, and ends as that construction ends: with a tree that holds
    exactly [6 * rows * cols] polygons, or with RecursionError; no other
    exception leaves it. *)
Theorem build_city_holds_six_faces_per_cube (limit rows cols : nat)
  (spacing size : float) :
  build_city limit rows cols spacing size
  = BSPTree.init limit (city_polygons rows cols spacing size) /\
  List.length (city_polygons rows cols spacing size) = (6 * rows * cols)%nat /\
  match build_city limit rows cols spacing size with
  | Ok t => List.length (BSPTree.all_polygons t) = (6 * rows * cols)%nat
  | Raise e => e = RecursionError
  end.
Proof.
  split; [apply build_city_eq|]. split; [apply city_polygons_length|].
  rewrite build_city_eq.
  destruct (BSPTree.init limit (city_polygons rows cols spacing size))
    as [t|e] eqn:E.
  - rewrite (Permutation_length (@BSPTree_init_coverage _ _ _ E)).
    apply city_polygons_length.
  - unfold BSPTree.init in E. rewrite BSPNode_init_eq in E.
    destruct (city_polygons rows cols spacing size) as [|p ps] eqn:C;
      [discriminate|].
    destruct (BSPNode.build limit BSPNode.empty (p :: ps)) as [n|e'] eqn:B;
      [discriminate|].
    simpl in E. assert (e' = e) by congruence. subst e'.
    apply (@build_raises limit BSPNode.empty (p :: ps) e); [|exact B].
    rewrite <- C. apply city_polygons_centroid.
Qed.

Lemma build_city_mono (limit limit' rows cols : nat) (spacing size : float)
  (t : BSPTree.t) :
  build_city limit rows cols spacing size = Ok t -> (limit <= limit')%nat ->
  build_city limit' rows cols spacing size = Ok t.
Proof.
  rewrite !build_city_eq. intros H L. exact (@BSPTree_init_mono _ _ _ _ H L).
Qed.

(** [main()] writes "Initial polygons: 54" and "Polygons after explosion:
    48" and returns, on any stack that allows 12 nested calls of [build]:
    the explosion at (20, 0, 20) with radius 12 removes the six faces of
    the middle cube of the 3 x 3 grid and nothing else. *)
Theorem main_prints_54_then_48 (k : nat) :
  Main.main (12 + k) =
  ([(Main.initial_label, 54%nat); (Main.after_label, 48%nat)], Ok tt).
Proof.
  assert (Ec : build_city 12 3 3 20 10 = Ok Main.city)
    by (vm_compute; reflexivity).
  assert (Er : apply_explosion 12 Main.city (Vec3.mk 20 0 20) 12
               = Ok Main.ruins) by (vm_compute; reflexivity).
  unfold Main.main.
  rewrite (@build_city_mono 12 (12 + k) _ _ _ _ _ Ec) by lia.
  rewrite (@apply_explosion_mono 12 (12 + k) _ _ _ _ Er) by lia.
  vm_compute. reflexivity.
Qed.

(** ** Vector arithmetic on binary64 *)

Lemma SF64mul_comm x y : SF64mul x y = SF64mul y x.
Proof.
  destruct x as [sx|sx| |sx mx ex], y as [sy|sy| |sy my ey];
    try reflexivity; unfold SF64mul, SFmul;
    rewrite (xorb_comm sx sy); try reflexivity.
  now rewrite (Pos.mul_comm mx my), (Z.add_comm ex ey).
Qed.

Lemma SF64add_comm x y : SF64add x y = SF64add y x.
Proof.
  destruct x as [sx|sx| |sx mx ex], y as [sy|sy| |sy my ey];
    try reflexivity; unfold SF64add, SFadd.
  - now destruct sx, sy.
  - now destruct sx, sy.
  - cbv zeta. now rewrite (Z.min_comm ex ey), Z.add_comm.
Qed.

Lemma float_mul_comm (x y : float) : x * y = y * x.
Proof. apply Prim2SF_inj. rewrite !mul_spec. apply SF64mul_comm. Qed.

Lemma float_add_comm (x y : float) : x + y = y + x.
Proof. apply Prim2SF_inj. rewrite !add_spec. apply SF64add_comm. Qed.

(** [Vec3.__add__] and [Vec3.dot] do not depend on the order of their
    operands, rounding included. *)
Theorem add_and_dot_are_commutative (a b : Vec3.t) :
  Vec3.add a b = Vec3.add b a /\ Vec3.dot a b = Vec3.dot b a.
Proof.
  unfold Vec3.add, Vec3.dot. split.
  - now rewrite (float_add_comm (Vec3.x a)), (float_add_comm (Vec3.y a)),
      (float_add_comm (Vec3.z a)).
  - now rewrite (float_mul_comm (Vec3.x a)), (float_mul_comm (Vec3.y a)),
      (float_mul_comm (Vec3.z a)).
Qed.

Lemma round_aux_opp s m e l :
  binary_round_aux prec emax (negb s) m e l
  = SFopp (binary_round_aux prec emax s m e l).
Proof.
  unfold binary_round_aux.
  destruct (shr_fexp prec emax m e l) as [mrs' e'].
  destruct (shr_fexp prec emax _ e' loc_Exact) as [mrs'' e''].
  destruct (shr_m mrs''); try reflexivity. now destruct (_ <=? _)%Z.
Qed.

Lemma normalize_opp (m e : Z) :
  m <> 0%Z ->
  binary_normalize prec emax (- m) e false
  = SFopp (binary_normalize prec emax m e false).
Proof.
  intros Hm. destruct m as [|p|p]; [contradiction| |]; simpl Z.opp;
    unfold binary_normalize, binary_round;
    destruct (shl_align _ _ _) as [mz ez].
  - apply (round_aux_opp false).
  - rewrite <- (round_aux_opp true). reflexivity.
Qed.

Lemma SF64sub_swap x y :
  SF64sub y x = SFopp (SF64sub x y) \/
  (SF64sub x y = S754_zero false /\ SF64sub y x = S754_zero false).
Proof.
  destruct x as [sx|sx| |sx mx ex], y as [sy|sy| |sy my ey];
    try (left; reflexivity); unfold SF64sub, SFsub.
  all: try (destruct sx, sy; auto; fail).
  cbv zeta. rewrite (Z.min_comm ey ex).
  set (A := cond_Zopp sx _). set (B := cond_Zopp sy _).
  destruct (Z.eq_dec (A - B) 0) as [E|E].
  - right. rewrite E. replace (B - A)%Z with 0%Z by lia. auto.
  - left. replace (B - A)%Z with (- (A - B))%Z by lia.
    now apply normalize_opp.
Qed.

Lemma SF64mul_opp u : SF64mul (SFopp u) (SFopp u) = SF64mul u u.
Proof.
  destruct u as [s|s| |s m e]; try reflexivity; unfold SF64mul, SFmul; simpl;
    now destruct s.
Qed.

Lemma SFabs_opp u : SFabs (SFopp u) = SFabs u.
Proof. now destruct u. Qed.

Lemma pow2_sub_swap (x y : float) : pow2 (x - y) = pow2 (y - x).
Proof.
  assert (M : (x - y) * (x - y) = (y - x) * (y - x)).
  { apply Prim2SF_inj. rewrite !mul_spec, !sub_spec.
    destruct (SF64sub_swap (Prim2SF x) (Prim2SF y)) as [->|[-> ->]];
      [now rewrite SF64mul_opp | reflexivity]. }
  assert (I : is_infinity (x - y) = is_infinity (y - x)).
  { unfold is_infinity. rewrite !FloatAxioms.eqb_spec, !abs_spec, !sub_spec.
    destruct (SF64sub_swap (Prim2SF x) (Prim2SF y)) as [->|[-> ->]];
      [now rewrite SFabs_opp | reflexivity]. }
  unfold pow2. cbv zeta. now rewrite M, I.
Qed.

(** [distance(a, b)] and [distance(b, a)] are the same: the same float, or
    the same exception. *)
Theorem distance_is_symmetric (a b : Vec3.t) : distance a b = distance b a.
Proof.
  unfold distance.
  now rewrite (pow2_sub_swap (Vec3.x a)), (pow2_sub_swap (Vec3.y a)),
    (pow2_sub_swap (Vec3.z a)).
Qed.

Lemma nonneg_sqrt u : nonneg u -> nonneg (SF64sqrt u).
Proof.
  destruct u as [s|s| |s m e]; simpl; auto; intros ->; simpl; auto.
  unfold SF64sqrt, SFsqrt.
  destruct (SFsqrt_core_binary prec emax (Z.pos m) e) as [[mz ez] lz].
  pose proof (round_aux_sign false mz ez lz) as H.
  destruct (binary_round_aux _ _ _ _ _ _); simpl; auto.
Qed.

Lemma nonneg_dot_self (v : Vec3.t) : nonneg (Prim2SF (Vec3.dot v v)).
Proof.
  unfold Vec3.dot. rewrite !add_spec, !mul_spec.
  repeat apply nonneg_add; apply nonneg_mul_self.
Qed.

(** [Vec3.length], [Vec3.normalize] and [Plane.from_points] never raise:
    the sum of squares handed to [math.sqrt] is never negative, whatever
    the components are (infinities and not-a-number included), and the
    length is never negative. *)
Theorem length_and_plane_derivation_never_raise (v a b c : Vec3.t) :
  (exists l, Vec3.length v = Ok l /\ (l <? 0) = false) /\
  (exists n, Vec3.normalize v = Ok n) /\
  (exists pl, Plane.from_points a b c = Ok pl).
Proof.
  split; [|split].
  - exists (sqrt (Vec3.dot v v)). split; [apply length_returns|].
    apply nonneg_not_neg. rewrite sqrt_spec. apply nonneg_sqrt.
    apply nonneg_dot_self.
  - rewrite normalize_returns. eexists. reflexivity.
  - apply from_points_returns.
Qed.

(** [distance] raises nothing but the OverflowError of a squared
    difference out of range, never the domain error of [math.sqrt]; and a
    distance it returns is never negative. *)
Theorem distance_is_not_negative (a b : Vec3.t) :
  match distance a b with
  | Ok r => (r <? 0) = false
  | Raise e => e = OverflowError
  end.
Proof.
  destruct (distance a b) as [r|e] eqn:E; [|exact (distance_raises _ _ E)].
  unfold distance in E.
  destruct (pow2 (Vec3.x a - Vec3.x b)) as [dx|] eqn:Ex; [|discriminate].
  destruct (pow2 (Vec3.y a - Vec3.y b)) as [dy|] eqn:Ey; [|discriminate].
  destruct (pow2 (Vec3.z a - Vec3.z b)) as [dz|] eqn:Ez; [|discriminate].
  cbn [bind] in E. unfold math_sqrt in E.
  destruct (dx + dy + dz <? 0); [discriminate|].
  apply Ok_inj in E. subst r. apply nonneg_not_neg.
  rewrite sqrt_spec. apply nonneg_sqrt. rewrite !add_spec.
  repeat apply nonneg_add; eapply pow2_nonneg; eassumption.
Qed.

Lemma SF64sub_diag u : is_fin_sf u -> SF64sub u u = S754_zero false.
Proof.
  destruct u as [s|s| |s m e]; simpl; try contradiction; intros _.
  - now destruct s.
  - unfold SF64sub, SFsub. cbv zeta. now rewrite Z.sub_diag.
Qed.

Lemma float_sub_diag (x : float) : finite x = true -> x - x = 0.
Proof.
  intros H. apply finite_fin in H. apply Prim2SF_inj. rewrite sub_spec.
  now rewrite SF64sub_diag.
Qed.

(** The distance from a point with finite coordinates to itself is
    exactly zero. *)
Theorem distance_to_itself_is_zero (a : Vec3.t) :
  finite_vec a = true -> distance a a = Ok 0.
Proof.
  intros H. unfold finite_vec in H.
  apply andb_true_iff in H. destruct H as [H Hz].
  apply andb_true_iff in H. destruct H as [Hx Hy].
  unfold distance. rewrite !float_sub_diag by assumption.
  reflexivity.
Qed.

Lemma distance_to_itself_is_zero_witness :
  finite_vec (Vec3.mk 20 0 20) = true /\
  distance (Vec3.mk 20 0 20) (Vec3.mk 20 0 20) = Ok 0.
Proof.
  assert (H : finite_vec (Vec3.mk 20 0 20) = true) by (vm_compute; reflexivity).
  split; [exact H|]. exact (@distance_to_itself_is_zero (Vec3.mk 20 0 20) H).
Defined.

(** The plane [Polygon.from_vertices] derives passes through the first
    vertex: when the plane's offset [d] is finite, the first vertex
    classifies as exactly zero. *)
Theorem first_vertex_lies_on_the_plane (a : Vec3.t) (rest : list Vec3.t)
  (p : Polygon.t) :
  Polygon.from_vertices (a :: rest) = Ok p ->
  finite (Plane.d (Polygon.plane p)) = true ->
  Plane.classify_point (Polygon.plane p) a = 0.
Proof.
  intros H Hd. destruct rest as [|b [|c rest]]; try discriminate.
  unfold Polygon.from_vertices in H.
  destruct (Plane.from_points a b c) as [pl|e] eqn:E; [|discriminate].
  cbn [bind] in H. apply Ok_inj in H. subst p. cbn [Polygon.plane] in *.
  unfold Plane.from_points in E. cbv zeta in E.
  destruct (Vec3.normalize _) as [n|e]; [|discriminate].
  cbn [bind] in E. apply Ok_inj in E. subst pl.
  unfold Plane.classify_point. cbn [Plane.normal Plane.d] in *.
  now apply float_sub_diag.
Qed.

Lemma first_vertex_lies_on_the_plane_witness :
  Polygon.from_vertices Sample.near_vertices = Ok Sample.near_triangle /\
  finite (Plane.d (Polygon.plane Sample.near_triangle)) = true /\
  Plane.classify_point (Polygon.plane Sample.near_triangle)
    (Vec3.mk 0 0 Sample.third) = 0.
Proof.
  assert (H : Polygon.from_vertices Sample.near_vertices
              = Ok Sample.near_triangle) by (vm_compute; reflexivity).
  assert (Hd : finite (Plane.d (Polygon.plane Sample.near_triangle)) = true)
    by (vm_compute; reflexivity).
  split; [exact H|]. split; [exact Hd|].
  exact (@first_vertex_lies_on_the_plane _ _ _ H Hd).
Defined.

(** ** The shape of a constructed tree *)

Lemma build_anchored (limit : nat) :
  forall polys n,
    BSPNode.build limit BSPNode.empty polys = Ok n -> polys <> [] ->
    anchored n /\ hd_error (BSPNode.polygons n) = hd_error polys /\
    (depth_needed n <= S limit)%nat.
Proof.
  induction limit as [|limit IH]; intros polys n H Hne; [discriminate|].
  destruct polys as [|first rest]; [contradiction|].
  assert (Hs : self_coplanar first = true).
  { destruct (self_coplanar first) eqn:E; [reflexivity|].
    now apply build_first_off_plane in H. }
  rewrite build_fresh in H. cbv zeta in H.
  destruct (forallb has_centroid (first :: rest)); [|discriminate].
  apply bind_Ok in H. destruct H as (f & Hf & H).
  apply bind_Ok in H. destruct H as (b & Hb & H).
  apply Ok_inj in H. subst n.
  cbn [filter] in *. fold (self_coplanar first) in *. rewrite Hs in *.
  cbn [anchored BSPNode.polygons hd_error depth_needed].
  assert (C : forall l c, child_of limit l = Ok c ->
                match c with Some c => anchored c | None => True end /\
                (match c with Some c => depth_needed c | None => 1 end
                 <= S limit)%nat).
  { intros l [c|] Hc; [|split; [exact I | lia]].
    apply child_of_nonempty in Hc. destruct Hc as [Hc Hl].
    destruct (IH l c Hc Hl) as (A & _ & D). auto. }
  destruct (C _ _ Hf) as [Af Df]. destruct (C _ _ Hb) as [Ab Db].
  repeat split; auto. lia.
Qed.

Lemma anchored_count (n : BSPNode.t) :
  anchored n -> (node_count n <= List.length (flatten n))%nat.
Proof.
  induction n as [pl f b ps IHf IHb] using BSPNode_ind'.
  intros (Hp & Hf & Hb). rewrite flatten_mk, !length_app.
  cbn [node_count].
  assert (1 <= List.length ps)%nat by (destruct ps; [contradiction | simpl; lia]).
  assert (match f with Some c => node_count c | None => 0 end
          <= List.length (flatten_opt f))%nat
    by (destruct f as [c|]; [apply (IHf c eq_refl Hf) | simpl; lia]).
  assert (match b with Some c => node_count c | None => 0 end
          <= List.length (flatten_opt b))%nat
    by (destruct b as [c|]; [apply (IHb c eq_refl Hb) | simpl; lia]).
  lia.
Qed.

Lemma depth_count (n : BSPNode.t) : (depth_needed n <= S (node_count n))%nat.
Proof.
  induction n as [pl f b ps IHf IHb] using BSPNode_ind'.
  cbn [depth_needed node_count].
  assert (match f with Some c => depth_needed c | None => 1 end
          <= S (match f with Some c => node_count c | None => 0 end))%nat
    by (destruct f as [c|]; [apply (IHf c eq_refl) | lia]).
  assert (match b with Some c => depth_needed c | None => 1 end
          <= S (match b with Some c => node_count c | None => 0 end))%nat
    by (destruct b as [c|]; [apply (IHb c eq_refl) | lia]).
  lia.
Qed.

(** In a tree that [BSPTree(polys)] returns for a non-empty list, every
    node holds at least one polygon and its plane is the plane of the first
    polygon it holds; the traversal starts with the first polygon of the
    list; there are at most as many nodes as polygons; and the traversal
    nests at most one call deeper than the construction did, and at most
    one deeper than the number of polygons. *)
Theorem constructed_nodes_hold_their_plane_polygon (limit : nat)
  (polys : list Polygon.t) (t : BSPTree.t) :
  BSPTree.init limit polys = Ok t -> polys <> [] ->
  anchored (BSPTree.root t) /\
  hd_error (BSPTree.all_polygons t) = hd_error polys /\
  (node_count (BSPTree.root t) <= List.length polys)%nat /\
  (depth_needed (BSPTree.root t) <= S limit)%nat /\
  (depth_needed (BSPTree.root t) <= S (List.length polys))%nat.
Proof.
  intros H Hne. pose proof (BSPTree_init_coverage _ _ H) as P.
  destruct (BSPTree_init_inv _ _ H) as [[-> _]|[_ B]]; [contradiction|].
  destruct (@build_anchored limit polys (BSPTree.root t) B Hne) as (A & Hh & D).
  pose proof (@anchored_count (BSPTree.root t) A) as C. pose proof (depth_count (BSPTree.root t)).
  unfold BSPTree.all_polygons in *. fold (flatten (BSPTree.root t)) in *.
  rewrite (Permutation_length P) in C.
  repeat split; auto; try lia.
  rewrite <- Hh. destruct (BSPTree.root t) as [pl f b ps].
  rewrite flatten_mk. cbn [BSPNode.polygons].
  destruct A as (Hp & _). destruct ps; [contradiction | reflexivity].
Qed.

Lemma constructed_nodes_hold_their_plane_polygon_witness :
  BSPTree.init 6 Sample.cube = Ok Scenario.built /\
  Sample.cube <> [] /\
  (node_count (BSPTree.root Scenario.built) <= 6)%nat /\
  (depth_needed (BSPTree.root Scenario.built) <= 7)%nat.
Proof.
  assert (H : BSPTree.init 6 Sample.cube = Ok Scenario.built)
    by (vm_compute; reflexivity).
  assert (Hne : Sample.cube <> []) by (vm_compute; discriminate).
  split; [exact H|]. split; [exact Hne|].
  pose proof (@constructed_nodes_hold_their_plane_polygon _ _ _ H Hne) as X.
  destruct X as (_ & _ & N & D & _). split; [exact N | exact D].
Defined.

(** ** Calling [build] on a node that was built before *)

Lemma grow_coverage (limit : nat) (c c' : option BSPNode.t)
  (l : list Polygon.t) :
  grow limit c l = Ok c' -> Permutation (flatten_opt c') (flatten_opt c ++ l).
Proof.
  unfold grow. destruct l as [|q qs]; intros H.
  - apply Ok_inj in H. subst c'. now rewrite app_nil_r.
  - apply bind_Ok in H. destruct H as (n & Hn & H). apply Ok_inj in H.
    subst c'. cbn [flatten_opt]. rewrite <- flatten_or_new.
    exact (@build_coverage limit (BSPNode.or_new c) (q :: qs) n Hn).
Qed.

Lemma or_new_invariant (c : option BSPNode.t) :
  code_invariant_opt c = true -> code_invariant (BSPNode.or_new c) = true.
Proof. destruct c; [auto | reflexivity]. Qed.

Lemma grow_invariant (limit : nat)
  (IH : forall self polys n,
      code_invariant self = true ->
      BSPNode.build limit self polys = Ok n -> code_invariant n = true)
  (c c' : option BSPNode.t) (l : list Polygon.t) :
  code_invariant_opt c = true ->
  grow limit c l = Ok c' -> code_invariant_opt c' = true.
Proof.
  unfold grow. destruct l as [|q qs]; intros Hc H.
  - apply Ok_inj in H. now subst c'.
  - apply bind_Ok in H. destruct H as (n & Hn & H). apply Ok_inj in H.
    subst c'. exact (IH _ _ _ (or_new_invariant _ Hc) Hn).
Qed.

Lemma invariant_no_plane (self : BSPNode.t) :
  code_invariant self = true -> BSPNode.plane self = None ->
  self = BSPNode.empty.
Proof.
  destruct self as [pl f b ps]. simpl. intros H ->. simpl in H.
  destruct ps; destruct f; destruct b; try discriminate. reflexivity.
Qed.

Lemma invariant_parts (pl : Plane.t) (f b : option BSPNode.t)
  (ps : list Polygon.t) :
  code_invariant (BSPNode.mk (Some pl) f b ps) = true ->
  forallb (is_coplanar pl) ps = true /\
  forallb (is_front pl) (flatten_opt f) = true /\
  forallb (is_back pl) (flatten_opt b) = true /\
  code_invariant_opt f = true /\ code_invariant_opt b = true.
Proof.
  unfold code_invariant. rewrite partitioned_mk. intros H.
  repeat (apply andb_true_iff in H; destruct H as [H ?]). auto.
Qed.

Lemma build_keeps_invariant (limit : nat) :
  forall self polys n,
    code_invariant self = true ->
    BSPNode.build limit self polys = Ok n -> code_invariant n = true.
Proof.
  induction limit as [|limit IH]; intros self polys n Hi H; [discriminate|].
  destruct polys as [|first rest].
  { apply Ok_inj in H. now subst n. }
  destruct (BSPNode.plane self) as [pl|] eqn:Hp.
  - rewrite build_step_grow in H. cbv zeta in H. rewrite Hp in H.
    destruct (forallb has_centroid (first :: rest)); [|discriminate].
    apply bind_Ok in H. destruct H as (f' & Hf & H).
    apply bind_Ok in H. destruct H as (b' & Hb & H).
    apply Ok_inj in H. subst n.
    destruct self as [pl0 f b ps]. cbn [BSPNode.plane] in Hp. subst pl0.
    cbn [BSPNode.front BSPNode.back BSPNode.polygons] in *.
    destruct (invariant_parts _ _ _ _ Hi) as (Ho & Hfr & Hbk & Hcf & Hcb).
    pose proof (@grow_invariant limit IH _ _ _ Hcf Hf) as If.
    pose proof (@grow_invariant limit IH _ _ _ Hcb Hb) as Ib.
    unfold code_invariant. rewrite partitioned_mk.
    rewrite forallb_app, Ho, forallb_filter_self.
    rewrite (forallb_perm _ (grow_coverage _ _ _ Hf)), forallb_app, Hfr,
      forallb_filter_self.
    rewrite (forallb_perm _ (grow_coverage _ _ _ Hb)), forallb_app, Hbk,
      forallb_filter_self.
    unfold code_invariant_opt, code_invariant in If, Ib.
    now rewrite If, Ib.
  - rewrite (invariant_no_plane _ Hi Hp) in H.
    exact (@build_invariant (S limit) (first :: rest) n H).
Qed.

Lemma build_keeps_plane (limit : nat) (self n : BSPNode.t)
  (polys : list Polygon.t) (pl : Plane.t) :
  BSPNode.plane self = Some pl ->
  BSPNode.build limit self polys = Ok n ->
  BSPNode.plane n = Some pl /\
  exists more, BSPNode.polygons n = BSPNode.polygons self ++ more.
Proof.
  intros Hp H. destruct limit as [|limit]; [discriminate|].
  destruct polys as [|first rest].
  { apply Ok_inj in H. subst n. split; [exact Hp|]. exists [].
    now rewrite app_nil_r. }
  rewrite build_step_grow in H. cbv zeta in H. rewrite Hp in H.
  destruct (forallb has_centroid (first :: rest)); [|discriminate].
  apply bind_Ok in H. destruct H as (f' & Hf & H).
  apply bind_Ok in H. destruct H as (b' & Hb & H).
  apply Ok_inj in H. subst n. split; [reflexivity|].
  eexists. reflexivity.
Qed.

(** Whenever [build], called on a node that was built before, returns, it
    has inserted the new polygons into the tree that was there: the node
    keeps its plane and the polygons it holds (new ones are appended), the
    tree then holds what it held before together with the new polygons,
    and it is still partitioned by the tests of [build]. (It need not
    return: a new polygon that reaches a fresh child while lying off its
    own plane ends in RecursionError, as in a fresh construction.) *)
Theorem build_again_inserts_into_the_tree (limit : nat) (self n : BSPNode.t)
  (polys : list Polygon.t) (pl : Plane.t) :
  BSPNode.plane self = Some pl ->
  code_invariant self = true ->
  BSPNode.build limit self polys = Ok n ->
  BSPNode.plane n = Some pl /\
  (exists more, BSPNode.polygons n = BSPNode.polygons self ++ more) /\
  Permutation (flatten n) (flatten self ++ polys) /\
  code_invariant n = true.
Proof.
  intros Hp Hi H.
  destruct (@build_keeps_plane limit self n polys pl Hp H) as [P M].
  split; [exact P|]. split; [exact M|]. split.
  - exact (@build_coverage limit self polys n H).
  - exact (@build_keeps_invariant limit self polys n Hi H).
Qed.

Lemma build_again_inserts_into_the_tree_witness :
  BSPNode.plane (BSPTree.root Scenario.built) = Some root_plane /\
  code_invariant (BSPTree.root Scenario.built) = true /\
  BSPNode.build 6 (BSPTree.root Scenario.built) Sample.cube = Ok built_twice /\
  List.length (flatten built_twice) = 12%nat.
Proof.
  assert (Hp : BSPNode.plane (BSPTree.root Scenario.built) = Some root_plane)
    by (vm_compute; reflexivity).
  assert (Hi : code_invariant (BSPTree.root Scenario.built) = true)
    by (vm_compute; reflexivity).
  assert (H : BSPNode.build 6 (BSPTree.root Scenario.built) Sample.cube
              = Ok built_twice) by (vm_compute; reflexivity).
  split; [exact Hp|]. split; [exact Hi|]. split; [exact H|].
  pose proof (@build_again_inserts_into_the_tree _ _ _ _ _ Hp Hi H) as X.
  destruct X as (_ & _ & P & _).
  rewrite (Permutation_length P). vm_compute. reflexivity.
Defined.

(** ** Explosions one after the other, and the edge radii *)

Lemma filter_perm {A : Type} (keep : A -> bool) (xs ys : list A) :
  Permutation xs ys -> Permutation (filter keep xs) (filter keep ys).
Proof.
  intros P. induction P as [|a xs ys P IH|a b xs|xs ys zs P1 IH1 P2 IH2].
  - constructor.
  - simpl. destruct (keep a); [constructor|]; exact IH.
  - simpl. destruct (keep a), (keep b); try reflexivity. constructor.
  - now transitivity (filter keep ys).
Qed.

Lemma filter_swap {A : Type} (f g : A -> bool) (xs : list A) :
  filter f (filter g xs) = filter g (filter f xs).
Proof.
  induction xs as [|a xs IH]; [reflexivity|]. simpl.
  destruct (g a) eqn:G, (f a) eqn:F; simpl; rewrite ?G, ?F, IH; reflexivity.
Qed.

Lemma explosion_polygons (limit : nat) (t t' : BSPTree.t)
  (position : Vec3.t) (radius : float) :
  apply_explosion limit t position radius = Ok t' ->
  Permutation (BSPTree.all_polygons t')
              (filter (kept position radius) (BSPTree.all_polygons t)).
Proof.
  intros H. apply apply_explosion_inv in H. destruct H as [_ H].
  exact (@BSPTree_init_coverage limit _ t' H).
Qed.

(** Two explosions remove the same polygons in either order: when both
    orders return, the two final trees hold the same polygons. *)
Theorem explosions_commute (limit : nat) (t a b a' b' : BSPTree.t)
  (p1 p2 : Vec3.t) (r1 r2 : float) :
  apply_explosion limit t p1 r1 = Ok a ->
  apply_explosion limit a p2 r2 = Ok b ->
  apply_explosion limit t p2 r2 = Ok a' ->
  apply_explosion limit a' p1 r1 = Ok b' ->
  Permutation (BSPTree.all_polygons b) (BSPTree.all_polygons b').
Proof.
  intros Ha Hb Ha' Hb'.
  apply explosion_polygons in Ha, Hb, Ha', Hb'.
  rewrite Hb, Hb'.
  rewrite (filter_perm (kept p2 r2) Ha), (filter_perm (kept p1 r1) Ha').
  now rewrite filter_swap.
Qed.

Lemma explosions_commute_witness :
  apply_explosion 7 Scenario.built corner 8 = Ok (after Scenario.built corner) /\
  Permutation
    (BSPTree.all_polygons (after (after Scenario.built corner) other_corner))
    (BSPTree.all_polygons (after (after Scenario.built other_corner) corner)).
Proof.
  assert (Ha : apply_explosion 7 Scenario.built corner 8
               = Ok (after Scenario.built corner))
    by (vm_compute; reflexivity).
  assert (Hb : apply_explosion 7 (after Scenario.built corner) other_corner 8
               = Ok (after (after Scenario.built corner) other_corner))
    by (vm_compute; reflexivity).
  assert (Ha' : apply_explosion 7 Scenario.built other_corner 8
                = Ok (after Scenario.built other_corner))
    by (vm_compute; reflexivity).
  assert (Hb' : apply_explosion 7 (after Scenario.built other_corner) corner 8
                = Ok (after (after Scenario.built other_corner) corner))
    by (vm_compute; reflexivity).
  split; [exact Ha|].
  exact (@explosions_commute _ _ _ _ _ _ _ _ _ _ Ha Hb Ha' Hb').
Defined.

Lemma nan_not_below (d : float) : (nan <? d) = false.
Proof. rewrite ltb_spec. reflexivity. Qed.

Lemma infinity_not_below (d : float) : (infinity <? d) = false.
Proof.
  rewrite ltb_spec. change (Prim2SF infinity) with (S754_infinity false).
  destruct (Prim2SF d) as [s|s| |s m e]; try reflexivity; now destruct s.
Qed.

Lemma kept_nothing (position : Vec3.t) (radius : float)
  (polys : list Polygon.t) :
  (forall d, (radius <? d) = false) ->
  filter (kept position radius) polys = [].
Proof.
  intros H. induction polys as [|p polys IH]; [reflexivity|]. simpl.
  unfold kept at 1. destruct (centroid_distance position p); [rewrite H|];
    exact IH.
Qed.

Lemma centroid_distance_exn (position : Vec3.t) (p : Polygon.t) (e : exn) :
  centroid_distance position p = Raise e ->
  e = ZeroDivisionError \/ e = OverflowError.
Proof.
  unfold centroid_distance.
  destruct (Polygon.centroid p) as [c|e'] eqn:C; cbn [bind]; intros H.
  - right. exact (distance_raises _ _ H).
  - left. unfold Polygon.centroid in C.
    destruct (Polygon.vertices p); congruence.
Qed.

Lemma build_returns_centroids (limit : nat) (self n : BSPNode.t)
  (polys : list Polygon.t) :
  BSPNode.build limit self polys = Ok n ->
  forallb has_centroid polys = true.
Proof.
  destruct limit as [|limit]; [discriminate|].
  destruct polys as [|first rest]; [reflexivity|].
  rewrite build_step_grow. cbv zeta.
  destruct (forallb has_centroid (first :: rest)); [reflexivity|discriminate].
Qed.

Lemma BSPTree_init_centroids (limit : nat) (polys : list Polygon.t)
  (t : BSPTree.t) :
  BSPTree.init limit polys = Ok t ->
  forallb has_centroid (BSPTree.all_polygons t) = true.
Proof.
  intros H. rewrite (forallb_perm _ (@BSPTree_init_coverage _ _ _ H)).
  destruct (@BSPTree_init_inv _ _ _ H) as [[-> _]|[_ B]]; [reflexivity|].
  exact (@build_returns_centroids _ _ _ _ B).
Qed.

(** For a tree that [BSPTree] returned on the same stack, an explosion
    whose radius is not-a-number or plus infinity removes every polygon:
    the result is the tree with an empty root, whatever the point is,
    unless a distance cannot be computed (OverflowError of a squared
    difference). *)
Theorem unbounded_radius_removes_everything (limit : nat)
  (polys : list Polygon.t) (t : BSPTree.t) (position : Vec3.t)
  (radius : float) :
  radius = nan \/ radius = infinity ->
  BSPTree.init limit polys = Ok t ->
  match apply_explosion limit t position radius with
  | Ok t' => t' = BSPTree.mk BSPNode.empty
  | Raise e => e = OverflowError
  end.
Proof.
  intros Hr Ht.
  assert (N : forall d, (radius <? d) = false).
  { intros d. destruct Hr as [->| ->];
      [apply nan_not_below | apply infinity_not_below]. }
  pose proof (@BSPTree_init_centroids _ _ _ Ht) as Hc.
  unfold apply_explosion.
  destruct (for_each (explosion_body position radius)
              (BSPTree.all_polygons t) []) as [remaining|e] eqn:L.
  - pose proof (@explosion_loop_returns _ _ _ _ _ L) as Hm.
    rewrite (@explosion_loop _ radius _ [] Hm) in L. apply Ok_inj in L.
    rewrite (@kept_nothing _ _ _ N) in L. subst remaining. reflexivity.
  - cbn [bind].
    destruct (@explosion_loop_raises _ _ _ _ _ L) as (p & Hp & Ep).
    rewrite forallb_forall in Hc.
    exact (@centroid_distance_raises _ _ _ (Hc p Hp) Ep).
Qed.

Lemma unbounded_radius_removes_everything_witness :
  (nan = nan \/ nan = infinity) /\
  BSPTree.init 7 Sample.cube = Ok Scenario.built /\
  match apply_explosion 7 Scenario.built Sample.origin nan with
  | Ok t' => t' = BSPTree.mk BSPNode.empty
  | Raise e => e = OverflowError
  end.
Proof.
  assert (Ht : BSPTree.init 7 Sample.cube = Ok Scenario.built)
    by (vm_compute; reflexivity).
  split; [left; reflexivity|]. split; [exact Ht|].
  exact (@unbounded_radius_removes_everything 7 Sample.cube Scenario.built
           Sample.origin nan (or_introl eq_refl) Ht).
Defined.

(** ** A degenerate plane at the root *)

Lemma degenerate_coplanar (pl : Plane.t) (p : Polygon.t) :
  degenerate pl = true -> finite_centroid p = true ->
  is_coplanar pl p = true.
Proof.
  unfold degenerate, finite_centroid, is_coplanar. intros Hd Hp.
  apply andb_true_iff in Hd. destruct Hd as [Hn Hd].
  destruct (Polygon.centroid p) as [c|]; [|discriminate].
  apply eqb_zero in Hd.
  assert (Z : is_zero_sf (Prim2SF (Plane.classify_point pl c))).
  { unfold Plane.classify_point. rewrite sub_spec.
    apply zero_sub; [now apply dot_zero_l | exact Hd]. }
  rewrite leb_spec, abs_spec.
  destruct (Prim2SF (Plane.classify_point pl c)); try contradiction.
  reflexivity.
Qed.

Lemma finite_centroid_has_centroid (p : Polygon.t) :
  finite_centroid p = true -> has_centroid p = true.
Proof.
  unfold finite_centroid. intros H. apply has_centroid_Ok.
  destruct (Polygon.centroid p) as [c|]; [now exists c | discriminate].
Qed.

(** When the first polygon of the list has a degenerate plane (zero
    normal, zero offset), [BSPTree] keeps every polygon at the root, in
    input order, and creates no child: each polygon with a finite centroid
    classifies as zero against that plane. One call of [build] is all it
    takes. *)
Theorem degenerate_first_plane_keeps_all_at_the_root (limit : nat)
  (first : Polygon.t) (rest : list Polygon.t) :
  degenerate (Polygon.plane first) = true ->
  forallb finite_centroid (first :: rest) = true ->
  BSPTree.init (S limit) (first :: rest)
  = Ok (BSPTree.mk (BSPNode.mk (Some (Polygon.plane first)) None None
                               (first :: rest))).
Proof.
  intros Hd Hf. set (polys := first :: rest) in *.
  assert (Hc : forallb (is_coplanar (Polygon.plane first)) polys = true).
  { revert Hf. apply forallb_weaken. intros p. now apply degenerate_coplanar. }
  assert (Hh : forallb has_centroid polys = true).
  { revert Hf. apply forallb_weaken. exact finite_centroid_has_centroid. }
  unfold BSPTree.init. rewrite BSPNode_init_eq. unfold polys at 1.
  fold polys. unfold polys at 1. rewrite build_fresh. cbv zeta. fold polys.
  rewrite Hh.
  rewrite (@filter_none _ (is_front (Polygon.plane first))
             (is_coplanar (Polygon.plane first)) polys
             (@coplanar_not_front (Polygon.plane first)) Hc).
  rewrite (@filter_none _ (is_back (Polygon.plane first))
             (is_coplanar (Polygon.plane first)) polys
             (@coplanar_not_back (Polygon.plane first)) Hc).
  rewrite (filter_all _ _ Hc). reflexivity.
Qed.

Lemma degenerate_first_plane_keeps_all_at_the_root_witness :
  degenerate (Polygon.plane diagonal) = true /\
  forallb finite_centroid diagonal_first = true /\
  BSPTree.init 1 diagonal_first
  = Ok (BSPTree.mk (BSPNode.mk (Some (Polygon.plane diagonal)) None None
                               diagonal_first)).
Proof.
  assert (Hd : degenerate (Polygon.plane diagonal) = true)
    by (vm_compute; reflexivity).
  assert (Hf : forallb finite_centroid diagonal_first = true)
    by (vm_compute; reflexivity).
  split; [exact Hd|]. split; [exact Hf|].
  exact (@degenerate_first_plane_keeps_all_at_the_root 0 diagonal
           Sample.cube Hd Hf).
Defined.

(** ** Explosions that remove nothing *)

Lemma keep_all_measurable (position : Vec3.t) (radius : float)
  (polys : list Polygon.t) :
  forallb (kept position radius) polys = true ->
  forallb (measurable position) polys = true.
Proof. apply forallb_weaken. intros p. apply kept_measurable. Qed.

(** An explosion that reaches no polygon of a constructed tree returns
    that same tree: same nodes, same planes, same polygons in the same
    places. *)
Theorem explosion_that_removes_nothing_returns_the_same_tree (limit : nat)
  (polys : list Polygon.t) (t : BSPTree.t) (position : Vec3.t)
  (radius : float) :
  BSPTree.init limit polys = Ok t ->
  forallb (kept position radius) (BSPTree.all_polygons t) = true ->
  apply_explosion limit t position radius = Ok t.
Proof.
  intros H K.
  rewrite apply_explosion_eq by (exact (keep_all_measurable _ _ _ K)).
  rewrite (filter_all _ _ K).
  exact (@BSPTree_init_flatten limit polys t H).
Qed.

Lemma explosion_that_removes_nothing_returns_the_same_tree_witness :
  BSPTree.init 6 Sample.cube = Ok Scenario.built /\
  forallb (kept Sample.origin 4) (BSPTree.all_polygons Scenario.built) = true /\
  apply_explosion 6 Scenario.built Sample.origin 4 = Ok Scenario.built.
Proof.
  assert (H : BSPTree.init 6 Sample.cube = Ok Scenario.built)
    by (vm_compute; reflexivity).
  assert (K : forallb (kept Sample.origin 4)
                (BSPTree.all_polygons Scenario.built) = true)
    by (vm_compute; reflexivity).
  split; [exact H|]. split; [exact K|].
  exact (@explosion_that_removes_nothing_returns_the_same_tree
           6 Sample.cube Scenario.built Sample.origin 4 H K).
Defined.

Lemma SFeqb_refl_finite (s : bool) (m : positive) (e : Z) :
  SFeqb (S754_finite s m e) (S754_finite s m e) = true.
Proof.
  unfold SFeqb, SFcompare. rewrite Z.compare_refl.
  rewrite Pos.compare_cont_refl. now destruct s.
Qed.

Lemma negative_below (r d : float) :
  (r <? 0) = true -> (d <? 0) = false -> (r <? d) = (d =? d).
Proof.
  rewrite !ltb_spec, FloatAxioms.eqb_spec.
  change (Prim2SF 0) with (S754_zero false).
  destruct (Prim2SF r) as [sr|sr| |sr mr er];
    destruct (Prim2SF d) as [sd|sd| |sd md ed];
    try destruct sr; try destruct sd; simpl; intros Hr Hd;
    try discriminate; try reflexivity.
  all: symmetry; apply SFeqb_refl_finite.
Qed.

Lemma distance_Ok_not_neg (a b : Vec3.t) (r : float) :
  distance a b = Ok r -> (r <? 0) = false.
Proof.
  intros E. unfold distance in E.
  destruct (pow2 (Vec3.x a - Vec3.x b)) as [dx|] eqn:Ex; [|discriminate].
  destruct (pow2 (Vec3.y a - Vec3.y b)) as [dy|] eqn:Ey; [|discriminate].
  destruct (pow2 (Vec3.z a - Vec3.z b)) as [dz|] eqn:Ez; [|discriminate].
  cbn [bind] in E. unfold math_sqrt in E.
  destruct (dx + dy + dz <? 0); [discriminate|].
  apply Ok_inj in E. subst r. apply nonneg_not_neg.
  rewrite sqrt_spec. apply nonneg_sqrt. rewrite !add_spec.
  repeat apply nonneg_add; eapply pow2_nonneg; eassumption.
Qed.

(** With a negative radius an explosion removes nothing from a constructed
    tree whose polygons all have a distance that is a number: it returns
    the same tree. *)
Theorem negative_radius_removes_nothing (limit : nat)
  (polys : list Polygon.t) (t : BSPTree.t) (position : Vec3.t)
  (radius : float) :
  (radius <? 0) = true ->
  BSPTree.init limit polys = Ok t ->
  forallb (numeric_distance position) (BSPTree.all_polygons t) = true ->
  apply_explosion limit t position radius = Ok t.
Proof.
  intros Hr H N.
  assert (K : forallb (kept position radius) (BSPTree.all_polygons t) = true).
  { revert N. apply forallb_weaken. intros p.
    unfold numeric_distance, kept.
    destruct (centroid_distance position p) as [d|] eqn:E; [|discriminate].
    intros Hd. rewrite (@negative_below radius d Hr); [exact Hd|].
    unfold centroid_distance in E.
    destruct (Polygon.centroid p) as [c|]; [|discriminate]. cbn [bind] in E.
    exact (@distance_Ok_not_neg c position d E). }
  rewrite apply_explosion_eq by (exact (keep_all_measurable _ _ _ K)).
  rewrite (filter_all _ _ K).
  exact (@BSPTree_init_flatten limit polys t H).
Qed.

Lemma negative_radius_removes_nothing_witness :
  (-1 <? 0) = true /\
  BSPTree.init 6 Sample.cube = Ok Scenario.built /\
  forallb (numeric_distance (Vec3.mk 5 0 0))
          (BSPTree.all_polygons Scenario.built) = true /\
  apply_explosion 6 Scenario.built (Vec3.mk 5 0 0) (-1) = Ok Scenario.built.
Proof.
  assert (Hr : (-1 <? 0) = true) by reflexivity.
  assert (H : BSPTree.init 6 Sample.cube = Ok Scenario.built)
    by (vm_compute; reflexivity).
  assert (N : forallb (numeric_distance (Vec3.mk 5 0 0))
                (BSPTree.all_polygons Scenario.built) = true)
    by (vm_compute; reflexivity).
  split; [exact Hr|]. split; [exact H|]. split; [exact N|].
  exact (@negative_radius_removes_nothing 6 Sample.cube Scenario.built
           (Vec3.mk 5 0 0) (-1) Hr H N).
Defined.

(** ** A repeated vertex *)

Lemma sub_self_zero (a : Vec3.t) :
  finite_vec a = true -> Vec3.sub a a = Vec3.mk 0 0 0.
Proof.
  unfold finite_vec. intros H.
  apply andb_true_iff in H. destruct H as [H Hz].
  apply andb_true_iff in H. destruct H as [Hx Hy].
  unfold Vec3.sub. now rewrite !float_sub_diag.
Qed.

Lemma zero_vec_of_components (v : Vec3.t) :
  is_zero_sf (Prim2SF (Vec3.x v)) -> is_zero_sf (Prim2SF (Vec3.y v)) ->
  is_zero_sf (Prim2SF (Vec3.z v)) -> zero_vec v = true.
Proof.
  intros X Y Z. unfold zero_vec. apply eqb_zero in X, Y, Z.
  now rewrite X, Y, Z.
Qed.

Lemma zero_mul_r x y : is_fin_sf x -> is_zero_sf y -> is_zero_sf (SF64mul x y).
Proof. rewrite SF64mul_comm. intros Hx Hy. now apply zero_mul. Qed.

Lemma cross_zero_l (u v : Vec3.t) :
  zero_vec u = true -> finite_vec v = true -> zero_vec (Vec3.cross u v) = true.
Proof.
  intros Hu Hv.
  destruct (zero_vec_components _ Hu) as (Ux & Uy & Uz).
  destruct (finite_vec_components _ Hv) as (Vx & Vy & Vz).
  apply zero_vec_of_components; unfold Vec3.cross; cbn [Vec3.x Vec3.y Vec3.z];
    rewrite sub_spec, !mul_spec; apply zero_sub; now apply zero_mul.
Qed.

Lemma cross_zero_r (u v : Vec3.t) :
  finite_vec u = true -> zero_vec v = true -> zero_vec (Vec3.cross u v) = true.
Proof.
  intros Hu Hv.
  destruct (finite_vec_components _ Hu) as (Ux & Uy & Uz).
  destruct (zero_vec_components _ Hv) as (Vx & Vy & Vz).
  apply zero_vec_of_components; unfold Vec3.cross; cbn [Vec3.x Vec3.y Vec3.z];
    rewrite sub_spec, !mul_spec; apply zero_sub; now apply zero_mul_r.
Qed.

Lemma zero_cross_degenerate (a b c : Vec3.t) :
  zero_vec (Vec3.cross (Vec3.sub b a) (Vec3.sub c a)) = true ->
  finite_vec a = true ->
  exists pl, Plane.from_points a b c = Ok pl /\ degenerate pl = true.
Proof.
  intros Hz Ha. unfold Plane.from_points. cbv zeta.
  rewrite (normalize_zero _ Hz). cbn [bind]. eexists. split; [reflexivity|].
  unfold degenerate. cbn [Plane.normal Plane.d].
  apply andb_true_iff. split; [reflexivity|].
  apply eqb_zero. now apply dot_zero_l.
Qed.

(** When the second or the third point repeats the first, the plane
    [Plane.from_points] derives is the degenerate one (zero normal, zero
    offset), provided the coordinates and the one edge difference are
    finite. *)
Theorem repeated_point_gives_degenerate_plane (a p : Vec3.t) :
  finite_vec a = true -> finite_vec (Vec3.sub p a) = true ->
  (exists pl, Plane.from_points a a p = Ok pl /\ degenerate pl = true) /\
  (exists pl, Plane.from_points a p a = Ok pl /\ degenerate pl = true).
Proof.
  intros Ha Hp. split; apply zero_cross_degenerate; try exact Ha;
    rewrite (sub_self_zero _ Ha).
  - now apply cross_zero_l.
  - now apply cross_zero_r.
Qed.

Lemma repeated_point_gives_degenerate_plane_witness :
  finite_vec Sample.diag_b = true /\
  finite_vec (Vec3.sub Sample.diag_c Sample.diag_b) = true /\
  exists pl,
    Plane.from_points Sample.diag_b Sample.diag_b Sample.diag_c = Ok pl /\
    degenerate pl = true.
Proof.
  assert (Ha : finite_vec Sample.diag_b = true) by (vm_compute; reflexivity).
  assert (Hp : finite_vec (Vec3.sub Sample.diag_c Sample.diag_b) = true)
    by (vm_compute; reflexivity).
  split; [exact Ha|]. split; [exact Hp|].
  pose proof (@repeated_point_gives_degenerate_plane
                Sample.diag_b Sample.diag_c Ha Hp) as X.
  destruct X as [X _]. exact X.
Defined.

(** ** Collinear points and the degenerate plane (C6) *)

Lemma add_fin x y : is_fin_sf (SF64add x y) -> is_fin_sf x /\ is_fin_sf y.
Proof.
  destruct x as [sx|sx| |sx mx ex], y as [sy|sy| |sy my ey]; simpl; auto;
    try destruct sx; try destruct sy; simpl; auto; try contradiction.
Qed.






















(** ** Rounding in binary64

    Bounds on what the operations of [SpecFloat] return, stated on the
    rational numbers that mantissa and exponent pairs denote: a result is
    not below a power of two that the exact value reaches, and not above a
    binary64 number that the exact value does not exceed. They give the
    magnitude of the components that [normalize] returns and of the
    coordinates of a centroid. *)

Section Rounding.

Local Open Scope Q_scope.

Lemma digits2_pos_bounds (p : positive) :
  (2 ^ (Zpos (digits2_pos p) - 1) <= Zpos p < 2 ^ Zpos (digits2_pos p))%Z.
Proof.
  induction p as [p IH|p IH|]; cbn [digits2_pos].
  - rewrite Pos2Z.inj_succ.
    replace (Z.succ (Zpos (digits2_pos p)) - 1)%Z with (Z.succ (Zpos (digits2_pos p) - 1))%Z by lia.
    rewrite !Z.pow_succ_r by lia. lia.
  - rewrite Pos2Z.inj_succ.
    replace (Z.succ (Zpos (digits2_pos p)) - 1)%Z with (Z.succ (Zpos (digits2_pos p) - 1))%Z by lia.
    rewrite !Z.pow_succ_r by lia. lia.
  - simpl. lia.
Qed.

Lemma iter_pos_nat {A : Type} (f : A -> A) (p : positive) (x : A) :
  SpecFloat.iter_pos f p x = Nat.iter (Pos.to_nat p) f x.
Proof.
  revert x. induction p as [p IH|p IH|]; intros x; cbn [SpecFloat.iter_pos].
  - rewrite !IH. rewrite Pos2Nat.inj_xI.
    replace (S (2 * Pos.to_nat p)) with (Pos.to_nat p + (Pos.to_nat p + 1))%nat by lia.
    rewrite !Nat.iter_add. reflexivity.
  - rewrite !IH. rewrite Pos2Nat.inj_xO.
    replace (2 * Pos.to_nat p)%nat with (Pos.to_nat p + Pos.to_nat p)%nat by lia.
    rewrite Nat.iter_add. reflexivity.
  - reflexivity.
Qed.

Lemma shr_1_m (r : shr_record) :
  (0 <= shr_m r)%Z -> shr_m (shr_1 r) = (shr_m r / 2)%Z.
Proof.
  destruct r as [m b s]. cbn [shr_m]. intros H.
  destruct m as [|p|p]; [reflexivity| |lia].
  destruct p as [p|p|]; cbn [shr_1 shr_m].
  - rewrite Pos2Z.inj_xI. apply Z.div_unique with 1%Z; lia.
  - rewrite Pos2Z.inj_xO. apply Z.div_unique with 0%Z; lia.
  - reflexivity.
Qed.

Lemma shr_1_flags (r : shr_record) :
  (0 <= shr_m r)%Z ->
  shr_r (shr_1 r) || shr_s (shr_1 r) = true ->
  (2 * shr_m (shr_1 r) < shr_m r)%Z \/ shr_r r || shr_s r = true.
Proof.
  destruct r as [m b s]. cbn [shr_m shr_r shr_s]. intros H.
  destruct m as [|p|p]; [|destruct p as [p|p|]|lia]; cbn [shr_1 shr_m shr_r shr_s];
    intros F; try (left; lia); right; exact F.
Qed.

(** [n] steps of [shr_1] divide the mantissa by [2 ^ n]; any sticky or
    round bit set means that something was lost. *)
Lemma shr_iter (n : nat) (r : shr_record) :
  (0 <= shr_m r)%Z ->
  shr_m (Nat.iter n shr_1 r) = (shr_m r / 2 ^ Z.of_nat n)%Z /\
  (shr_r (Nat.iter n shr_1 r) || shr_s (Nat.iter n shr_1 r) = true ->
   (shr_m (Nat.iter n shr_1 r) * 2 ^ Z.of_nat n < shr_m r)%Z \/
   shr_r r || shr_s r = true).
Proof.
  intros H. induction n as [|n IH].
  - simpl. rewrite Z.div_1_r. split; [reflexivity|]. intros F. now right.
  - rewrite Nat.iter_succ. destruct IH as [IHm IHf].
    set (q := Nat.iter n shr_1 r) in *.
    assert (P : (0 < 2 ^ Z.of_nat n)%Z) by (apply Z.pow_pos_nonneg; lia).
    assert (Hq : (0 <= shr_m q)%Z).
    { rewrite IHm. apply Z.div_pos; [exact H | exact P]. }
    rewrite (@shr_1_m q Hq).
    rewrite Nat2Z.inj_succ, Z.pow_succ_r by lia.
    pose proof (Z.mul_div_le (shr_m r) (2 ^ Z.of_nat n) P) as D.
    rewrite <- IHm in D.
    pose proof (Z.mul_div_le (shr_m q) 2 ltac:(lia)) as D2.
    split.
    + rewrite IHm, Z.div_div by lia. f_equal. lia.
    + intros F. destruct (@shr_1_flags q Hq F) as [L|L].
      * left. rewrite (@shr_1_m q Hq) in L. nia.
      * destruct (IHf L) as [L'|L']; [left; nia | now right].
Qed.

Lemma shr_spec (r : shr_record) (e n : Z) :
  (0 <= shr_m r)%Z ->
  snd (shr r e n) = (e + Z.max n 0)%Z /\
  shr_m (fst (shr r e n)) = (shr_m r / 2 ^ Z.max n 0)%Z /\
  (flags (fst (shr r e n)) = true ->
   (shr_m (fst (shr r e n)) * 2 ^ Z.max n 0 < shr_m r)%Z \/ flags r = true).
Proof.
  intros H. destruct n as [|p|p]; cbn [shr fst snd].
  - rewrite Z.max_id. simpl. rewrite Z.div_1_r, Z.add_0_r.
    split; [reflexivity|]. split; [reflexivity|]. now right.
  - rewrite Z.max_l by lia. rewrite @iter_pos_nat.
    destruct (@shr_iter (Pos.to_nat p) r H) as [A B].
    rewrite positive_nat_Z in A, B. split; [reflexivity|]. split; [exact A|].
    exact B.
  - rewrite Z.max_r by lia. simpl. rewrite Z.div_1_r, Z.add_0_r.
    split; [reflexivity|]. split; [reflexivity|]. now right.
Qed.

Lemma flags_of_loc (m : Z) (l : location) :
  shr_m (shr_record_of_loc m l) = m /\
  (flags (shr_record_of_loc m l) = true -> l <> loc_Exact).
Proof.
  destruct l as [|[| |]]; cbn; split; try reflexivity; intros H;
    try discriminate; intros C; discriminate.
Qed.

Lemma round_nearest_even_cases (r : shr_record) :
  round_nearest_even (shr_m r) (loc_of_shr_record r) = shr_m r \/
  (round_nearest_even (shr_m r) (loc_of_shr_record r) = (shr_m r + 1)%Z /\
   flags r = true).
Proof.
  destruct r as [m [|] [|]]; cbn; auto.
  destruct (Z.even m); auto.
Qed.

Lemma Zdigits2_bounds (m : Z) :
  (0 < m)%Z -> (2 ^ (Zdigits2 m - 1) <= m < 2 ^ Zdigits2 m)%Z.
Proof.
  destruct m as [|p|p]; try lia. intros _. apply @digits2_pos_bounds.
Qed.

Lemma Zdigits2_pos (m : Z) : (0 < m)%Z -> (0 < Zdigits2 m)%Z.
Proof. destruct m; simpl; lia. Qed.

Lemma Zdigits2_le (m : Z) (d : Z) :
  (0 < m)%Z -> (m < 2 ^ d)%Z -> (Zdigits2 m <= d)%Z.
Proof.
  intros Hm Hd. destruct (@Zdigits2_bounds m Hm) as [L _].
  destruct (Z_lt_le_dec d (Zdigits2 m)) as [C|C]; [|exact C].
  exfalso. assert (0 <= d)%Z.
  { destruct (Z_lt_le_dec d 0) as [N|N]; [|exact N].
    rewrite Z.pow_neg_r in Hd by exact N. lia. }
  assert (2 ^ d <= 2 ^ (Zdigits2 m - 1))%Z by (apply Z.pow_le_mono_r; lia).
  lia.
Qed.

Lemma Zdigits2_ge (m : Z) (d : Z) :
  (0 < m)%Z -> (2 ^ d <= m)%Z -> (0 <= d)%Z -> (d + 1 <= Zdigits2 m)%Z.
Proof.
  intros Hm Hd H0. destruct (@Zdigits2_bounds m Hm) as [_ U].
  destruct (Z_lt_le_dec (Zdigits2 m) (d + 1)) as [C|C]; [|exact C].
  exfalso. pose proof (@Zdigits2_pos m Hm).
  assert (2 ^ Zdigits2 m <= 2 ^ d)%Z by (apply Z.pow_le_mono_r; lia).
  lia.
Qed.

Lemma fexp_eq (k : Z) : fexp prec emax k = fexp64 k.
Proof. reflexivity. Qed.

(** The shape of what [binary_round_aux] returns: the mantissa is cut at
    the exponent [E1], rounded up by at most one, and renormalised when
    the rounding carries into the next binade. *)
Lemma round_aux_shape (s : bool) (m e : Z) (l : location) :
  (0 <= m)%Z ->
  let E1 := Z.max e (fexp64 (Zdigits2 m + e)) in
  let M1 := (m / 2 ^ (E1 - e))%Z in
  exists M2,
    (M2 = M1 \/
     (M2 = (M1 + 1)%Z /\
      ((M1 * 2 ^ (E1 - e) < m)%Z \/ l <> loc_Exact))) /\
    (M1 < 2 ^ 53)%Z /\ (-1074 <= E1)%Z /\
    binary_round_aux prec emax s m e l =
      if (M2 =? 0)%Z then S754_zero s
      else if (M2 <? 2 ^ 53)%Z then
             (if (E1 <=? 971)%Z then S754_finite s (Z.to_pos M2) E1
              else S754_infinity s)
           else (if (E1 + 1 <=? 971)%Z
                 then S754_finite s (Z.to_pos (2 ^ 52)) (E1 + 1)
                 else S754_infinity s).
Proof.
  intros Hm E1 M1.
  assert (Du : (m < 2 ^ Zdigits2 m)%Z).
  { destruct (Z.eq_dec m 0) as [->|N]; [reflexivity|].
    apply @Zdigits2_bounds; lia. }
  assert (Dp : (0 <= Zdigits2 m)%Z) by (destruct m; simpl; lia).
  set (d := Zdigits2 m) in *.
  assert (HE1 : (E1 - e = Z.max (fexp64 (d + e) - e) 0)%Z) by (unfold E1; lia).
  assert (Hk : (0 <= E1 - e)%Z) by lia.
  assert (Hk2 : (d - 53 <= E1 - e)%Z) by (unfold E1, fexp64; lia).
  assert (P : (0 < 2 ^ (E1 - e))%Z) by (apply Z.pow_pos_nonneg; lia).
  assert (HM1 : (0 <= M1)%Z) by (apply Z.div_pos; lia).
  assert (HM1u : (M1 < 2 ^ 53)%Z).
  { apply Z.div_lt_upper_bound; [exact P|].
    rewrite <- Z.pow_add_r by lia.
    apply Z.lt_le_trans with (2 ^ d)%Z; [exact Du|].
    apply Z.pow_le_mono_r; lia. }
  assert (HE1m : (-1074 <= E1)%Z) by (unfold E1, fexp64; lia).
  unfold binary_round_aux, shr_fexp. rewrite !fexp_eq. fold d.
  destruct (@flags_of_loc m l) as [R0m R0f].
  destruct (@shr_spec (shr_record_of_loc m l) e (fexp64 (d + e) - e)) as (A1 & A2 & A3);
    [rewrite R0m; lia|].
  destruct (shr (shr_record_of_loc m l) e (fexp64 (d + e) - e)) as [mrs' e'].
  cbn [fst snd] in A1, A2, A3. rewrite R0m, <- HE1 in A2, A3.
  rewrite <- HE1 in A1. replace (e + (E1 - e))%Z with E1 in A1 by lia.
  fold M1 in A2. subst e'. rewrite A2 in A3. rewrite ?fexp_eq.
  set (M2 := round_nearest_even (shr_m mrs') (loc_of_shr_record mrs')).
  assert (C : M2 = M1 \/ (M2 = (M1 + 1)%Z /\ flags mrs' = true)).
  { unfold M2. rewrite <- A2. apply @round_nearest_even_cases. }
  exists M2. split.
  { destruct C as [C|[C F]]; [now left|]. right. split; [exact C|].
    destruct (A3 F) as [L|L]; [now left | right; now apply R0f]. }
  split; [exact HM1u|]. split; [exact HE1m|].
  assert (HM2 : (0 <= M2 <= 2 ^ 53)%Z) by (destruct C as [C|[C _]]; lia).
  destruct (@flags_of_loc M2 loc_Exact) as [R2m _].
  destruct (@shr_spec (shr_record_of_loc M2 loc_Exact) E1
              (fexp64 (Zdigits2 M2 + E1) - E1)) as (B1 & B2 & _);
    [rewrite R2m; lia|].
  destruct (shr (shr_record_of_loc M2 loc_Exact) E1
              (fexp64 (Zdigits2 M2 + E1) - E1)) as [mrs'' e''].
  cbn [fst snd] in B1, B2. rewrite R2m in B2. subst e''. rewrite B2.
  destruct (Z.eqb_spec M2 0) as [Z0|Z0].
  - rewrite Z0. simpl Zdigits2.
    replace (Z.max (fexp64 (0 + E1) - E1) 0) with 0%Z by (unfold fexp64; lia).
    reflexivity.
  - destruct (Z.ltb_spec M2 (2 ^ 53)) as [Lt|Ge].
    + assert (D2 : (Zdigits2 M2 <= 53)%Z) by (apply @Zdigits2_le; lia).
      replace (Z.max (fexp64 (Zdigits2 M2 + E1) - E1) 0) with 0%Z
        by (unfold fexp64; lia).
      rewrite Z.div_1_r, Z.add_0_r.
      destruct M2 as [|p|p]; try lia. reflexivity.
    + assert (M2 = 2 ^ 53)%Z by lia. subst M2. rewrite H.
      change (Zdigits2 (2 ^ 53)) with 54%Z.
      replace (Z.max (fexp64 (54 + E1) - E1) 0) with 1%Z
        by (unfold fexp64; lia).
      reflexivity.
Qed.

Lemma Qpow2_pos (e : Z) : 0 < 2 ^ e.
Proof. apply Qpower_0_lt. reflexivity. Qed.

Lemma Qpow2_Z (k : Z) : (0 <= k)%Z -> inject_Z (2 ^ k) == 2 ^ k.
Proof. intros H. now rewrite Zpower_Qpower. Qed.

Lemma Qv_align (m e c : Z) :
  (c <= e)%Z -> Qv m e == Qv (m * 2 ^ (e - c)) c.
Proof.
  intros H. unfold Qv. rewrite inject_Z_mult, @Qpow2_Z by lia.
  replace e with ((e - c) + c)%Z at 1 by lia.
  rewrite Qpower_plus by discriminate. ring.
Qed.

Lemma Qv_le_same (a b e : Z) : Qv a e <= Qv b e <-> (a <= b)%Z.
Proof.
  unfold Qv. pose proof (@Qpow2_pos e) as P. rewrite Zle_Qle. split; intros H.
  - apply Qmult_le_r with (2 ^ e); assumption.
  - apply Qmult_le_r; assumption.
Qed.

Lemma Qv_lt_same (a b e : Z) : Qv a e < Qv b e <-> (a < b)%Z.
Proof.
  unfold Qv. pose proof (@Qpow2_pos e) as P. rewrite Zlt_Qlt. split; intros H.
  - apply Qmult_lt_r with (2 ^ e); assumption.
  - apply Qmult_lt_r; assumption.
Qed.

(** Comparisons of values are comparisons of integers at a common
    exponent. *)
Lemma Qv_le_Z (a ea b eb c : Z) :
  (c <= ea)%Z -> (c <= eb)%Z ->
  (Qv a ea <= Qv b eb <-> (a * 2 ^ (ea - c) <= b * 2 ^ (eb - c))%Z).
Proof.
  intros Ha Hb. rewrite (@Qv_align a ea c Ha), (@Qv_align b eb c Hb).
  apply @Qv_le_same.
Qed.

Lemma Qv_lt_Z (a ea b eb c : Z) :
  (c <= ea)%Z -> (c <= eb)%Z ->
  (Qv a ea < Qv b eb <-> (a * 2 ^ (ea - c) < b * 2 ^ (eb - c))%Z).
Proof.
  intros Ha Hb. rewrite (@Qv_align a ea c Ha), (@Qv_align b eb c Hb).
  apply @Qv_lt_same.
Qed.

Lemma Qv_pos (m e : Z) : (0 < m)%Z -> 0 < Qv m e.
Proof.
  intros H. unfold Qv. apply Qmult_lt_0_compat; [|apply @Qpow2_pos].
  change 0 with (inject_Z 0). now rewrite <- Zlt_Qlt.
Qed.

Lemma Qv_zero (e : Z) : Qv 0 e == 0.
Proof. unfold Qv. ring. Qed.

Lemma Qv_succ_exp (m e : Z) : Qv m (e + 1) == Qv (2 * m) e.
Proof.
  rewrite (@Qv_align m (e + 1) e) by lia.
  replace (e + 1 - e)%Z with 1%Z by lia. now rewrite Z.mul_comm.
Qed.

Lemma pow2_ge_1 (k : Z) : (0 <= k)%Z -> (1 <= 2 ^ k)%Z.
Proof. intros H. change 1%Z with (2 ^ 0)%Z. apply Z.pow_le_mono_r; lia. Qed.

(** Rounding does not go below a power of two that the exact value
    reaches. *)
Lemma round_aux_lower (s : bool) (m e : Z) (l : location) (j : Z) :
  (0 < m)%Z -> (-1074 <= j)%Z -> Qv 1 j <= Qv m e ->
  binary_round_aux prec emax s m e l = S754_infinity s \/
  exists m' e',
    binary_round_aux prec emax s m e l = S754_finite s m' e' /\
    Qv 1 j <= Qv (Zpos m') e'.
Proof.
  intros Hm Hj H.
  assert (Hm0 : (0 <= m)%Z) by lia.
  pose proof (@round_aux_shape s m e l Hm0) as X. cbv zeta in X.
  pose proof (@Zdigits2_bounds m Hm) as [Dl Du].
  pose proof (@Zdigits2_pos m Hm) as Dp.
  set (d := Zdigits2 m) in *.
  set (E1 := Z.max e (fexp64 (d + e))) in *.
  set (M1 := (m / 2 ^ (E1 - e))%Z) in *.
  destruct X as (M2 & C & HM1 & HE1 & R).
  assert (K : (0 <= E1 - e)%Z) by (unfold E1; lia).
  assert (P : (0 < 2 ^ (E1 - e))%Z) by (apply Z.pow_pos_nonneg; lia).
  assert (L : Qv 1 j <= Qv M1 E1 /\ (1 <= M1)%Z).
  { destruct (Z_le_gt_dec E1 j) as [A|A].
    - assert (B : (2 ^ (j - E1) <= M1)%Z).
      { apply (@Qv_le_Z 1 j m e e) in H; [|lia|lia].
        rewrite Z.sub_diag, Z.mul_1_l, Z.pow_0_r, Z.mul_1_r in H.
        unfold M1. apply Z.div_le_lower_bound; [exact P|].
        rewrite <- Z.pow_add_r by lia.
        replace (E1 - e + (j - E1))%Z with (j - e)%Z by lia. exact H. }
      split.
      + apply (@Qv_le_Z 1 j M1 E1 E1); [lia|lia|].
        rewrite Z.sub_diag, Z.mul_1_l, Z.pow_0_r, Z.mul_1_r. exact B.
      + pose proof (@pow2_ge_1 (j - E1)). lia.
    - assert (B : (1 <= M1)%Z).
      { unfold M1. apply Z.div_le_lower_bound; [exact P|].
        rewrite Z.mul_1_r. apply Z.le_trans with (2 ^ (d - 1))%Z; [|exact Dl].
        apply Z.pow_le_mono_r; [lia|]. unfold E1, fexp64 in *. lia. }
      split; [|exact B].
      apply (@Qv_le_Z 1 j M1 E1 j); [lia|lia|].
      rewrite Z.sub_diag, Z.mul_1_l, Z.pow_0_r.
      pose proof (@pow2_ge_1 (E1 - j)). nia. }
  destruct L as [L L1].
  assert (L2 : Qv 1 j <= Qv M2 E1).
  { apply Qle_trans with (Qv M1 E1); [exact L|]. apply @Qv_le_same.
    destruct C as [->|[-> _]]; lia. }
  assert (M2p : (0 < M2)%Z) by (destruct C as [->|[-> _]]; lia).
  rewrite R. destruct (Z.eqb_spec M2 0) as [Z0|Z0]; [lia|].
  destruct (Z.ltb_spec M2 (2 ^ 53)) as [Lt|Ge].
  - destruct (E1 <=? 971)%Z; [|now left]. right.
    exists (Z.to_pos M2), E1. split; [reflexivity|].
    rewrite Z2Pos.id by exact M2p. exact L2.
  - destruct (E1 + 1 <=? 971)%Z; [|now left]. right.
    exists (Z.to_pos (2 ^ 52)), (E1 + 1)%Z. split; [reflexivity|].
    rewrite Z2Pos.id by reflexivity. rewrite @Qv_succ_exp.
    assert (M2 = 2 ^ 53)%Z by (destruct C as [C|[C _]]; lia).
    subst M2. exact L2.
Qed.

Lemma canon_bounds (m : positive) (e : Z) :
  canon m e -> (Zpos m < 2 ^ 53)%Z /\ (-1074 <= e <= 971)%Z /\
               (Zdigits2 (Zpos m) <= 53)%Z.
Proof.
  intros [C1 C2]. pose proof (@Zdigits2_bounds (Zpos m) eq_refl) as [_ U].
  assert (D : (Zdigits2 (Zpos m) <= 53)%Z) by (unfold fexp64 in C1; lia).
  split; [|split; [unfold fexp64 in C1; lia | exact D]].
  apply Z.lt_le_trans with (1 := U). apply Z.pow_le_mono_r; lia.
Qed.

(** Rounding does not go above a binary64 number that the exact value
    does not exceed. *)
Lemma round_aux_upper (s : bool) (m e : Z) (l : location) (mb : positive) (eb : Z) :
  (0 <= m)%Z -> canon mb eb ->
  (e <= 970 \/ e <= fexp64 (Zdigits2 m + e))%Z ->
  Qv m e <= Qv (Zpos mb) eb ->
  (l = loc_Exact \/
   ((e <= fexp64 (Zdigits2 m + e))%Z /\ Qv m e < Qv (Zpos mb) eb)) ->
  binary_round_aux prec emax s m e l = S754_zero s \/
  exists m' e',
    binary_round_aux prec emax s m e l = S754_finite s m' e' /\
    Qv (Zpos m') e' <= Qv (Zpos mb) eb.
Proof.
  intros Hm HB He Hle Hl.
  pose proof (@round_aux_shape s m e l Hm) as X. cbv zeta in X.
  destruct (@canon_bounds mb eb HB) as (Bm & Be & Bd).
  assert (Dm : (0 < m -> 2 ^ (Zdigits2 m - 1) <= m)%Z)
    by (intros P; apply @Zdigits2_bounds; exact P).
  assert (D0 : (m = 0 -> Zdigits2 m = 0)%Z) by (intros ->; reflexivity).
  assert (Dp : (0 < m -> 0 < Zdigits2 m)%Z) by apply @Zdigits2_pos.
  set (d := Zdigits2 m) in *.
  set (E1 := Z.max e (fexp64 (d + e))) in *.
  set (M1 := (m / 2 ^ (E1 - e))%Z) in *.
  destruct X as (M2 & C & HM1 & HE1 & R).
  assert (K : (0 <= E1 - e)%Z) by (unfold E1; lia).
  assert (P : (0 < 2 ^ (E1 - e))%Z) by (apply Z.pow_pos_nonneg; lia).
  assert (M1n : (0 <= M1)%Z) by (apply Z.div_pos; lia).
  assert (A : (M1 * 2 ^ (E1 - e) <= m)%Z)
    by (unfold M1; rewrite Z.mul_comm; apply Z.mul_div_le; exact P).
  assert (A' : Qv M1 E1 <= Qv m e).
  { apply (@Qv_le_Z M1 E1 m e e); [lia|lia|].
    rewrite Z.sub_diag, Z.pow_0_r, Z.mul_1_r. exact A. }
  (* the input in units of the smaller exponent *)
  assert (Big : (0 < m -> E1 = d + e - 53 -> E1 <= eb)%Z).
  { intros Pm EE. specialize (Dm Pm).
    destruct (Z_le_gt_dec E1 eb) as [G|G]; [exact G|exfalso].
    apply (@Qv_le_Z m e (Zpos mb) eb (Z.min e eb)) in Hle; [|lia|lia].
    set (c := Z.min e eb) in *.
    assert (c <= e)%Z by (unfold c; lia). assert (c <= eb)%Z by (unfold c; lia).
    assert (Q1 : (2 ^ (d - 1) * 2 ^ (e - c) <= m * 2 ^ (e - c))%Z).
    { apply Z.mul_le_mono_nonneg_r; [apply Z.pow_nonneg; lia | exact Dm]. }
    assert (Q2 : (Zpos mb * 2 ^ (eb - c) < 2 ^ 53 * 2 ^ (eb - c))%Z).
    { apply Z.mul_lt_mono_pos_r; [apply Z.pow_pos_nonneg; lia | exact Bm]. }
    rewrite <- Z.pow_add_r in Q1 by lia. rewrite <- Z.pow_add_r in Q2 by lia.
    assert (Q3 : (2 ^ (d - 1 + (e - c)) < 2 ^ (53 + (eb - c)))%Z) by lia.
    apply Z.pow_lt_mono_r_iff in Q3; lia. }
  assert (U : Qv M2 E1 <= Qv (Zpos mb) eb /\ (M2 = (M1 + 1)%Z -> (E1 <= eb)%Z)).
  { destruct C as [->|[-> Cs]].
    - split; [apply Qle_trans with (1 := A'); exact Hle | lia].
    - assert (St : Qv M1 E1 < Qv (Zpos mb) eb).
      { destruct Cs as [Cs|Cs].
        - apply Qlt_le_trans with (Qv m e); [|exact Hle].
          apply (@Qv_lt_Z M1 E1 m e e); [lia|lia|].
          rewrite Z.sub_diag, Z.pow_0_r, Z.mul_1_r. exact Cs.
        - destruct Hl as [Hl|[_ Hl]]; [contradiction|].
          apply Qle_lt_trans with (1 := A'). exact Hl. }
      assert (G : (E1 <= eb)%Z).
      { destruct (Z_le_gt_dec E1 eb) as [G|G]; [exact G|].
        destruct Cs as [Cs|Cs].
        - assert (0 < m)%Z by lia.
          assert (E1 - e <> 0)%Z.
          { intros Z0. rewrite Z0, Z.pow_0_r in Cs. unfold M1 in Cs.
            rewrite Z0, Z.pow_0_r, Z.div_1_r in Cs. lia. }
          apply Big; [assumption|]. unfold E1, fexp64 in *. lia.
        - destruct Hl as [Hl|[Hf _]]; [contradiction|].
          destruct (Z.eq_dec m 0) as [Z0|Z0].
          + specialize (D0 Z0). unfold E1, fexp64 in *. lia.
          + apply Big; [lia|]. unfold E1, fexp64 in *. lia. }
      split; [|intros _; exact G].
      apply (@Qv_lt_Z M1 E1 (Zpos mb) eb E1) in St; [|lia|lia].
      apply (@Qv_le_Z (M1 + 1) E1 (Zpos mb) eb E1); [lia|lia|].
      rewrite Z.sub_diag, Z.pow_0_r, Z.mul_1_r in *. lia. }
  destruct U as [U Ucarry].
  assert (M2n : (0 <= M2 <= 2 ^ 53)%Z) by (destruct C as [->|[-> _]]; lia).
  assert (Ov : (M2 <> 0 -> E1 <= 971 /\ (M2 = 2 ^ 53 -> E1 <= 970))%Z).
  { intros N. destruct (Z_le_gt_dec E1 970) as [G|G]; [lia|].
    assert (Pm : (0 < m)%Z).
    { destruct (Z.eq_dec m 0) as [Z0|Z0]; [|lia]. specialize (D0 Z0).
      unfold E1, fexp64 in *. lia. }
    assert (EE : (E1 = d + e - 53)%Z) by (unfold E1, fexp64 in *; lia).
    pose proof (Big Pm EE) as G2.
    assert (E1 = 971 /\ eb = 971)%Z as [G3 G4] by lia.
    apply (@Qv_le_Z M2 E1 (Zpos mb) eb E1) in U; [|lia|lia].
    rewrite G3, G4, Z.sub_diag, Z.pow_0_r, !Z.mul_1_r in U. lia. }
  rewrite R. destruct (Z.eqb_spec M2 0) as [Z0|Z0]; [now left|right].
  destruct (Ov Z0) as [O1 O2].
  destruct (Z.ltb_spec M2 (2 ^ 53)) as [Lt|Ge].
  - destruct (Z.leb_spec E1 971) as [_|F]; [|lia].
    exists (Z.to_pos M2), E1. split; [reflexivity|].
    rewrite Z2Pos.id by lia. exact U.
  - assert (M2 = 2 ^ 53)%Z by lia. specialize (O2 H).
    destruct (Z.leb_spec (E1 + 1) 971) as [_|F]; [|lia].
    exists (Z.to_pos (2 ^ 52)), (E1 + 1)%Z. split; [reflexivity|].
    rewrite Z2Pos.id by reflexivity. rewrite @Qv_succ_exp. subst M2. exact U.
Qed.

Lemma valid_canon (s : bool) (m : positive) (e : Z) :
  valid_binary (S754_finite s m e) = true -> canon m e.
Proof.
  cbn [valid_binary]. unfold bounded, canonical_mantissa. intros H.
  apply andb_true_iff in H. destruct H as [H1 H2].
  apply Z.eqb_eq in H1. apply Z.leb_le in H2. rewrite fexp_eq in H1.
  split; [symmetry; exact H1 | exact H2].
Qed.

Lemma Qv_mul (a ea b eb : Z) : Qv (a * b) (ea + eb) == Qv a ea * Qv b eb.
Proof.
  unfold Qv. rewrite inject_Z_mult, Qpower_plus by discriminate. ring.
Qed.

Lemma Qv_nonneg (m e : Z) : (0 <= m)%Z -> 0 <= Qv m e.
Proof.
  intros H. unfold Qv. apply Qmult_le_0_compat.
  - change 0 with (inject_Z 0). now rewrite <- Zle_Qle.
  - apply Qlt_le_weak, @Qpow2_pos.
Qed.

(** A product is at least the product of two powers of two that the
    factors reach. *)
Lemma SFmul_lower (sx sy : bool) (mx my : positive) (ex ey a b : Z) :
  Qv 1 a <= Qv (Zpos mx) ex -> Qv 1 b <= Qv (Zpos my) ey ->
  (-1074 <= a + b)%Z ->
  SF64mul (S754_finite sx mx ex) (S754_finite sy my ey) = S754_infinity (xorb sx sy) \/
  exists m' e',
    SF64mul (S754_finite sx mx ex) (S754_finite sy my ey)
    = S754_finite (xorb sx sy) m' e' /\
    Qv 1 (a + b) <= Qv (Zpos m') e'.
Proof.
  intros Ha Hb Hab. unfold SF64mul, SFmul.
  apply @round_aux_lower; [reflexivity | exact Hab |].
  change 1%Z with (1 * 1)%Z at 1. rewrite Pos2Z.inj_mul, !@Qv_mul.
  apply Qmult_le_compat_nonneg; split; try assumption;
    apply @Qv_nonneg; lia.
Qed.

Lemma canon_normal (m : positive) (e : Z) :
  canon m e -> (-1074 < e)%Z -> (2 ^ 52 <= Zpos m)%Z.
Proof.
  intros [C _] H. pose proof (@Zdigits2_bounds (Zpos m) eq_refl) as [L _].
  assert (D : Zdigits2 (Zpos m) = 53%Z) by (unfold fexp64 in C; lia).
  rewrite D in L. exact L.
Qed.

(** A product is at most a binary64 number that the exact product does
    not exceed. *)
Lemma SFmul_upper (sx sy : bool) (mx my mb : positive) (ex ey eb : Z) :
  canon mx ex -> canon my ey -> canon mb eb ->
  Qv (Zpos mx) ex * Qv (Zpos my) ey <= Qv (Zpos mb) eb ->
  SF64mul (S754_finite sx mx ex) (S754_finite sy my ey) = S754_zero (xorb sx sy) \/
  exists m' e',
    SF64mul (S754_finite sx mx ex) (S754_finite sy my ey)
    = S754_finite (xorb sx sy) m' e' /\
    Qv (Zpos m') e' <= Qv (Zpos mb) eb.
Proof.
  intros Cx Cy Cb H. unfold SF64mul, SFmul.
  apply @round_aux_upper; [lia | exact Cb | | | now left].
  - destruct (Z_le_gt_dec (ex + ey) 970) as [G|G]; [now left|right].
    destruct (@canon_bounds mx ex Cx) as (_ & Bx & _).
    destruct (@canon_bounds my ey Cy) as (_ & By & _).
    pose proof (@canon_normal mx ex Cx) as Nx.
    pose proof (@canon_normal my ey Cy) as Ny.
    assert (L : (2 ^ 104 <= Zpos (mx * my))%Z).
    { rewrite Pos2Z.inj_mul. change (2 ^ 104)%Z with (2 ^ 52 * 2 ^ 52)%Z.
      apply Z.mul_le_mono_nonneg; lia. }
    apply @Zdigits2_ge in L; [|reflexivity|lia]. unfold fexp64. lia.
  - rewrite Pos2Z.inj_mul, @Qv_mul. exact H.
Qed.

Lemma iter_xO (m d : positive) :
  Zpos (Pos.iter xO m d) = (Zpos m * 2 ^ Zpos d)%Z.
Proof.
  induction d as [|d IH] using Pos.peano_ind.
  - cbn [Pos.iter]. rewrite Z.pow_1_r. lia.
  - rewrite Pos.iter_succ, Pos2Z.inj_xO, IH, Pos2Z.inj_succ, Z.pow_succ_r by lia.
    ring.
Qed.

Lemma shl_align_spec (mx : positive) (ex ex' : Z) :
  exists mz,
    shl_align mx ex ex' = (mz, Z.min ex ex') /\
    Zpos mz = (Zpos mx * 2 ^ (ex - Z.min ex ex'))%Z.
Proof.
  unfold shl_align. destruct (ex' - ex)%Z as [|d|d] eqn:E.
  - exists mx. rewrite Z.min_l by lia. rewrite Z.sub_diag. split; [reflexivity | simpl; lia].
  - exists mx. rewrite Z.min_l by lia. rewrite Z.sub_diag. split; [reflexivity | simpl; lia].
  - exists (Pos.iter xO mx d). rewrite Z.min_r by lia. split; [reflexivity|].
    rewrite @iter_xO. f_equal. f_equal. lia.
Qed.

Lemma shl_align_value (mx : positive) (ex ex' : Z) (mz : positive) :
  Zpos mz = (Zpos mx * 2 ^ (ex - Z.min ex ex'))%Z ->
  Qv (Zpos mz) (Z.min ex ex') == Qv (Zpos mx) ex.
Proof.
  intros H. rewrite H. symmetry. apply @Qv_align. lia.
Qed.

(** What rounding returns carries the sign it was given. *)
Lemma round_aux_cases (s : bool) (m e : Z) (l : location) :
  (0 <= m)%Z ->
  binary_round_aux prec emax s m e l = S754_zero s \/
  binary_round_aux prec emax s m e l = S754_infinity s \/
  exists m' e', binary_round_aux prec emax s m e l = S754_finite s m' e'.
Proof.
  intros H. pose proof (@round_aux_shape s m e l H) as X. cbv zeta in X.
  destruct X as (M2 & _ & _ & _ & R). rewrite R.
  destruct (M2 =? 0)%Z; [now left|right].
  destruct (M2 <? 2 ^ 53)%Z.
  - destruct (_ <=? 971)%Z; [right; eauto | now left].
  - destruct (_ <=? 971)%Z; [right; eauto | now left].
Qed.

Lemma binary_round_cases (s : bool) (m : positive) (e : Z) :
  binary_round prec emax s m e = S754_zero s \/
  binary_round prec emax s m e = S754_infinity s \/
  exists m' e', binary_round prec emax s m e = S754_finite s m' e'.
Proof.
  unfold binary_round.
  destruct (@shl_align_spec m e (fexp prec emax (Zpos (digits2_pos m) + e)))
    as (mz & -> & _).
  apply @round_aux_cases. lia.
Qed.

Lemma binary_round_lower (s : bool) (m : positive) (e j : Z) :
  (-1074 <= j)%Z -> Qv 1 j <= Qv (Zpos m) e ->
  binary_round prec emax s m e = S754_infinity s \/
  exists m' e',
    binary_round prec emax s m e = S754_finite s m' e' /\
    Qv 1 j <= Qv (Zpos m') e'.
Proof.
  intros Hj H. unfold binary_round.
  destruct (@shl_align_spec m e (fexp prec emax (Zpos (digits2_pos m) + e)))
    as (mz & -> & V).
  apply @round_aux_lower; [reflexivity | exact Hj |].
  rewrite (@shl_align_value m e _ mz V). exact H.
Qed.

Lemma SFadd_finite_pos (mx my : positive) (ex ey : Z) :
  exists mz,
    SF64add (S754_finite false mx ex) (S754_finite false my ey)
    = binary_round prec emax false mz (Z.min ex ey) /\
    Qv (Zpos mx) ex <= Qv (Zpos mz) (Z.min ex ey) /\
    Qv (Zpos my) ey <= Qv (Zpos mz) (Z.min ex ey).
Proof.
  unfold SF64add, SFadd. cbv zeta.
  destruct (@shl_align_spec mx ex (Z.min ex ey)) as (ax & Ex & Vx).
  destruct (@shl_align_spec my ey (Z.min ex ey)) as (ay & Ey & Vy).
  rewrite Ex, Ey. cbn [fst cond_Zopp Z.add binary_normalize].
  exists (ax + ay)%positive. split; [reflexivity|].
  replace (Z.min ex (Z.min ex ey)) with (Z.min ex ey) in Vx by lia.
  replace (Z.min ey (Z.min ex ey)) with (Z.min ex ey) in Vy by lia.
  split.
  - rewrite (@Qv_align (Zpos mx) ex (Z.min ex ey)) by lia.
    apply @Qv_le_same. lia.
  - rewrite (@Qv_align (Zpos my) ey (Z.min ex ey)) by lia.
    apply @Qv_le_same. lia.
Qed.

Lemma SFadd_nonneg (x y : spec_float) :
  nonneg_sf x -> nonneg_sf y -> nonneg_sf (SF64add x y).
Proof.
  destruct x as [sx|[|]| |[|] mx ex], y as [sy|[|]| |[|] my ey];
    try contradiction; intros _ _; try exact I.
  - unfold SF64add, SFadd. destruct sx, sy; exact I.
  - destruct (@SFadd_finite_pos mx my ex ey) as (mz & -> & _).
    destruct (@binary_round_cases false mz (Z.min ex ey)) as [->|[->|(m' & e' & ->)]];
      exact I.
Qed.

Lemma SFadd_at_least (j : Z) (x y : spec_float) :
  (-1074 <= j)%Z -> nonneg_sf x -> nonneg_sf y ->
  at_least j x \/ at_least j y -> at_least j (SF64add x y).
Proof.
  intros Hj.
  destruct x as [sx|[|]| |[|] mx ex], y as [sy|[|]| |[|] my ey];
    try contradiction; intros _ _ H; try exact I;
    try (destruct H as [H|H]; [contradiction || exact H | contradiction || exact H]).
  destruct (@SFadd_finite_pos mx my ex ey) as (mz & -> & Lx & Ly).
  assert (L : Qv 1 j <= Qv (Zpos mz) (Z.min ex ey)).
  { destruct H as [H|H]; cbn [at_least] in H;
      [apply Qle_trans with (1 := H), Lx | apply Qle_trans with (1 := H), Ly]. }
  destruct (@binary_round_lower false mz (Z.min ex ey) j Hj L)
    as [->|(m' & e' & -> & G)]; [exact I | exact G].
Qed.

Lemma sqrt_core_lower (mx : positive) (ex g : Z) :
  Qv 1 (2 * g) <= Qv (Zpos mx) ex ->
  exists q e' l,
    SFsqrt_core_binary prec emax (Zpos mx) ex = (q, e', l) /\
    (0 < q)%Z /\ Qv 1 g <= Qv q e'.
Proof.
  intros H. unfold SFsqrt_core_binary. cbv zeta.
  set (e' := Z.min (fexp prec emax (Z.div2 (Zdigits2 (Zpos mx) + ex + 1))) (Z.div2 ex)).
  assert (He : (2 * e' <= ex)%Z).
  { assert (2 * Z.div2 ex <= ex)%Z.
    { rewrite Z.div2_div. apply Z.mul_div_le. lia. }
    unfold e'. lia. }
  set (m' := match (ex - 2 * e')%Z with
             | 0%Z => Zpos mx
             | Zpos _ => Z.shiftl (Zpos mx) (ex - 2 * e')
             | Zneg _ => 0%Z
             end).
  assert (Hm : m' = (Zpos mx * 2 ^ (ex - 2 * e'))%Z).
  { unfold m'. destruct (ex - 2 * e')%Z as [|p|p] eqn:E.
    - simpl. lia.
    - rewrite Z.shiftl_mul_pow2 by lia. reflexivity.
    - lia. }
  assert (Pm : (0 < m')%Z).
  { rewrite Hm. apply Z.mul_pos_pos; [lia|]. apply Z.pow_pos_nonneg; lia. }
  pose proof (Z.sqrtrem_spec m') as S. 
  destruct (Z.sqrtrem m') as [q r].
  destruct S as [S1 S2]; [lia|].
  exists q, e'.
  eexists. split; [reflexivity|].
  assert (Pq : (0 < q)%Z) by nia.
  split; [exact Pq|].
  destruct (Z_le_gt_dec e' g) as [G|G].
  - apply (@Qv_le_Z 1 (2 * g) (Zpos mx) ex (2 * e')) in H; [|lia|lia].
    rewrite <- Hm, Z.mul_1_l in H.
    apply (@Qv_le_Z 1 g q e' e'); [lia|lia|].
    rewrite Z.sub_diag, Z.pow_0_r, Z.mul_1_l, Z.mul_1_r.
    replace (2 * g - 2 * e')%Z with ((g - e') + (g - e'))%Z in H by lia.
    rewrite Z.pow_add_r in H by lia.
    assert (0 < 2 ^ (g - e'))%Z by (apply Z.pow_pos_nonneg; lia).
    nia.
  - apply (@Qv_le_Z 1 g q e' g); [lia|lia|].
    rewrite Z.sub_diag, Z.pow_0_r, Z.mul_1_l.
    pose proof (@pow2_ge_1 (e' - g)). nia.
Qed.

(** A square root is at least the power of two whose square the argument
    reaches. *)
Lemma SFsqrt_lower (g : Z) (x : spec_float) :
  (-1074 <= g)%Z -> at_least (2 * g) x -> at_least g (SF64sqrt x).
Proof.
  intros Hg. destruct x as [sx|[|]| |[|] mx ex]; try contradiction.
  - intros _. exact I.
  - cbn [at_least]. intros H. unfold SF64sqrt, SFsqrt.
    destruct (@sqrt_core_lower mx ex g H) as (q & e' & l & -> & Pq & L).
    destruct (@round_aux_lower false q e' l g Pq Hg L)
      as [->|(m' & e'' & -> & G)]; [exact I | exact G].
Qed.

Lemma new_location_zero (nb : Z) : new_location nb 0 = loc_Exact.
Proof.
  unfold new_location, new_location_even, new_location_odd.
  destruct (Z.even nb); reflexivity.
Qed.

Lemma div_core_upper (mx my mb : positive) (ex ey eb : Z) :
  canon mx ex -> canon my ey ->
  Qv (Zpos mx) ex <= Qv (Zpos mb) eb * Qv (Zpos my) ey ->
  exists q e' l,
    SFdiv_core_binary prec emax (Zpos mx) ex (Zpos my) ey = (q, e', l) /\
    (0 <= q)%Z /\ (e' <= fexp64 (Zdigits2 q + e'))%Z /\
    Qv q e' <= Qv (Zpos mb) eb /\
    (l = loc_Exact \/ Qv q e' < Qv (Zpos mb) eb).
Proof.
  intros Cx Cy H. unfold SFdiv_core_binary. cbv zeta. rewrite fexp_eq.
  pose proof (@Zdigits2_bounds (Zpos mx) eq_refl) as [Lx Ux].
  pose proof (@Zdigits2_bounds (Zpos my) eq_refl) as [Ly Uy].
  pose proof (@Zdigits2_pos (Zpos mx) eq_refl) as Px.
  pose proof (@Zdigits2_pos (Zpos my) eq_refl) as Py.
  set (d1 := Zdigits2 (Zpos mx)) in *. set (d2 := Zdigits2 (Zpos my)) in *.
  set (e' := Z.min (fexp64 (d1 + ex - (d2 + ey))) (ex - ey)).
  assert (Hs : (0 <= ex - ey - e')%Z) by (unfold e'; lia).
  set (m' := match (ex - ey - e')%Z with
             | 0%Z => Zpos mx
             | Zpos _ => Z.shiftl (Zpos mx) (ex - ey - e')
             | Zneg _ => 0%Z
             end).
  assert (Hm : m' = (Zpos mx * 2 ^ (ex - ey - e'))%Z).
  { unfold m'. destruct (ex - ey - e')%Z as [|p|p] eqn:E.
    - simpl. lia.
    - rewrite Z.shiftl_mul_pow2 by lia. reflexivity.
    - lia. }
  assert (P2 : (0 < 2 ^ (ex - ey - e'))%Z) by (apply Z.pow_pos_nonneg; lia).
  pose proof (Z_div_mod m' (Zpos my) eq_refl) as D.
  destruct (Z.div_eucl m' (Zpos my)) as [q r]. destruct D as [D1 D2].
  assert (Pq : (0 <= q)%Z) by nia.
  exists q, e'. eexists. split; [reflexivity|]. split; [exact Pq|].
  assert (V : Qv (Zpos my * q + r) (e' + ey) == Qv (Zpos mx) ex).
  { rewrite <- D1, Hm. symmetry.
    replace (ex - ey - e')%Z with (ex - (e' + ey))%Z by lia.
    apply Qv_align. lia. }
  assert (Py' : 0 < Qv (Zpos my) ey) by (apply Qv_pos; reflexivity).
  split; [|split].
  - destruct (Z_le_gt_dec e' (-1074)) as [G|G]; [unfold fexp64; lia|].
    assert (S53 : (53 - d1 + d2 <= ex - ey - e')%Z)
      by (unfold e', fexp64 in *; lia).
    assert (Q52 : (2 ^ 52 * Zpos my <= m')%Z).
    { rewrite Hm.
      apply Z.le_trans with (2 ^ (d1 - 1) * 2 ^ (ex - ey - e'))%Z;
        [|apply Z.mul_le_mono_nonneg_r; lia].
      rewrite <- Z.pow_add_r by lia.
      apply Z.le_trans with (2 ^ 52 * 2 ^ d2)%Z;
        [apply Z.mul_le_mono_nonneg_l; lia|].
      rewrite <- Z.pow_add_r by lia. apply Z.pow_le_mono_r; lia. }
    assert (Q : (2 ^ 52 <= q)%Z) by nia.
    apply Zdigits2_ge in Q; [|lia|lia]. unfold fexp64. lia.
  - apply (Qmult_le_r _ _ (Qv (Zpos my) ey) Py').
    apply Qle_trans with (2 := H). rewrite <- V, <- Qv_mul.
    apply Qv_le_same. nia.
  - destruct (Z.eq_dec r 0) as [->|N].
    + left. apply new_location_zero.
    + right. apply (Qmult_lt_r _ _ (Qv (Zpos my) ey) Py').
      apply Qlt_le_trans with (2 := H). rewrite <- V, <- Qv_mul.
      apply Qv_lt_same. nia.
Qed.

(** A quotient is at most a binary64 number that the exact quotient does
    not exceed. *)
Lemma SFdiv_upper (sx sy : bool) (mx my mb : positive) (ex ey eb : Z) :
  canon mx ex -> canon my ey -> canon mb eb ->
  Qv (Zpos mx) ex <= Qv (Zpos mb) eb * Qv (Zpos my) ey ->
  SF64div (S754_finite sx mx ex) (S754_finite sy my ey) = S754_zero (xorb sx sy) \/
  exists m' e',
    SF64div (S754_finite sx mx ex) (S754_finite sy my ey)
    = S754_finite (xorb sx sy) m' e' /\
    Qv (Zpos m') e' <= Qv (Zpos mb) eb.
Proof.
  intros Cx Cy Cb H. unfold SF64div, SFdiv.
  destruct (@div_core_upper mx my mb ex ey eb Cx Cy H)
    as (q & e' & l & -> & Pq & F & L & S).
  apply round_aux_upper; [exact Pq | exact Cb | now right | exact L |].
  destruct S as [S|S]; [now left | right; split; assumption].
Qed.

Lemma Zdigits2_pow2 (t : Z) : (0 <= t)%Z -> Zdigits2 (2 ^ t) = (t + 1)%Z.
Proof.
  intros H. assert (P : (0 < 2 ^ t)%Z) by (apply Z.pow_pos_nonneg; lia).
  apply Z.le_antisymm.
  - apply (@Zdigits2_le (2 ^ t) (t + 1) P). apply Z.pow_lt_mono_r; lia.
  - apply (@Zdigits2_ge (2 ^ t) t P); lia.
Qed.

(** A power of two in the range of binary64 is a binary64 number. *)
Lemma pow2_canon (j : Z) :
  (-1074 <= j <= 1023)%Z ->
  exists mb eb, canon mb eb /\ Qv (Zpos mb) eb == Qv 1 j.
Proof.
  intros H. set (eb := fexp64 (j + 1)).
  assert (T : (0 <= j - eb <= 52)%Z) by (unfold eb, fexp64; lia).
  assert (P : (0 < 2 ^ (j - eb))%Z) by (apply Z.pow_pos_nonneg; lia).
  exists (Z.to_pos (2 ^ (j - eb))), eb. unfold canon.
  rewrite !Z2Pos.id by exact P. split.
  - split; [|unfold eb, fexp64; lia].
    rewrite Zdigits2_pow2 by lia. unfold eb. f_equal. fold eb. lia.
  - rewrite (@Qv_align 1 j eb) by lia. now rewrite Z.mul_1_l.
Qed.

Lemma mag_bounds (m : positive) (e : Z) :
  Qv 1 (Zdigits2 (Zpos m) + e - 1) <= Qv (Zpos m) e /\
  Qv (Zpos m) e <= Qv 1 (Zdigits2 (Zpos m) + e).
Proof.
  pose proof (@Zdigits2_bounds (Zpos m) eq_refl) as [L U].
  pose proof (@Zdigits2_pos (Zpos m) eq_refl) as P.
  set (d := Zdigits2 (Zpos m)) in *. split.
  - apply (@Qv_le_Z 1 (d + e - 1) (Zpos m) e e); [lia|lia|].
    rewrite Z.sub_diag, Z.pow_0_r, Z.mul_1_l, Z.mul_1_r.
    replace (d + e - 1 - e)%Z with (d - 1)%Z by lia. exact L.
  - apply (@Qv_le_Z (Zpos m) e 1 (d + e) e); [lia|lia|].
    rewrite Z.sub_diag, Z.pow_0_r, Z.mul_1_l, Z.mul_1_r.
    replace (d + e - e)%Z with d by lia. lia.
Qed.

Lemma Qv_pow2_mono (a b : Z) : (a <= b)%Z -> Qv 1 a <= Qv 1 b.
Proof.
  intros H. apply (@Qv_le_Z 1 a 1 b a); [lia|lia|].
  rewrite Z.sub_diag, Z.pow_0_r, !Z.mul_1_l. apply pow2_ge_1. lia.
Qed.

Lemma Qv_pow2_mul (a b : Z) : Qv 1 a * Qv 1 b == Qv 1 (a + b).
Proof. rewrite <- Qv_mul. reflexivity. Qed.

Lemma Qv_one : Qv 1 0 == 1.
Proof. reflexivity. Qed.

Lemma valid_finite (x : float) (s : bool) (m : positive) (e : Z) :
  Prim2SF x = S754_finite s m e -> canon m e.
Proof.
  intros H. apply (@valid_canon s). rewrite <- H. apply Prim2SF_valid.
Qed.

Lemma one_sf : Prim2SF 1%float = S754_finite false 4503599627370496 (-52).
Proof. reflexivity. Qed.

Lemma mul_at_most_not_finite (B : Q) (x y : spec_float) :
  ~ (exists s m e, x = S754_finite s m e) \/
  ~ (exists s m e, y = S754_finite s m e) ->
  at_most B (SF64mul x y).
Proof.
  intros H.
  destruct x as [sx|sx| |sx mx ex], y as [sy|sy| |sy my ey]; try exact I.
  destruct H as [H|H]; exfalso; apply H; eauto.
Qed.

(** A component divided by a length that is at least its magnitude has
    magnitude at most 2: with [s] the sum of squares, which is at least
    the square of [v] as computed. *)
Lemma scale_at_most_2 (v s : float) (ms : positive) (es : Z) :
  Prim2SF s = S754_finite false ms es ->
  (forall j, (-1074 <= j)%Z ->
             at_least j (Prim2SF (v * v)%float) -> at_least j (Prim2SF s)) ->
  at_most 2 (Prim2SF (v * (1 / sqrt s))%float).
Proof.
  intros Es Chain. rewrite mul_spec.
  destruct (Prim2SF v) as [sv|sv| |sv mv ev] eqn:Ev;
    try (apply mul_at_most_not_finite; left; intros (s0 & m0 & e0 & C);
         discriminate).
  pose proof (@valid_finite v sv mv ev Ev) as Cv.
  pose proof (@valid_finite s false ms es Es) as Cs.
  destruct (@canon_bounds mv ev Cv) as (_ & Bev & Bdv).
  destruct (@canon_bounds ms es Cs) as (_ & Bes & _).
  pose proof (@Zdigits2_pos (Zpos mv) eq_refl) as Pd.
  destruct (mag_bounds mv ev) as [Ml Mu].
  set (g := (Zdigits2 (Zpos mv) + ev - 1)%Z) in *.
  replace (Zdigits2 (Zpos mv) + ev)%Z with (g + 1)%Z in Mu by (unfold g; lia).
  set (g' := Z.max g (-537)).
  assert (AL : at_least g' (Prim2SF (sqrt s))).
  { rewrite sqrt_spec. apply SFsqrt_lower; [unfold g'; lia|].
    destruct (Z_le_gt_dec (-537) g) as [G|G].
    - replace g' with g by (unfold g'; lia).
      apply Chain; [lia|]. rewrite mul_spec, Ev.
      destruct (@SFmul_lower sv sv mv mv ev ev g g Ml Ml) as [E|(m' & e' & E & L)];
        [lia | | ]; rewrite xorb_nilpotent in E; rewrite E.
      + exact I.
      + cbn [at_least]. replace (2 * g)%Z with (g + g)%Z by lia. exact L.
    - replace g' with (-537)%Z by (unfold g'; lia).
      rewrite Es. cbn [at_least].
      apply (@Qv_le_Z 1 (2 * -537) (Zpos ms) es (-1074)); [lia|lia|].
      change (2 * -537 - -1074)%Z with 0%Z. rewrite Z.pow_0_r, Z.mul_1_l.
      assert (0 < 2 ^ (es - -1074))%Z by (apply Z.pow_pos_nonneg; lia). nia. }
  destruct (Prim2SF (sqrt s)) as [sl|[|]| |[|] ml el] eqn:El; try contradiction.
  - (* the length is infinite *)
    rewrite div_spec, El, one_sf. exact I.
  - cbn [at_least] in AL.
    pose proof (@valid_finite (sqrt s) false ml el El) as Cl.
    destruct (@pow2_canon (- g')) as (mb & eb & Cb & Vb);
      [unfold g', g; lia|].
    assert (Q : Qv 4503599627370496 (-52) <= Qv (Zpos mb) eb * Qv (Zpos ml) el).
    { rewrite Vb. apply Qle_trans with (Qv 1 (- g') * Qv 1 g').
      - rewrite Qv_pow2_mul. replace (- g' + g')%Z with 0%Z by lia.
        apply Qle_lteq. right. reflexivity.
      - apply Qmult_le_compat_nonneg; split;
          try (apply Qv_nonneg; lia); try apply Qle_refl. exact AL. }
    assert (C1 : canon 4503599627370496 (-52)) by (split; [reflexivity | lia]).
    pose proof (@SFdiv_upper false false 4503599627370496 ml mb (-52) el eb
                  C1 Cl Cb Q) as K.
    pose proof (div_spec 1 (sqrt s)) as Ek. rewrite El, one_sf in Ek.
    destruct K as [K|(mk & ek & K & Lk)]; rewrite K in Ek; rewrite Ek.
    + exact I.
    + pose proof (@valid_finite (1 / sqrt s)%float _ mk ek Ek) as Ck.
      assert (C2 : canon 4503599627370496 (-51)) by (split; [reflexivity | lia]).
      assert (Q2 : Qv (Zpos mv) ev * Qv (Zpos mk) ek <= Qv 4503599627370496 (-51)).
      { apply Qle_trans with (Qv 1 (g' + 1) * Qv 1 (- g')).
        - apply Qmult_le_compat_nonneg; split; try (apply Qv_nonneg; lia).
          + apply Qle_trans with (1 := Mu). apply Qv_pow2_mono. unfold g'. lia.
          + rewrite <- Vb. exact Lk.
        - rewrite Qv_pow2_mul. replace (g' + 1 + - g')%Z with 1%Z by lia.
          apply Qle_lteq. right. reflexivity. }
      destruct (@SFmul_upper sv (xorb false false) mv mk 4503599627370496 ev ek (-51)
                  Cv Ck C2 Q2) as [E|(m' & e' & E & L)]; rewrite E.
      * exact I.
      * cbn [at_most]. apply Qle_trans with (1 := L).
        apply Qle_lteq. right. reflexivity.
Qed.

Lemma square_nonneg (x : spec_float) :
  is_fin_sf (SF64mul x x) -> nonneg_sf (SF64mul x x).
Proof.
  destruct x as [sx|sx| |sx mx ex]; try contradiction; intros _.
  - exact I.
  - unfold SF64mul, SFmul. rewrite xorb_nilpotent.
    destruct (@round_aux_cases false (Zpos (mx * mx)) (ex + ex) loc_Exact)
      as [->|[->|(m' & e' & ->)]]; [lia|exact I..].
Qed.

(** The sum of the three squares is at least each square. *)
Lemma dot_self_at_least (v : Vec3.t) (j : Z) :
  is_fin_sf (Prim2SF (Vec3.dot v v)) -> (-1074 <= j)%Z ->
  at_least j (Prim2SF (Vec3.x v * Vec3.x v)%float) \/
  at_least j (Prim2SF (Vec3.y v * Vec3.y v)%float) \/
  at_least j (Prim2SF (Vec3.z v * Vec3.z v)%float) ->
  at_least j (Prim2SF (Vec3.dot v v)).
Proof.
  unfold Vec3.dot. rewrite !add_spec, !mul_spec. intros F Hj H.
  destruct (@add_fin _ _ F) as [F12 F3].
  destruct (@add_fin _ _ F12) as [F1 F2].
  apply square_nonneg in F1, F2, F3.
  pose proof (@SFadd_nonneg _ _ F1 F2) as N12.
  apply SFadd_at_least; [exact Hj | exact N12 | exact F3 |].
  destruct H as [H|[H|H]].
  - left. apply SFadd_at_least; auto.
  - left. apply SFadd_at_least; auto.
  - now right.
Qed.

Lemma zero_sf : Prim2SF 0%float = S754_zero false.
Proof. reflexivity. Qed.

Lemma scale_by_length (v : Vec3.t) (c : float) :
  (c = Vec3.x v \/ c = Vec3.y v \/ c = Vec3.z v) ->
  (Vec3.dot v v <? 0)%float = false ->
  (sqrt (Vec3.dot v v) =? 0)%float = false ->
  at_most 2 (Prim2SF (c * (1 / sqrt (Vec3.dot v v)))%float).
Proof.
  intros Hc N Z. set (s := Vec3.dot v v) in *.
  rewrite FloatAxioms.ltb_spec, zero_sf in N.
  rewrite FloatAxioms.eqb_spec, sqrt_spec, zero_sf in Z.
  destruct (Prim2SF s) as [ss|[|]| |[|] ms es] eqn:Es;
    try discriminate.
  - (* the sum is infinite *)
    rewrite mul_spec, div_spec, sqrt_spec, Es, one_sf.
    apply mul_at_most_not_finite. right. intros (s0 & m0 & e0 & C). discriminate.
  - rewrite mul_spec, div_spec, sqrt_spec, Es.
    apply mul_at_most_not_finite. right. intros (s0 & m0 & e0 & C).
    destruct (Prim2SF 1%float); discriminate.
  - apply (@scale_at_most_2 c s ms es Es). intros j Hj A.
    apply dot_self_at_least; [fold s; rewrite Es; exact I | exact Hj |].
    destruct Hc as [->|[->| ->]]; auto.
Qed.

(** Every finite component of a vector that [normalize] returns has
    magnitude at most 2. *)
Lemma normalize_at_most_2 (v n : Vec3.t) :
  Vec3.normalize v = Ok n ->
  at_most 2 (Prim2SF (Vec3.x n)) /\ at_most 2 (Prim2SF (Vec3.y n)) /\
  at_most 2 (Prim2SF (Vec3.z n)).
Proof.
  unfold Vec3.normalize, Vec3.length, math_sqrt.
  destruct (Vec3.dot v v <? 0)%float eqn:N; [discriminate|]. cbn [bind].
  destruct (sqrt (Vec3.dot v v) =? 0)%float eqn:Z; intros H;
    apply Ok_inj in H; subst n.
  - cbn [Vec3.x Vec3.y Vec3.z]. rewrite zero_sf. repeat split.
  - cbn [Vec3.mul Vec3.x Vec3.y Vec3.z].
    repeat split; apply scale_by_length; auto.
Qed.

Lemma float_of_nat_at_least (n : nat) :
  (2 <= Z.of_nat n < 2 ^ 63)%Z -> at_least 1 (Prim2SF (float_of_nat n)).
Proof.
  intros H. unfold float_of_nat. rewrite of_uint63_spec, Uint63.of_Z_spec.
  rewrite Z.mod_small by (change Uint63.wB with (2 ^ 63)%Z; lia).
  destruct (Z.of_nat n) as [|p|p] eqn:E; try lia. cbn [binary_normalize].
  assert (L : Qv 1 1 <= Qv (Zpos p) 0).
  { apply (@Qv_le_Z 1 1 (Zpos p) 0 0); [lia|lia|]. simpl. lia. }
  destruct (@binary_round_lower false p 0 1) as [->|(m' & e' & -> & G)];
    [lia | exact L | exact I | exact G].
Qed.

Lemma canon_half_max : canon 9007199254740991 970.
Proof. split; [reflexivity | lia]. Qed.

Lemma canon_max : canon 9007199254740991 971.
Proof. split; [reflexivity | lia]. Qed.

Lemma canon_le_max (m : positive) (e : Z) :
  canon m e -> Qv (Zpos m) e <= Qv 9007199254740991 971.
Proof.
  intros C. destruct (@canon_bounds m e C) as (Bm & Be & _).
  apply (@Qv_le_Z (Zpos m) e 9007199254740991 971 e); [lia|lia|].
  rewrite Z.sub_diag, Z.pow_0_r, Z.mul_1_r.
  assert (P : (1 <= 2 ^ (971 - e))%Z) by (apply pow2_ge_1; lia).
  change (2 ^ 53)%Z with 9007199254740992%Z in Bm.
  apply Z.le_trans with (9007199254740991 * 1)%Z; [lia|].
  apply Z.mul_le_mono_nonneg_l; [lia | exact P].
Qed.

Lemma max_is_twice_half : Qv 9007199254740991 971 == half_max * Qv 1 1.
Proof. unfold half_max. symmetry. exact (@Qv_mul 9007199254740991 970 1 1). Qed.

(** A quotient by a number that is at least 2 is at most half of the
    largest number, when it is finite. *)
Lemma div_at_most_half (S n : float) :
  at_least 1 (Prim2SF n) -> at_most half_max (Prim2SF (S / n)%float).
Proof.
  intros A. rewrite div_spec.
  destruct (Prim2SF n) as [sn|[|]| |[|] mn en] eqn:En; try contradiction.
  - destruct (Prim2SF S); exact I.
  - cbn [at_least] in A.
    destruct (Prim2SF S) as [sS|sS| |sS mS eS] eqn:ES; try exact I.
    pose proof (@valid_finite S sS mS eS ES) as CS.
    pose proof (@valid_finite n false mn en En) as Cn.
    assert (Q : Qv (Zpos mS) eS <= Qv 9007199254740991 970 * Qv (Zpos mn) en).
    { apply Qle_trans with (1 := @canon_le_max mS eS CS).
      rewrite max_is_twice_half. fold half_max.
      apply Qmult_le_compat_nonneg; (split; [apply Qv_nonneg; lia|]);
        [apply Qle_refl | exact A]. }
    destruct (@SFdiv_upper sS false mS mn 9007199254740991 eS en 970
                CS Cn canon_half_max Q) as [->|(m' & e' & -> & L)];
      [exact I | exact L].
Qed.

(** Every finite coordinate of the centroid of a polygon with at least
    two vertices is at most half of the largest number in magnitude. *)
Lemma centroid_at_most_half (q : Polygon.t) (c : Vec3.t) :
  Polygon.centroid q = Ok c ->
  (2 <= Z.of_nat (List.length (Polygon.vertices q)) < 2 ^ 63)%Z ->
  at_most half_max (Prim2SF (Vec3.x c)) /\
  at_most half_max (Prim2SF (Vec3.y c)) /\
  at_most half_max (Prim2SF (Vec3.z c)).
Proof.
  unfold Polygon.centroid. intros H Hl.
  pose proof (@float_of_nat_at_least _ Hl) as A.
  destruct (Polygon.vertices q) as [|v0 vs]; [discriminate|].
  apply Ok_inj in H. subst c. cbn [Vec3.x Vec3.y Vec3.z].
  repeat split; apply div_at_most_half; exact A.
Qed.

Lemma binary_normalize_not_nan (m e : Z) (s : bool) :
  binary_normalize prec emax m e s <> S754_nan.
Proof.
  destruct m as [|p|p]; cbn [binary_normalize]; [discriminate| |].
  - destruct (@binary_round_cases false p e) as [->|[->|(m' & e' & ->)]];
      discriminate.
  - destruct (@binary_round_cases true p e) as [->|[->|(m' & e' & ->)]];
      discriminate.
Qed.

Lemma add_not_nan (x y : spec_float) :
  x <> S754_nan -> is_fin_sf y -> SF64add x y <> S754_nan.
Proof.
  destruct x as [sx|sx| |sx mx ex], y as [sy|sy| |sy my ey];
    try contradiction; intros Hx _; try discriminate.
  - unfold SF64add, SFadd. destruct sx, sy; discriminate.
  - apply binary_normalize_not_nan.
Qed.

Lemma sub_not_nan (x y : spec_float) :
  x <> S754_nan -> is_fin_sf y -> SF64sub x y <> S754_nan.
Proof.
  destruct x as [sx|sx| |sx mx ex], y as [sy|sy| |sy my ey];
    try contradiction; intros Hx _; try discriminate.
  - unfold SF64sub, SFsub. destruct sx, sy; discriminate.
  - apply binary_normalize_not_nan.
Qed.

Lemma fin_not_nan (x : spec_float) : is_fin_sf x -> x <> S754_nan.
Proof. destruct x; try contradiction; discriminate. Qed.

(** The product of a number of magnitude at most 2 and a number of
    magnitude at most half of the largest number is finite. *)
Lemma mul_bounded_fin (n c : float) :
  is_fin_sf (Prim2SF n) -> at_most 2 (Prim2SF n) ->
  is_fin_sf (Prim2SF c) -> at_most half_max (Prim2SF c) ->
  is_fin_sf (Prim2SF (n * c)%float).
Proof.
  rewrite mul_spec.
  destruct (Prim2SF n) as [sn|sn| |sn mn en] eqn:En; try contradiction;
    destruct (Prim2SF c) as [sc|sc| |sc mc ec] eqn:Ec; try contradiction;
    intros _ Bn _ Bc; try exact I.
  cbn [at_most] in Bn, Bc.
  pose proof (@valid_finite n sn mn en En) as Cn.
  pose proof (@valid_finite c sc mc ec Ec) as Cc.
  assert (Q : Qv (Zpos mn) en * Qv (Zpos mc) ec <= Qv 9007199254740991 971).
  { rewrite max_is_twice_half, (Qmult_comm half_max).
    apply Qmult_le_compat_nonneg; (split; [apply Qv_nonneg; lia|]).
    - apply Qle_trans with (1 := Bn). apply Qle_lteq. right. reflexivity.
    - exact Bc. }
  destruct (@SFmul_upper sn sc mn mc 9007199254740991 en ec 971
              Cn Cc canon_max Q) as [->|(m' & e' & -> & _)]; exact I.
Qed.

Lemma not_nan_is_nan (x : float) : Prim2SF x <> S754_nan -> is_nan x = false.
Proof.
  intros H. unfold is_nan. rewrite FloatAxioms.eqb_spec.
  destruct (Prim2SF x) as [s|s| |s m e]; try contradiction.
  - reflexivity.
  - now destruct s.
  - now rewrite SFeqb_refl_finite.
Qed.

(** A plane with a finite normal of components at most 2 and a finite
    offset orders every point with finite coordinates of at most half of
    the largest number: the classification is a number. *)
Lemma classify_is_a_number (pl : Plane.t) (c : Vec3.t) :
  finite_vec (Plane.normal pl) = true -> finite (Plane.d pl) = true ->
  finite_vec c = true ->
  at_most 2 (Prim2SF (Vec3.x (Plane.normal pl))) ->
  at_most 2 (Prim2SF (Vec3.y (Plane.normal pl))) ->
  at_most 2 (Prim2SF (Vec3.z (Plane.normal pl))) ->
  at_most half_max (Prim2SF (Vec3.x c)) ->
  at_most half_max (Prim2SF (Vec3.y c)) ->
  at_most half_max (Prim2SF (Vec3.z c)) ->
  is_nan (Plane.classify_point pl c) = false.
Proof.
  intros Fn Fd Fc N1 N2 N3 C1 C2 C3.
  assert (Fin : forall v, finite v = true -> is_fin_sf (Prim2SF v)).
  { intros v. unfold finite. destruct (Prim2SF v); try discriminate; intros _; exact I. }
  unfold finite_vec in Fn, Fc.
  apply andb_true_iff in Fn. destruct Fn as [Fn Fn3].
  apply andb_true_iff in Fn. destruct Fn as [Fn1 Fn2].
  apply andb_true_iff in Fc. destruct Fc as [Fc Fc3].
  apply andb_true_iff in Fc. destruct Fc as [Fc1 Fc2].
  apply Fin in Fn1, Fn2, Fn3, Fc1, Fc2, Fc3, Fd.
  pose proof (@mul_bounded_fin _ _ Fn1 N1 Fc1 C1) as P1.
  pose proof (@mul_bounded_fin _ _ Fn2 N2 Fc2 C2) as P2.
  pose proof (@mul_bounded_fin _ _ Fn3 N3 Fc3 C3) as P3.
  apply not_nan_is_nan. unfold Plane.classify_point, Vec3.dot.
  rewrite sub_spec, !add_spec.
  apply sub_not_nan; [|exact Fd].
  apply add_not_nan; [|exact P3].
  apply add_not_nan; [|exact P2].
  apply fin_not_nan. exact P1.
Qed.

End Rounding.


(** ** The partition invariant for polygons made by [from_vertices] *)

Lemma fin_finite (v : float) : is_fin_sf (Prim2SF v) -> finite v = true.
Proof. unfold finite. destruct (Prim2SF v); try contradiction; reflexivity. Qed.

Lemma within_eps_fin (c : float) :
  (abs c <=? eps) = true -> is_fin_sf (Prim2SF c).
Proof.
  rewrite FloatAxioms.leb_spec, abs_spec.
  destruct (Prim2SF c) as [s|s| |s m e]; try (intros _; exact I);
    intros H; vm_compute in H; discriminate.
Qed.

(** A polygon within [eps] of a plane has a centroid with finite
    coordinates, and the plane has a finite normal and a finite offset:
    an infinite or not-a-number factor makes the classification infinite
    or not a number. *)
Lemma coplanar_finite (pl : Plane.t) (q : Polygon.t) :
  is_coplanar pl q = true ->
  exists c, Polygon.centroid q = Ok c /\ finite_vec c = true /\
            finite_vec (Plane.normal pl) = true /\ finite (Plane.d pl) = true.
Proof.
  unfold is_coplanar. destruct (Polygon.centroid q) as [c|] eqn:C; [|discriminate].
  intros H. apply within_eps_fin in H.
  unfold Plane.classify_point, Vec3.dot in H.
  rewrite sub_spec, !add_spec, !mul_spec in H.
  apply sub_fin in H. destruct H as [H Fd].
  apply add_fin in H. destruct H as [H F3].
  apply add_fin in H. destruct H as [F1 F2].
  apply mul_fin in F1, F2, F3.
  destruct F1 as [N1 C1], F2 as [N2 C2], F3 as [N3 C3].
  exists c. split; [reflexivity|]. unfold finite_vec.
  rewrite !fin_finite by assumption. auto.
Qed.

Lemma from_vertices_normal (p : Polygon.t) :
  Polygon.from_vertices (Polygon.vertices p) = Ok p ->
  (exists v, Vec3.normalize v = Ok (Plane.normal (Polygon.plane p))) /\
  (3 <= List.length (Polygon.vertices p))%nat.
Proof.
  unfold Polygon.from_vertices.
  destruct (Polygon.vertices p) as [|v0 [|v1 [|v2 rest]]] eqn:V; try discriminate.
  intros H. apply bind_Ok in H. destruct H as (pl & Hp & H).
  apply Ok_inj in H. subst p. cbn [Polygon.plane].
  unfold Plane.from_points in Hp. apply bind_Ok in Hp.
  destruct Hp as (n & Hn & Hp). apply Ok_inj in Hp. subst pl.
  cbn [Plane.normal]. split; [eauto | simpl; lia].
Qed.

(** Against the plane of a polygon made by [from_vertices] that lies
    within [eps] of its own plane, a polygon made by [from_vertices] that
    some node holds classifies as a number; so when it is neither within
    [eps] nor above 0, it is below 0. *)
Lemma back_is_negative (p q : Polygon.t) (pl' : Plane.t) :
  from_its_vertices p -> self_coplanar p = true ->
  from_its_vertices q -> is_coplanar pl' q = true ->
  is_back (Polygon.plane p) q = true ->
  is_negative (Polygon.plane p) q = true.
Proof.
  intros [Dp _] Sp [Dq Lq] Cq B.
  destruct (@coplanar_finite _ _ Sp) as (_ & _ & _ & Fn & Fd).
  destruct (@coplanar_finite _ _ Cq) as (c & Ec & Fc & _ & _).
  destruct (@from_vertices_normal p Dp) as [(v & Nv) _].
  destruct (@from_vertices_normal q Dq) as [_ L3].
  destruct (@normalize_at_most_2 _ _ Nv) as (N1 & N2 & N3).
  assert (Lq' : (2 <= Z.of_nat (List.length (Polygon.vertices q)) < 2 ^ 63)%Z)
    by lia.
  destruct (@centroid_at_most_half q c Ec Lq') as (C1 & C2 & C3).
  pose proof (@classify_is_a_number (Polygon.plane p) c Fn Fd Fc
                N1 N2 N3 C1 C2 C3) as NN.
  unfold is_back in B. unfold is_negative. rewrite Ec in *.
  apply andb_true_iff in B. destruct B as [B1 B2].
  apply negb_true_iff in B1, B2.
  destruct (@back_negative_or_nan _ B1 B2) as [H|H]; [exact H | congruence].
Qed.

(** Every polygon of a tree with the invariant of [build] is within [eps]
    of the plane of the node that holds it. *)
Lemma invariant_placed (n : BSPNode.t) :
  code_invariant n = true ->
  forall q, In q (flatten n) -> exists pl, is_coplanar pl q = true.
Proof.
  induction n as [pl f b ps IHf IHb] using BSPNode_ind'.
  unfold code_invariant in *. destruct pl as [pl|].
  - rewrite partitioned_mk. intros H q Hq.
    apply andb_true_iff in H. destruct H as [H H5].
    apply andb_true_iff in H. destruct H as [H H4].
    apply andb_true_iff in H. destruct H as [H H3].
    apply andb_true_iff in H. destruct H as [H1 H2].
    rewrite flatten_mk in Hq. apply in_app_or in Hq. destruct Hq as [Hq|Hq].
    + exists pl. rewrite forallb_forall in H1. exact (H1 q Hq).
    + apply in_app_or in Hq. destruct Hq as [Hq|Hq].
      * destruct f as [c|]; [|contradiction]. exact (IHf c eq_refl H4 q Hq).
      * destruct b as [c|]; [|contradiction]. exact (IHb c eq_refl H5 q Hq).
  - simpl. destruct ps; [|discriminate]. destruct f; [discriminate|].
    destruct b; [discriminate|]. intros _ q Hq. contradiction.
Qed.

Lemma anchored_invariant (n : BSPNode.t) :
  anchored n -> code_invariant n = true ->
  (forall q, In q (flatten n) -> from_its_vertices q) ->
  spec_invariant n = true.
Proof.
  induction n as [pl f b ps IHf IHb] using BSPNode_ind'.
  intros (Hp & Af & Ab) H D.
  destruct ps as [|p ps]; [contradiction|]. subst pl.
  unfold code_invariant in H. unfold spec_invariant.
  rewrite partitioned_mk in *.
  apply andb_true_iff in H. destruct H as [H H5].
  apply andb_true_iff in H. destruct H as [H H4].
  apply andb_true_iff in H. destruct H as [H H3].
  apply andb_true_iff in H. destruct H as [H1 H2].
  rewrite flatten_mk in D.
  assert (Sp : self_coplanar p = true).
  { cbn [forallb] in H1. apply andb_true_iff in H1. exact (proj1 H1). }
  assert (Dp : from_its_vertices p) by (apply D; left; reflexivity).
  rewrite H1. rewrite (forallb_weaken _ _ _ (@front_positive (Polygon.plane p)) H2).
  assert (Bk : forallb (is_negative (Polygon.plane p)) (flatten_opt b) = true).
  { apply forallb_forall. intros q Hq. rewrite forallb_forall in H3.
    destruct b as [c|]; [|contradiction].
    destruct (@invariant_placed c H5 q Hq) as [pl' Cq].
    apply (@back_is_negative p q pl'); auto.
    apply D. apply in_or_app. right. apply in_or_app. now right. }
  rewrite Bk. cbn [andb].
  assert (Cf : match f with
               | Some c => partitioned is_coplanar is_positive is_negative c
               | None => true
               end = true).
  { destruct f as [c|]; [|reflexivity]. apply (IHf c eq_refl Af H4).
    intros q Hq. apply D. apply in_or_app. right. apply in_or_app. now left. }
  assert (Cb : match b with
               | Some c => partitioned is_coplanar is_positive is_negative c
               | None => true
               end = true).
  { destruct b as [c|]; [|reflexivity]. apply (IHb c eq_refl Ab H5).
    intros q Hq. apply D. apply in_or_app. right. apply in_or_app. now right. }
  rewrite Cf, Cb. reflexivity.
Qed.

Lemma init_spec_invariant (limit : nat) (polys : list Polygon.t) (t : BSPTree.t) :
  (forall p, In p polys -> from_its_vertices p) ->
  BSPTree.init limit polys = Ok t -> spec_invariant (BSPTree.root t) = true.
Proof.
  intros D H. pose proof (@BSPTree_init_coverage _ _ _ H) as P.
  destruct (@BSPTree_init_inv _ _ _ H) as [[_ ->]|[Hne B]]; [reflexivity|].
  destruct (@build_anchored limit polys (BSPTree.root t) B Hne) as (A & _ & _).
  apply anchored_invariant; [exact A | exact (@build_invariant _ _ _ B) |].
  intros q Hq. apply D. apply (Permutation_in _ P). exact Hq.
Qed.


(** C7. For polygons made by [Polygon.from_vertices] (a vertex list is
    shorter than 2^63, as every list of the interpreter is): in every tree
    produced by [BSPTree] construction, each node's stored polygons
    classify within 1e-5 of that node's plane, every polygon stored
    anywhere in the node's front subtree classifies above 0 against that
    plane, and every polygon in its back subtree classifies below 0; and
    every tree that [apply_explosion] returns for such a tree has the same
    property. The classification of a stored polygon against the plane of
    a node is never not-a-number: the node's plane is the plane of a
    polygon the node holds, so its normal and offset are finite; the
    normal comes out of [normalize], so its components are at most 2 in
    magnitude; and a centroid of three or more vertices that some node
    holds has finite coordinates of at most half of the largest number. *)
Theorem trees_of_made_polygons_are_partitioned (limit : nat)
  (polys : list Polygon.t) (t : BSPTree.t) :
  (forall p, In p polys -> from_its_vertices p) ->
  BSPTree.init limit polys = Ok t ->
  spec_invariant (BSPTree.root t) = true /\
  forall limit' position radius t',
    apply_explosion limit' t position radius = Ok t' ->
    spec_invariant (BSPTree.root t') = true.
Proof.
  intros D H. split; [exact (@init_spec_invariant limit polys t D H)|].
  intros limit' position radius t' E. apply apply_explosion_inv in E.
  destruct E as [_ E]. apply (@init_spec_invariant _ _ _) with (2 := E).
  intros p Hp. apply filter_In in Hp. destruct Hp as [Hp _].
  apply D. apply (Permutation_in _ (@BSPTree_init_coverage _ _ _ H)).
  exact Hp.
Qed.

Lemma trees_of_made_polygons_are_partitioned_witness :
  (forall p, In p Sample.cube -> from_its_vertices p) /\
  exists t,
    BSPTree.init 6 Sample.cube = Ok t /\
    spec_invariant (BSPTree.root t) = true.
Proof.
  assert (D : forall p, In p Sample.cube -> from_its_vertices p).
  { intros p Hp. vm_compute in Hp.
    repeat (destruct Hp as [Hp|Hp];
            [subst p; split; vm_compute; reflexivity|]).
    contradiction. }
  split; [exact D|].
  assert (E : exists t, BSPTree.init 6 Sample.cube = Ok t)
    by (vm_compute; eexists; reflexivity).
  destruct E as [t E]. exists t. split; [exact E|].
  pose proof (@trees_of_made_polygons_are_partitioned 6 Sample.cube t D E) as X.
  destruct X as [X _]. exact X.
Defined.

(** ** The city satisfies the invariant as the specification words it *)

Lemma cube_faces_made (center : Vec3.t) (size : float) :
  forall p, In p (cube_faces center size) -> from_its_vertices p.
Proof.
  unfold cube_faces, make_cube. cbv zeta. cbn [comprehension].
  repeat match goal with
         | |- context [Polygon.from_vertices [?a; ?b; ?c; ?d]] =>
             let E := fresh "E" in
             destruct (from_vertices_quad a b c d) as [? E];
             rewrite E; cbn [bind]
         end.
  intros p Hp. cbn [In] in Hp.
  repeat (destruct Hp as [Hp|Hp];
          [subst p; split;
           [cbn [Polygon.vertices]; assumption | vm_compute; reflexivity]|]).
  contradiction.
Qed.

Lemma city_polygons_made (rows cols : nat) (spacing size : float) :
  forall p, In p (city_polygons rows cols spacing size) -> from_its_vertices p.
Proof.
  unfold city_polygons. intros p Hp.
  apply in_flat_map in Hp. destruct Hp as (i & _ & Hp).
  apply in_flat_map in Hp. destruct Hp as (j & _ & Hp).
  exact (@cube_faces_made _ _ p Hp).
Qed.

(** Every tree [build_city] returns, whatever the numbers of rows and
    columns, the spacing and the size are, satisfies the partition
    invariant as the specification words it: each node's polygons
    classify within 1e-5 of the node's plane, the polygons of its front
    subtree above 0 and the polygons of its back subtree below 0; and so
    does every tree [apply_explosion] returns for it. *)
Theorem city_trees_are_partitioned (limit rows cols : nat)
  (spacing size : float) (t : BSPTree.t) :
  build_city limit rows cols spacing size = Ok t ->
  spec_invariant (BSPTree.root t) = true /\
  forall limit' position radius t',
    apply_explosion limit' t position radius = Ok t' ->
    spec_invariant (BSPTree.root t') = true.
Proof.
  rewrite build_city_eq. intros H.
  pose proof (@city_polygons_made rows cols spacing size) as D.
  split; [exact (@init_spec_invariant _ _ _ D H)|].
  intros limit' position radius t' E. apply apply_explosion_inv in E.
  destruct E as [_ E]. apply (@init_spec_invariant _ _ _) with (2 := E).
  intros p Hp. apply filter_In in Hp. destruct Hp as [Hp _].
  apply D. apply (Permutation_in _ (@BSPTree_init_coverage _ _ _ H)).
  exact Hp.
Qed.

Lemma city_trees_are_partitioned_witness :
  exists t,
    build_city 12 1 2 20 10 = Ok t /\
    spec_invariant (BSPTree.root t) = true.
Proof.
  assert (E : exists t, build_city 12 1 2 20 10 = Ok t)
    by (vm_compute; eexists; reflexivity).
  destruct E as [t E]. exists t. split; [exact E|].
  pose proof (@city_trees_are_partitioned 12 1 2 20 10 t E) as X.
  destruct X as [X _]. exact X.
Defined.
